(** * claude-vtuber-avatar: speech orchestration and session-log tailing

    A shallow embedding of the speech pipeline of the avatar server
    ([src/server.ts] with the voicevox module that follows it, and the two
    Electron main-process files) and of the session-log watcher, together
    with the properties of the specification that concern them.

    JavaScript values are modelled as the code uses them: a [Buffer] is a
    list of bytes, a JS number is an IEEE-754 binary64 value (Stdlib's
    [spec_float] at precision 53), a JS string is a list of UTF-16 code
    units where its length matters, [Set]s and [Map]s are stdpp's [gset] and
    [gmap].  Asynchronous code is modelled by event-loop turns: one step of a
    transition function is the synchronous code that runs between two
    suspension points ([await], a timer, a process event). *)

From Stdlib Require Import ZArith List String Ascii Lia Bool SpecFloat.
From Stdlib.Strings Require Import Byte.
From Stdlib Require Import DecimalString.
From stdpp Require Import base option list gmap strings.
Import ListNotations.

Local Open Scope Z_scope.

(** ** Constants ([constants.ts]; the Electron files repeat them) *)

Module Constants.

Definition EXPRESSIONS : list string :=
  ["normal"; "smile"; "eye_sparkle"; "surprise"; "shock"]%string.
Definition EXPRESSION_DURATION_MS : Z := 3000.
Definition MAX_TEXT_LENGTH : nat := 200.
Definition DEFAULT_AUDIO_DURATION_MS : Z := 2000.
Definition DEBOUNCE_MS : Z := 100.

End Constants.

(** ** JavaScript numbers *)

Module JsNumber.

(** A JS number is a binary64 float. *)
Definition number : Type := spec_float.

Definition prec : Z := 53.
Definition emax : Z := 1024.

(** The number denoted by an integer literal or an integer-valued read
    (exact below 2^53, rounded to nearest even above). *)
Definition of_Z (z : Z) : number := binary_normalize prec emax z 0 false.

Definition div (x y : number) : number := SFdiv prec emax x y.
Definition mul (x y : number) : number := SFmul prec emax x y.

(** The integer part, rounded towards minus infinity, of a finite number. *)
Definition floorZ (s : bool) (m : positive) (e : Z) : Z :=
  let v := if s then Z.neg m else Z.pos m in
  if 0 <=? e then v * 2 ^ e else v / 2 ^ (- e).

(** [Math.floor]: infinities, NaN and zeros are returned as they are. *)
Definition Math_floor (x : number) : number :=
  match x with
  | S754_finite s m e => of_Z (floorZ s m e)
  | _ => x
  end.

(** JS truthiness of a number: [0], [-0] and [NaN] are falsy. *)
Definition truthy (x : number) : bool :=
  match x with
  | S754_zero _ | S754_nan => false
  | _ => true
  end.

End JsNumber.

(** ** DurationEstimator: [getWavDuration] *)

Module Wav.
Import Constants JsNumber.

(** The outcome of a block that can throw. *)
Inductive exn (A : Type) : Type :=
| Ok (a : A)
| Throw (msg : string).
Arguments Ok {A} a.
Arguments Throw {A} msg.

#[global] Instance exn_ret : MRet exn := fun A a => Ok a.

#[global] Instance exn_bind : MBind exn := fun A B k c =>
  match c with
  | Ok a => k a
  | Throw m => Throw m
  end.

(** [try { body } catch (e) { handler }] *)
Definition try_catch {A} (body : exn A) (handler : string -> exn A) : exn A :=
  match body with
  | Ok a => Ok a
  | Throw m => handler m
  end.

Definition byte_val (b : byte) : Z := Z.of_N (Byte.to_N b).

(** [buffer.readUInt32LE(off)]: a RangeError when the four bytes are not all
    inside the buffer. *)
Definition readUInt32LE (buffer : list byte) (off : nat) : exn Z :=
  match buffer !! off, buffer !! (off + 1)%nat,
        buffer !! (off + 2)%nat, buffer !! (off + 3)%nat with
  | Some b0, Some b1, Some b2, Some b3 =>
      Ok (byte_val b0 + byte_val b1 * 2 ^ 8 + byte_val b2 * 2 ^ 16
          + byte_val b3 * 2 ^ 24)
  | _, _, _, _ => Throw "ERR_OUT_OF_RANGE"
  end.

(** [buffer[i] === c]: an index outside the buffer reads [undefined], which
    equals no byte. *)
Definition byte_is (buffer : list byte) (i : nat) (c : byte) : bool :=
  match buffer !! i with
  | Some b => Byte.eqb b c
  | None => false
  end.

(** The four comparisons of the loop body: 'd' 'a' 't' 'a'. *)
Definition is_data_tag (buffer : list byte) (i : nat) : bool :=
  byte_is buffer i "d"%byte && byte_is buffer (i + 1) "a"%byte
  && byte_is buffer (i + 2) "t"%byte && byte_is buffer (i + 3) "a"%byte.

(** [for (let i = ...; i < buffer.length - 8; i++)], with [fuel] the number
    of iterations left; [dataSize] is still 0 when the loop runs out. *)
Fixpoint scan_data (buffer : list byte) (i fuel : nat) : exn Z :=
  match fuel with
  | O => Ok 0
  | S fuel' =>
      if is_data_tag buffer i then readUInt32LE buffer (i + 4)
      else scan_data buffer (S i) fuel'
  end.

Definition DEFAULT : number := of_Z DEFAULT_AUDIO_DURATION_MS.

(** [Math.floor((dataSize / byteRate) * 1000)] *)
Definition floor_ms (dataSize byteRate : Z) : number :=
  Math_floor (mul (div (of_Z dataSize) (of_Z byteRate)) (of_Z 1000)).

(** The body of the [try] block (Electron files). *)
Definition getWavDuration_body (buffer : list byte) : exn number :=
  byteRate ← readUInt32LE buffer 28;
  dataSize ← scan_data buffer 0 (length buffer - 8);
  if (dataSize =? 0) || (byteRate =? 0) then Ok DEFAULT
  else Ok (floor_ms dataSize byteRate).

Definition getWavDuration (buffer : list byte) : exn number :=
  try_catch (getWavDuration_body buffer) (fun _ => Ok DEFAULT).

(** The TypeScript server also reads the sample rate at offset 24, which it
    does not use. *)
Definition getWavDuration_ts (buffer : list byte) : exn number :=
  try_catch
    (sampleRate ← readUInt32LE buffer 24;
     getWavDuration_body buffer)
    (fun _ => Ok DEFAULT).

(** *** Declarative reading of the header *)

(** The little-endian 32-bit value [v] stands at offset [off]. *)
Definition le32_at (buffer : list byte) (off : nat) (v : Z) : Prop :=
  exists b0 b1 b2 b3,
    buffer !! off = Some b0 /\ buffer !! (off + 1)%nat = Some b1 /\
    buffer !! (off + 2)%nat = Some b2 /\ buffer !! (off + 3)%nat = Some b3 /\
    v = byte_val b0 + byte_val b1 * 2 ^ 8 + byte_val b2 * 2 ^ 16
        + byte_val b3 * 2 ^ 24.

(** The tag 'data' stands at index [i]. *)
Definition tag_at (buffer : list byte) (i : nat) : Prop :=
  buffer !! i = Some "d"%byte /\ buffer !! (i + 1)%nat = Some "a"%byte /\
  buffer !! (i + 2)%nat = Some "t"%byte /\ buffer !! (i + 3)%nat = Some "a"%byte.

(** [i] is the first index holding the tag, and the scan reaches it: at
    least one byte follows the size field. *)
Definition first_tag (buffer : list byte) (i : nat) : Prop :=
  tag_at buffer i /\ (i + 8 < length buffer)%nat /\
  forall j, (j < i)%nat -> ~ tag_at buffer j.

(** The case in which the code applies the formula: a non-zero byte rate
    at offset 28, and a non-zero size after the first tag within the scanned
    range. *)
Definition formula_applies (buffer : list byte) (byteRate : Z) (i : nat)
    (dataSize : Z) : Prop :=
  le32_at buffer 28 byteRate /\ byteRate <> 0 /\ first_tag buffer i /\
  le32_at buffer (i + 4) dataSize /\ dataSize <> 0.

(** The case as the specification words it: a non-zero byte rate at offset
    28, and a tag followed by a non-zero size somewhere in the buffer. *)
Definition tag_with_size (buffer : list byte) (byteRate : Z) (i : nat)
    (dataSize : Z) : Prop :=
  le32_at buffer 28 byteRate /\ byteRate <> 0 /\ tag_at buffer i /\
  le32_at buffer (i + 4) dataSize /\ dataSize <> 0.

(** *** Sample buffers *)

Definition byte_of_Z (z : Z) : byte :=
  match Byte.of_N (Z.to_N (z mod 256)) with
  | Some b => b
  | None => "000"%byte
  end.

(** The four bytes of a 32-bit value, least significant first. *)
Definition le32 (v : Z) : list byte :=
  [byte_of_Z v; byte_of_Z (v / 2 ^ 8); byte_of_Z (v / 2 ^ 16);
   byte_of_Z (v / 2 ^ 24)].

Definition le16 (v : Z) : list byte := [byte_of_Z v; byte_of_Z (v / 2 ^ 8)].

(** A canonical 44-byte PCM header (tag at 36, size at 40) followed by
    [payload]; [dataSize] is the size the header announces. *)
Definition wav (sampleRate byteRate dataSize : Z) (payload : list byte)
  : list byte :=
  list_byte_of_string "RIFF" ++ le32 (36 + dataSize) ++
  list_byte_of_string "WAVE" ++ list_byte_of_string "fmt " ++
  le32 16 ++ le16 1 ++ le16 1 ++ le32 sampleRate ++ le32 byteRate ++
  le16 2 ++ le16 16 ++
  list_byte_of_string "data" ++ le32 dataSize ++ payload.

(** One second of silence at 48000 bytes per second, announced but not
    present: the buffer ends with the size field. *)
Definition wav_header_only : list byte := wav 24000 48000 48000 [].

(** The same header with one payload byte. *)
Definition wav_one_byte : list byte := wav 24000 48000 48000 ["000"%byte].

(** *** Properties *)

Lemma readUInt32LE_le32_at (buffer : list byte) (off : nat) (v : Z) :
  readUInt32LE buffer off = Ok v <-> le32_at buffer off v.
Proof.
  unfold readUInt32LE, le32_at. split.
  - destruct (buffer !! off) as [b0|] eqn:E0; [|discriminate].
    destruct (buffer !! (off + 1)%nat) as [b1|] eqn:E1; [|discriminate].
    destruct (buffer !! (off + 2)%nat) as [b2|] eqn:E2; [|discriminate].
    destruct (buffer !! (off + 3)%nat) as [b3|] eqn:E3; [|discriminate].
    intros [= <-]. exists b0, b1, b2, b3. auto.
  - intros (b0 & b1 & b2 & b3 & -> & -> & -> & -> & ->). reflexivity.
Qed.

Lemma readUInt32LE_in_range (buffer : list byte) (off : nat) :
  (off + 3 < length buffer)%nat -> exists v, readUInt32LE buffer off = Ok v.
Proof.
  intros H. unfold readUInt32LE.
  destruct (lookup_lt_is_Some_2 buffer off) as [b0 ->]; [lia|].
  destruct (lookup_lt_is_Some_2 buffer (off + 1)) as [b1 ->]; [lia|].
  destruct (lookup_lt_is_Some_2 buffer (off + 2)) as [b2 ->]; [lia|].
  destruct (lookup_lt_is_Some_2 buffer (off + 3)) as [b3 ->]; [lia|].
  eauto.
Qed.

Lemma readUInt32LE_out_of_range (buffer : list byte) (off : nat) :
  (length buffer < off + 4)%nat -> exists m, readUInt32LE buffer off = Throw m.
Proof.
  intros H. unfold readUInt32LE.
  rewrite (lookup_ge_None_2 buffer (off + 3)) by lia.
  destruct (buffer !! off), (buffer !! (off + 1)%nat), (buffer !! (off + 2)%nat);
    eauto.
Qed.

Lemma byte_is_spec (buffer : list byte) (i : nat) (c : byte) :
  byte_is buffer i c = true <-> buffer !! i = Some c.
Proof.
  unfold byte_is. destruct (buffer !! i) as [b|]; [|split; discriminate].
  split.
  - intros H. f_equal. now apply Byte.byte_dec_bl.
  - intros [= ->]. now apply Byte.byte_dec_lb.
Qed.

Lemma is_data_tag_spec (buffer : list byte) (i : nat) :
  is_data_tag buffer i = true <-> tag_at buffer i.
Proof.
  unfold is_data_tag, tag_at.
  rewrite !andb_true_iff, !byte_is_spec. tauto.
Qed.

(** What the loop computes: either no tag stands in the scanned range and
    [dataSize] stays 0, or the read after the first tag of the range. *)
Lemma scan_data_cases (buffer : list byte) (fuel i0 : nat) :
  (scan_data buffer i0 fuel = Ok 0 /\
   forall j, (i0 <= j < i0 + fuel)%nat -> ~ tag_at buffer j) \/
  (exists i, (i0 <= i < i0 + fuel)%nat /\ tag_at buffer i /\
             (forall j, (i0 <= j < i)%nat -> ~ tag_at buffer j) /\
             scan_data buffer i0 fuel = readUInt32LE buffer (i + 4)).
Proof.
  revert i0. induction fuel as [|fuel IH]; intros i0; simpl.
  - left. split; [reflexivity | intros j Hj; lia].
  - destruct (is_data_tag buffer i0) eqn:Etag.
    + right. exists i0. apply is_data_tag_spec in Etag.
      split; [lia|]. split; [exact Etag|]. split; [intros j Hj; lia|].
      reflexivity.
    + assert (Hno : ~ tag_at buffer i0).
      { rewrite <- is_data_tag_spec. congruence. }
      destruct (IH (S i0)) as [[Hz Hnone] | (i & Hi & Ht & Hfirst & Hscan)].
      * left. split; [exact Hz|]. intros j Hj.
        destruct (decide (j = i0)) as [->|Hne]; [exact Hno|].
        apply Hnone. lia.
      * right. exists i. split; [lia|]. split; [exact Ht|].
        split; [|exact Hscan]. intros j Hj. destruct (decide (j = i0)) as [->|Hne]; [exact Hno|].
        apply Hfirst. lia.
Qed.

Lemma first_tag_unique (buffer : list byte) (i j : nat) :
  first_tag buffer i -> first_tag buffer j -> i = j.
Proof.
  intros (Hi & _ & Hfi) (Hj & _ & Hfj).
  destruct (lt_eq_lt_dec i j) as [[Hlt | ->] | Hlt]; [|reflexivity|].
  - exfalso. exact (Hfj i Hlt Hi).
  - exfalso. exact (Hfi j Hlt Hj).
Qed.

Lemma le32_at_unique (buffer : list byte) (off : nat) (v w : Z) :
  le32_at buffer off v -> le32_at buffer off w -> v = w.
Proof.
  rewrite <- !readUInt32LE_le32_at. congruence.
Qed.

(** The scan finds the first tag when the loop bound lets it. *)
Lemma scan_data_first_tag (buffer : list byte) (i : nat) :
  first_tag buffer i ->
  scan_data buffer 0 (length buffer - 8) = readUInt32LE buffer (i + 4).
Proof.
  intros (Ht & Hlen & Hfirst).
  destruct (scan_data_cases buffer (length buffer - 8) 0)
    as [[_ Hnone] | (k & Hk & Htk & Hfk & ->)].
  - exfalso. apply (Hnone i); [lia | exact Ht].
  - destruct (lt_eq_lt_dec i k) as [[Hlt | ->] | Hlt]; [|reflexivity|].
    + exfalso. apply (Hfk i); [lia | exact Ht].
    + exfalso. exact (Hfirst k Hlt Htk).
Qed.

Lemma readUInt32LE_throw_inv (buffer : list byte) (off : nat) (m : string) :
  readUInt32LE buffer off = Throw m -> (length buffer < off + 4)%nat.
Proof.
  intros H. destruct (le_lt_dec (off + 4) (length buffer)) as [Hle|Hlt];
    [|exact Hlt].
  destruct (readUInt32LE_in_range buffer off) as [v Hv]; [lia|]. congruence.
Qed.

(** X6.  The two files compute the same duration. *)
Lemma getWavDuration_ts_eq (buffer : list byte) :
  getWavDuration_ts buffer = getWavDuration buffer.
Proof.
  unfold getWavDuration_ts, getWavDuration.
  destruct (readUInt32LE buffer 24) as [sr|m] eqn:E; [reflexivity|].
  apply readUInt32LE_throw_inv in E. unfold getWavDuration_body.
  destruct (readUInt32LE_out_of_range buffer 28) as [m' ->]; [lia|].
  reflexivity.
Qed.

(** [getWavDuration] never raises. *)
Lemma getWavDuration_total (buffer : list byte) :
  exists ms, getWavDuration buffer = Ok ms.
Proof.
  unfold getWavDuration, getWavDuration_body, try_catch.
  destruct (readUInt32LE buffer 28) as [b|m]; simpl; [|eauto].
  destruct (scan_data buffer 0 (length buffer - 8)) as [d|m]; simpl; [|eauto].
  destruct ((d =? 0) || (b =? 0)); eauto.
Qed.

(** C4 (as amended).  [getWavDuration] never raises; when the byte rate at
    offset 28 is non-zero and the first 'data' tag, at an index [i] with
    [i + 8 < length], is followed by a non-zero size, it returns
    [Math.floor] of the binary64 value [(dataSize / byteRate) * 1000]; in
    every other case it returns the fallback 2000. *)
Theorem getWavDuration_spec (buffer : list byte) :
  (exists ms, getWavDuration buffer = Ok ms) /\
  (forall b i d, formula_applies buffer b i d ->
                 getWavDuration buffer = Ok (floor_ms d b)) /\
  ((forall b i d, ~ formula_applies buffer b i d) ->
   getWavDuration buffer = Ok (of_Z 2000)).
Proof.
  split; [apply getWavDuration_total|]. split.
  - intros b i d (Hb & Hb0 & Hi & Hd & Hd0).
    unfold getWavDuration, getWavDuration_body.
    apply readUInt32LE_le32_at in Hb. rewrite Hb. simpl.
    rewrite (scan_data_first_tag buffer i Hi).
    apply readUInt32LE_le32_at in Hd. rewrite Hd. simpl.
    destruct (Z.eqb_spec d 0) as [?|_]; [contradiction|].
    destruct (Z.eqb_spec b 0) as [?|_]; [contradiction|]. reflexivity.
  - intros Hnot. unfold getWavDuration, getWavDuration_body.
    destruct (readUInt32LE buffer 28) as [b|m] eqn:Eb; [|reflexivity].
    simpl.
    destruct (scan_data_cases buffer (length buffer - 8) 0)
      as [[-> _] | (i & Hi & Ht & Hfirst & ->)]; [reflexivity|].
    destruct (readUInt32LE_in_range buffer (i + 4)) as [d Ed]; [lia|].
    rewrite Ed. simpl.
    destruct (Z.eqb_spec d 0) as [_|Hd0]; [reflexivity|].
    destruct (Z.eqb_spec b 0) as [_|Hb0]; [reflexivity|].
    exfalso. apply (Hnot b i d).
    split; [now apply readUInt32LE_le32_at|]. split; [exact Hb0|].
    split; [|split; [now apply readUInt32LE_le32_at | exact Hd0]].
    split; [exact Ht|]. split; [lia|]. intros j Hj. apply Hfirst. lia.
Qed.

(** A header with one payload byte: one second. *)
Example getWavDuration_one_second :
  formula_applies wav_one_byte 48000 36 48000 /\
  getWavDuration wav_one_byte = Ok (of_Z 1000).
Proof.
  split; [|reflexivity].
  split; [apply readUInt32LE_le32_at; reflexivity|].
  split; [discriminate|].
  split; [|split; [apply readUInt32LE_le32_at; reflexivity | discriminate]].
  split; [apply is_data_tag_spec; reflexivity|].
  split; [vm_compute; lia|].
  intros j Hj [Hd _]. revert Hd.
  do 36 (destruct j as [|j]; [vm_compute; discriminate|]). lia.
Qed.

(** C4 (as stated) fails: the buffer that ends with the size field has a
    non-zero byte rate at offset 28 and its only 'data' tag is followed by
    a non-zero size, yet the loop stops before index 36 and the fallback
    is returned instead of one second. *)
Lemma getWavDuration_header_only_fallback :
  tag_with_size wav_header_only 48000 36 48000 /\
  (forall j, tag_at wav_header_only j -> j = 36%nat) /\
  getWavDuration wav_header_only = Ok (of_Z 2000) /\
  floor_ms 48000 48000 = of_Z 1000 /\
  of_Z 2000 <> of_Z 1000.
Proof.
  split.
  { split; [apply readUInt32LE_le32_at; reflexivity|].
    split; [discriminate|].
    split; [apply is_data_tag_spec; reflexivity|].
    split; [apply readUInt32LE_le32_at; reflexivity | discriminate]. }
  split.
  { intros j [Hd _]. revert Hd.
    do 36 (destruct j as [|j]; [vm_compute; discriminate|]).
    destruct j as [|j]; [reflexivity|].
    do 7 (destruct j as [|j]; [vm_compute; discriminate|]).
    vm_compute. discriminate. }
  split; [reflexivity|]. split; [reflexivity|]. discriminate.
Qed.

(** Only the first tag counts: a zero size after it gives the fallback even
    when a later tag announces a payload. *)
Example getWavDuration_first_tag_only :
  let buffer := wav 24000 48000 0 (list_byte_of_string "data" ++ le32 48000
                                    ++ ["000"%byte]) in
  tag_with_size buffer 48000 44 48000 /\
  getWavDuration buffer = Ok (of_Z 2000).
Proof.
  split; [|reflexivity].
  split; [apply readUInt32LE_le32_at; reflexivity|].
  split; [discriminate|].
  split; [apply is_data_tag_spec; reflexivity|].
  split; [apply readUInt32LE_le32_at; reflexivity | discriminate].
Qed.

(** The quotient is rounded to binary64 before it is scaled: 1001 bytes at
    1000 bytes per second give 1000 ms, one less than the exact floor. *)
Example getWavDuration_rounds_down :
  getWavDuration (wav 500 1000 1001 ["000"%byte]) = Ok (of_Z 1000) /\
  1001 * 1000 / 1000 = 1001.
Proof. split; reflexivity. Qed.

(** A buffer too short for the header: the read throws and the fallback is
    returned. *)
Example getWavDuration_short_buffer :
  readUInt32LE (list_byte_of_string "RIFF") 28 = Throw "ERR_OUT_OF_RANGE" /\
  getWavDuration (list_byte_of_string "RIFF") = Ok (of_Z 2000).
Proof. split; reflexivity. Qed.

End Wav.

(** ** Text truncation ([speakWithVoicevox], first statement after the
    bookkeeping) *)

Module Text.
Import Constants.

(** A JS string where its length matters: the list of its UTF-16 code
    units, so that [text.length] is [length] and [text.slice(0, n)] is
    [take n]. *)
Definition jsstring : Type := list N.

(** The code units of an ASCII literal. *)
Definition of_ascii (s : string) : jsstring :=
  map (fun b => Byte.to_N b) (list_byte_of_string s).

(** ['...'] *)
Definition ellipsis : jsstring := of_ascii "...".

(** [text.length > MAX_TEXT_LENGTH ? text.slice(0, MAX_TEXT_LENGTH) + '...' : text] *)
Definition truncateText (text : jsstring) : jsstring :=
  if (MAX_TEXT_LENGTH <? length text)%nat
  then take MAX_TEXT_LENGTH text ++ ellipsis
  else text.

(** A high surrogate: a code unit in D800..DBFF. *)
Definition is_high (c : N) : bool := (55296 <=? c)%N && (c <=? 56319)%N.

(** A low surrogate: a code unit in DC00..DFFF. *)
Definition is_low (c : N) : bool := (56320 <=? c)%N && (c <=? 57343)%N.

(** The string has no lone surrogate: the strings [encodeURIComponent]
    accepts; on the others it throws a URIError. *)
Fixpoint well_formed (s : jsstring) : bool :=
  match s with
  | [] => true
  | c :: rest =>
      if is_high c then
        match rest with
        | d :: rest' => is_low d && well_formed rest'
        | [] => false
        end
      else if is_low c then false
      else well_formed rest
  end.

(** U+1F600 as its surrogate pair. *)
Definition grinning_face : jsstring := [55357; 56832]%N.

(** 199 letters followed by an emoji. *)
Definition emoji_at_limit : jsstring := repeat 97%N 199 ++ grinning_face.

Lemma truncateText_long (text : jsstring) :
  (MAX_TEXT_LENGTH < length text)%nat ->
  truncateText text = take 200 text ++ ellipsis.
Proof.
  intros H. unfold truncateText.
  destruct (Nat.ltb_spec MAX_TEXT_LENGTH (length text)); [reflexivity | lia].
Qed.

Lemma truncateText_short (text : jsstring) :
  (length text <= MAX_TEXT_LENGTH)%nat -> truncateText text = text.
Proof.
  intros H. unfold truncateText.
  destruct (Nat.ltb_spec MAX_TEXT_LENGTH (length text)); [lia | reflexivity].
Qed.

Lemma truncateText_length (text : jsstring) :
  (length (truncateText text) <= 203)%nat.
Proof.
  unfold truncateText, MAX_TEXT_LENGTH.
  destruct (Nat.ltb_spec 200 (length text)) as [H|H].
  - rewrite length_app, length_take. change (length ellipsis) with 3%nat. lia.
  - lia.
Qed.

End Text.

(** ** ClientBroadcaster messages and the [/expression] route *)

Module Express.
Import Constants JsNumber.

#[local] Set Warnings "-register-all".

(** A parsed JSON value ([express.json()] fills [req.body]). *)
Inductive json : Type :=
| JNull
| JBool (b : bool)
| JNum (n : number)
| JStr (s : string)
| JArr (items : list json)
| JObj (fields : list (string * json)).

(** [body.key]: [None] stands for [undefined]. *)
Fixpoint assoc (key : string) (fields : list (string * json)) : option json :=
  match fields with
  | [] => None
  | (k, v) :: rest => if String.eqb k key then Some v else assoc key rest
  end.

(** JS truthiness of a destructured field. *)
Definition truthy (v : option json) : bool :=
  match v with
  | None => false
  | Some JNull => false
  | Some (JBool b) => b
  | Some (JNum n) => JsNumber.truthy n
  | Some (JStr s) => negb (String.eqb s "")
  | Some (JArr _) | Some (JObj _) => true
  end.

(** The messages sent to the observers ([lipsync-notifier.ts]). *)
Inductive MotionEvent : Type :=
| LipsyncStart (duration : number)
| LipsyncStop
| Expression (name : string) (duration : json).

(** [EXPRESSIONS.includes(name)] *)
Definition includes (names : list string) (v : option json) : bool :=
  match v with
  | Some (JStr s) => existsb (String.eqb s) names
  | _ => false
  end.

Record response : Type := {
  status : Z;
  broadcasts : list MotionEvent
}.

(** [app.post("/expression", ...)]: the body is the parsed JSON object. *)
Definition post_expression (body : list (string * json)) : response :=
  let name := assoc "name" body in
  let duration := assoc "duration" body in
  if negb (truthy name) || negb (includes EXPRESSIONS name) then
    {| status := 400; broadcasts := [] |}
  else
    let durationMs :=
      if truthy duration then default JNull duration
      else JNum (of_Z EXPRESSION_DURATION_MS) in
    match name with
    | Some (JStr n) =>
        {| status := 200; broadcasts := [Expression n durationMs] |}
    | _ => {| status := 400; broadcasts := [] |}
    end.

(** The request names one of the five expressions. *)
Definition valid_name (body : list (string * json)) (n : string) : Prop :=
  assoc "name" body = Some (JStr n) /\ In n EXPRESSIONS.

Lemma valid_name_accepted (body : list (string * json)) (n : string) :
  valid_name body n ->
  truthy (assoc "name" body) = true /\
  includes EXPRESSIONS (assoc "name" body) = true.
Proof.
  intros [-> Hin]. simpl in Hin.
  destruct Hin as [<-|[<-|[<-|[<-|[<-|[]]]]]]; split; reflexivity.
Qed.

Lemma post_expression_valid (body : list (string * json)) (n : string) :
  valid_name body n ->
  post_expression body =
    {| status := 200;
       broadcasts :=
         [Expression n
            (if truthy (assoc "duration" body)
             then default JNull (assoc "duration" body)
             else JNum (of_Z 3000))] |}.
Proof.
  intros H. destruct (valid_name_accepted body n H) as [Ht Hi].
  unfold post_expression. rewrite Ht, Hi. destruct H as [-> _]. reflexivity.
Qed.

(** C10.  With a valid name: a duration that is absent, [null] or zero is
    replaced by 3000 in the broadcast; a truthy duration is broadcast as
    supplied; and a supplied duration is broadcast as supplied only if it
    is truthy, so not zero. *)
Theorem post_expression_duration (body : list (string * json)) (n : string) :
  valid_name body n ->
  (forall s, assoc "duration" body = None \/
             assoc "duration" body = Some JNull \/
             assoc "duration" body = Some (JNum (S754_zero s)) ->
     broadcasts (post_expression body) = [Expression n (JNum (of_Z 3000))]) /\
  (forall d, assoc "duration" body = Some d -> truthy (Some d) = true ->
     broadcasts (post_expression body) = [Expression n d]) /\
  (forall d, assoc "duration" body = Some d ->
     broadcasts (post_expression body) = [Expression n d] ->
     truthy (Some d) = true /\ forall s, d <> JNum (S754_zero s)).
Proof.
  intros H. rewrite (post_expression_valid body n H). cbn [broadcasts].
  split; [|split].
  - intros s [-> | [-> | ->]]; reflexivity.
  - intros d Hd Ht. rewrite Hd, Ht. reflexivity.
  - intros d -> Hb. destruct (truthy (Some d)) eqn:Ht.
    + split; [reflexivity|]. intros s ->. discriminate.
    + injection Hb as <-. discriminate.
Qed.

(** A request with [duration: 0] is broadcast with 3000, one with
    [duration: 500] with 500. *)
Lemma post_expression_duration_witness :
  broadcasts (post_expression [("name", JStr "smile"); ("duration", JNum (of_Z 0))]%string)
    = [Expression "smile" (JNum (of_Z 3000))] /\
  broadcasts (post_expression [("name", JStr "smile"); ("duration", JNum (of_Z 500))]%string)
    = [Expression "smile" (JNum (of_Z 500))].
Proof.
  split.
  - refine (proj1 (post_expression_duration _ "smile" _) false _).
    + split; [reflexivity | simpl; tauto].
    + right. right. reflexivity.
  - refine (proj1 (proj2 (post_expression_duration _ "smile" _)) _ _ _).
    + split; [reflexivity | simpl; tauto].
    + reflexivity.
    + reflexivity.
Defined.

(** Other falsy values fall back as well. *)
Example post_expression_falsy_string :
  broadcasts (post_expression [("name", JStr "shock"); ("duration", JStr "")]%string)
    = [Expression "shock" (JNum (of_Z 3000))].
Proof. reflexivity. Qed.

Example post_expression_unknown_name :
  post_expression [("name", JStr "suprise"); ("duration", JNum (of_Z 500))]%string
    = {| status := 400; broadcasts := [] |}.
Proof. reflexivity. Qed.

End Express.

(** ** SpeechOrchestrator: what the variants share *)

Module Speech.
Import Constants JsNumber Text.
Export Express.

(** A thrown JS error: [error.name] and [error.message]. *)
Record js_error : Type := {
  err_name : string;
  err_message : string
}.

(** [haystack.includes(needle)] *)
Fixpoint str_includes (needle haystack : string) : bool :=
  String.prefix needle haystack ||
  match haystack with
  | EmptyString => false
  | String _ rest => str_includes needle rest
  end.

(** The decimal rendering of a status code inside a template literal. *)
Definition show_status (status : N) : string :=
  NilEmpty.string_of_uint (N.to_uint status).

(** [new Error(`${what}${status}`)] *)
Definition http_error (what : string) (status : N) : js_error :=
  {| err_name := "Error"; err_message := what +:+ show_status status |}.

(** What [encodeURIComponent] throws on a lone surrogate. *)
Definition URI_MALFORMED : js_error :=
  {| err_name := "URIError"; err_message := "URI malformed" |}.

(** How the global [fetch] rejects when the connection is refused: a
    [TypeError] with the message "fetch failed"; the refusal
    ("connect ECONNREFUSED ...") is the message of its [cause], which the
    [catch] blocks do not read. *)
Definition fetch_refused : js_error :=
  {| err_name := "TypeError"; err_message := "fetch failed" |}.

(** How a [fetch] settles: a response with its status, or a rejection. *)
Inductive fetch_result : Type :=
| Response (status : N)
| Rejected (e : js_error).

(** [res.ok]: the status is in the range 200-299. *)
Definition response_ok (status : N) : bool :=
  ((200 <=? status) && (status <=? 299))%N.

(** How a call of [speakWithVoicevox] settles for its caller. *)
Inductive outcome : Type :=
| Returned
| Threw (e : js_error).

Inductive level : Type :=
| ConsoleLog
| ConsoleError.

(** What the orchestrator does to the outside world, in order.  Requests
    are numbered in the order of the calls; a playback process carries the
    number of the request that spawned it; a temporary file is named by the
    [Date.now()] value in its path. *)
Inductive action : Type :=
| FetchAudioQuery (r : nat) (text : jsstring)
| FetchSynthesis (r : nat)
| AbortSignal (r : nat)
| WriteFile (f : Z)
| Unlink (f : Z)
| Spawn (p : nat) (f : Z)
| Kill (p : nat)
| Broadcast (m : MotionEvent)
| Log (l : level) (msg : string)
| Settle (r : nat) (o : outcome).

(** A playback process: spawned and playing; killed by the orchestrator;
    reported by an 'error' event; closed. *)
Inductive pstatus : Type :=
| Running
| Killed
| Failed
| Closed.

#[global] Instance pstatus_eq_dec : EqDecision pstatus.
Proof. solve_decision. Defined.

(** [getWavDuration(audioData)] as the caller sees it. *)
Definition wav_duration (audioData : list byte) : number :=
  match Wav.getWavDuration audioData with
  | Wav.Ok d => d
  | Wav.Throw _ => Wav.DEFAULT
  end.

Definition is_start (a : action) : bool :=
  match a with
  | Broadcast (LipsyncStart _) => true
  | _ => false
  end.

Definition is_stop (a : action) : bool :=
  match a with
  | Broadcast LipsyncStop => true
  | _ => false
  end.

Definition is_spawn (a : action) : bool :=
  match a with
  | Spawn _ _ => true
  | _ => false
  end.

Definition is_console_error (a : action) : bool :=
  match a with
  | Log ConsoleError _ => true
  | _ => false
  end.

(** The number of actions of a trace that satisfy [f]. *)
Definition count (f : action -> bool) (t : list action) : nat :=
  length (filter (fun a => f a = true) t).

Definition ECONNREFUSED : string := "ECONNREFUSED".
Definition MSG_NOT_RUNNING : string :=
  "VOICEVOX is not running! Please start VOICEVOX first.".
Definition MSG_CANCELLED : string := "Speech synthesis cancelled".
Definition MSG_SPEECH_ERROR : string := "Speech error:".
Definition MSG_STOPPING : string := "Stopping previous playback...".

Lemma count_app (f : action -> bool) (t u : list action) :
  count f (t ++ u) = (count f t + count f u)%nat.
Proof. unfold count. rewrite filter_app, length_app. reflexivity. Qed.

Lemma count_nil (f : action -> bool) : count f [] = 0%nat.
Proof. reflexivity. Qed.

Lemma count_cons (f : action -> bool) (a : action) (t : list action) :
  count f (a :: t) = ((if f a then 1 else 0) + count f t)%nat.
Proof.
  unfold count. rewrite filter_cons. destruct (f a); case_decide; simpl; congruence.
Qed.

(** A string without the letter 'E' does not include "ECONNREFUSED". *)
Fixpoint has_E (s : string) : bool :=
  match s with
  | EmptyString => false
  | String c rest => Ascii.eqb c "E" || has_E rest
  end.

Lemma prefix_ECONNREFUSED_has_E (s : string) :
  String.prefix ECONNREFUSED s = true -> has_E s = true.
Proof.
  destruct s as [|c rest]; [discriminate|].
  unfold ECONNREFUSED. cbn [String.prefix has_E].
  destruct (ascii_dec "E" c) as [<-|]; [reflexivity | discriminate].
Qed.

Lemma str_includes_has_E (s : string) :
  str_includes ECONNREFUSED s = true -> has_E s = true.
Proof.
  induction s as [|c rest IH].
  - simpl. discriminate.
  - intros H. cbn [str_includes] in H. apply orb_true_iff in H as [H|H].
    + now apply prefix_ECONNREFUSED_has_E.
    + simpl. rewrite (IH H). apply orb_true_r.
Qed.

Lemma has_E_app (s t : string) : has_E (s +:+ t) = has_E s || has_E t.
Proof.
  induction s as [|c rest IH]; simpl; [reflexivity|].
  rewrite IH. apply orb_assoc.
Qed.

Lemma has_E_string_of_uint (u : Decimal.uint) :
  has_E (NilEmpty.string_of_uint u) = false.
Proof. induction u; simpl; auto. Qed.

(** The error thrown for a non-2xx response is never taken for a refused
    connection. *)
Lemma http_error_not_refused (what : string) (status : N) :
  has_E what = false ->
  str_includes ECONNREFUSED (err_message (http_error what status)) = false.
Proof.
  intros H. destruct (str_includes _ _) eqn:E; [|reflexivity].
  apply str_includes_has_E in E. unfold http_error, show_status in E.
  cbn [err_message] in E.
  rewrite has_E_app, H, has_E_string_of_uint in E. discriminate.
Qed.

End Speech.

(** ** SpeechOrchestrator, queued policy (the current Electron main file)

    [enqueueSpeech] chains every task on [speechQueue]; a task is the body
    of [speakWithVoicevox].  One step is one turn of the event loop: the
    code that runs when the awaited promise of the running task settles,
    when a playback process emits 'close' or 'error', or when a caller
    calls [speakWithVoicevox].  A task chained on a settled queue starts in
    the same turn (a microtask).  [fs.unlink] is taken to succeed at once.
    [fs.writeFile] creates the file when it opens it, before the write is
    over: the event [FileOpened] is that moment.  Of the log lines only
    those of the [catch] block are kept. *)

Module Queued.
Import Constants JsNumber Text Speech.

(** Where the running task is suspended.  In [AwaitWrite], [opened] tells
    whether [fs.writeFile] has opened, and so created, the file. *)
Inductive pc : Type :=
| AwaitQuery
| AwaitJson
| AwaitSynthesis
| AwaitBuffer
| AwaitWrite (tempFile : Z) (audioData : list byte) (opened : bool)
| AwaitPlay (tempFile : Z).

Record state : Type := mkState {
  currentPlayProcess : option nat;
  currentTempFile : option Z;
  (** the task that [speechQueue] is running *)
  active : option (nat * pc);
  (** the tasks chained behind it, oldest first *)
  pending : list (nat * jsstring);
  next_request : nat;
  (** every process spawned so far: its file and its status *)
  procs : gmap nat (Z * pstatus);
  (** the temporary files on disk *)
  files : gset Z;
  trace : list action
}.

Inductive event : Type :=
| Speak (text : jsstring)
| QueryResponse (res : fetch_result)
| JsonParsed (res : option js_error)
| SynthesisResponse (res : fetch_result)
| BufferRead (res : js_error + list byte) (now : Z)
| FileOpened
| FileWritten (res : option js_error)
| ProcClose (p : nat)
| ProcError (p : nat) (e : js_error)
| AppQuit.

Definition init : state :=
  mkState None None None [] 0 ∅ ∅ [].

Definition emit (acts : list action) (st : state) : state :=
  mkState (currentPlayProcess st) (currentTempFile st) (active st)
    (pending st) (next_request st) (procs st) (files st) (trace st ++ acts).

Definition set_active (a : option (nat * pc)) (st : state) : state :=
  mkState (currentPlayProcess st) (currentTempFile st) a
    (pending st) (next_request st) (procs st) (files st) (trace st).

Definition set_pending (q : list (nat * jsstring)) (st : state) : state :=
  mkState (currentPlayProcess st) (currentTempFile st) (active st)
    q (next_request st) (procs st) (files st) (trace st).

Definition set_next_request (n : nat) (st : state) : state :=
  mkState (currentPlayProcess st) (currentTempFile st) (active st)
    (pending st) n (procs st) (files st) (trace st).

Definition set_currentPlayProcess (p : option nat) (st : state) : state :=
  mkState p (currentTempFile st) (active st)
    (pending st) (next_request st) (procs st) (files st) (trace st).

Definition set_currentTempFile (f : option Z) (st : state) : state :=
  mkState (currentPlayProcess st) f (active st)
    (pending st) (next_request st) (procs st) (files st) (trace st).

Definition set_procs (ps : gmap nat (Z * pstatus)) (st : state) : state :=
  mkState (currentPlayProcess st) (currentTempFile st) (active st)
    (pending st) (next_request st) ps (files st) (trace st).

Definition set_files (fs : gset Z) (st : state) : state :=
  mkState (currentPlayProcess st) (currentTempFile st) (active st)
    (pending st) (next_request st) (procs st) fs (trace st).

(** The [catch] block of the task. *)
Definition catch_block (e : js_error) : list action :=
  [Log ConsoleLog
     ("speakWithVoicevox error: " +:+ err_name e +:+ " - " +:+ err_message e);
   if str_includes ECONNREFUSED (err_message e)
   then Log ConsoleError MSG_NOT_RUNNING
   else Log ConsoleError MSG_SPEECH_ERROR].

(** The task of request [r] runs up to its first [await]: the text is cut
    and encoded for the URL of the first request.  [encodeURIComponent]
    throws a URIError on a lone surrogate: the [catch] block logs it and
    the task is over ([false]); otherwise the request is sent and the task
    is suspended ([true]). *)
Definition start_task (r : nat) (text : jsstring) (st : state)
  : state * bool :=
  let truncatedText := truncateText text in
  if well_formed truncatedText then
    (emit [FetchAudioQuery r truncatedText]
       (set_active (Some (r, AwaitQuery)) st), true)
  else
    (emit [Settle r Returned] (emit (catch_block URI_MALFORMED) st), false).

(** [speechQueue] goes on with the chained tasks [q], oldest first, until
    one of them is suspended. *)
Fixpoint start_tasks (q : list (nat * jsstring)) (st : state) : state :=
  match q with
  | [] => set_pending [] (set_active None st)
  | (r, text) :: rest =>
      match start_task r text st with
      | (st', true) => set_pending rest st'
      | (st', false) => start_tasks rest st'
      end
  end.

(** The task of request [r] is over; the queue goes on. *)
Definition settle (r : nat) (st : state) : state :=
  start_tasks (pending st) (emit [Settle r Returned] st).

(** An exception reaches the [catch] block of the task of request [r]. *)
Definition fail (r : nat) (e : js_error) (st : state) : state :=
  settle r (emit (catch_block e) st).

(** [if (currentPlayProcess === proc) currentPlayProcess = null] *)
Definition forget_process (p : nat) (st : state) : state :=
  if decide (currentPlayProcess st = Some p)
  then set_currentPlayProcess None st
  else st.

(** [if (currentTempFile === tempFile) { fs.unlink(tempFile); currentTempFile = null }] *)
Definition unlink_if_current (f : Z) (st : state) : state :=
  if decide (currentTempFile st = Some f)
  then set_currentTempFile None
         (set_files (files st ∖ {[f]}) (emit [Unlink f] st))
  else st.

(** After [await fs.writeFile(...)]: the statements up to the next
    suspension, which is the playback promise. *)
Definition play (r : nat) (f : Z) (audioData : list byte) (st : state)
  : state :=
  let st := emit [WriteFile f] st in
  let st := set_currentTempFile (Some f) st in
  let st := emit [Broadcast (LipsyncStart (wav_duration audioData))] st in
  let st := emit [Spawn r f] st in
  let st := set_procs (<[r := (f, Running)]> (procs st)) st in
  let st := set_currentPlayProcess (Some r) st in
  set_active (Some (r, AwaitPlay f)) st.

(** [proc.on('close', ...)] *)
Definition on_close (p : nat) (f : Z) (st : state) : state :=
  let st := set_procs (<[p := (f, Closed)]> (procs st)) st in
  let st := forget_process p st in
  let st := emit [Broadcast LipsyncStop] st in
  let st := unlink_if_current f st in
  match active st with
  | Some (r, AwaitPlay _) => if decide (r = p) then settle p st else st
  | _ => st
  end.

(** [proc.on('error', ...)] *)
Definition on_error (p : nat) (f : Z) (e : js_error) (st : state) : state :=
  let st := set_procs (<[p := (f, Failed)]> (procs st)) st in
  let st := forget_process p st in
  let st := emit [Broadcast LipsyncStop] st in
  match active st with
  | Some (r, AwaitPlay _) => if decide (r = p) then fail p e st else st
  | _ => st
  end.

(** One turn of the event loop, or the moment at which the file that
    [fs.writeFile] writes appears on disk; [None] when the event cannot
    happen in this state. *)
Definition step (st : state) (ev : event) : option state :=
  match ev with
  | Speak text =>
      let r := next_request st in
      let st := set_next_request (S r) st in
      (* the task is chained; it starts at once when the queue is
         settled *)
      Some (match active st with
            | None => start_tasks (pending st ++ [(r, text)]) st
            | Some _ => set_pending (pending st ++ [(r, text)]) st
            end)
  | QueryResponse res =>
      match active st with
      | Some (r, AwaitQuery) =>
          match res with
          | Rejected e => Some (fail r e st)
          | Response s =>
              if response_ok s
              then Some (set_active (Some (r, AwaitJson)) st)
              else Some (fail r (http_error "Audio query failed: " s) st)
          end
      | _ => None
      end
  | JsonParsed res =>
      match active st with
      | Some (r, AwaitJson) =>
          match res with
          | Some e => Some (fail r e st)
          | None =>
              Some (emit [FetchSynthesis r]
                      (set_active (Some (r, AwaitSynthesis)) st))
          end
      | _ => None
      end
  | SynthesisResponse res =>
      match active st with
      | Some (r, AwaitSynthesis) =>
          match res with
          | Rejected e => Some (fail r e st)
          | Response s =>
              if response_ok s
              then Some (set_active (Some (r, AwaitBuffer)) st)
              else Some (fail r (http_error "Synthesis failed: " s) st)
          end
      | _ => None
      end
  | BufferRead res now =>
      match active st with
      | Some (r, AwaitBuffer) =>
          match res with
          | inl e => Some (fail r e st)
          | inr audioData =>
              Some (set_active (Some (r, AwaitWrite now audioData false)) st)
          end
      | _ => None
      end
  | FileOpened =>
      (* fs.writeFile has opened the file: it is on disk from now on *)
      match active st with
      | Some (r, AwaitWrite f audioData false) =>
          Some (set_files ({[f]} ∪ files st)
                  (set_active (Some (r, AwaitWrite f audioData true)) st))
      | _ => None
      end
  | FileWritten res =>
      match active st with
      | Some (r, AwaitWrite f audioData opened) =>
          match res with
          | Some e =>
              (* the open or the write has failed: nothing unlinks the
                 file, [currentTempFile] is not set yet *)
              Some (fail r e st)
          | None => if opened then Some (play r f audioData st) else None
          end
      | _ => None
      end
  | ProcClose p =>
      match procs st !! p with
      | Some (f, s) =>
          if decide (s = Closed) then None else Some (on_close p f st)
      | None => None
      end
  | ProcError p e =>
      match procs st !! p with
      | Some (f, Running) => Some (on_error p f e st)
      | _ => None
      end
  | AppQuit =>
      (* sessionWatcher.stop(); server.close() *)
      Some (emit [Log ConsoleLog "[SessionWatcher] Stopped"] st)
  end.

(** A schedule: the events in the order the event loop takes them. *)
Fixpoint run (st : state) (evs : list event) : option state :=
  match evs with
  | [] => Some st
  | ev :: rest => st' ← step st ev; run st' rest
  end.

Definition is_running (st : state) (p : nat) : Prop :=
  exists f, procs st !! p = Some (f, Running).



Definition playing (st : state) : nat :=
  match active st with
  | Some (_, AwaitPlay _) => 1
  | _ => 0
  end.




(** What [start_tasks] adds to the trace. *)
Fixpoint started (q : list (nat * jsstring)) : list action :=
  match q with
  | [] => []
  | (r, text) :: rest =>
      if well_formed (truncateText text)
      then [FetchAudioQuery r (truncateText text)]
      else catch_block URI_MALFORMED ++ Settle r Returned :: started rest
  end.


(** Sample data for the schedules below. *)
Definition sample_audio : list byte := Wav.wav_one_byte.
Definition hello : jsstring := of_ascii "hello".
Definition spawn_failed : js_error :=
  {| err_name := "Error"; err_message := "spawn afplay ENOENT" |}.
Definition disk_full : js_error :=
  {| err_name := "Error";
     err_message := "ENOSPC: no space left on device, write" |}.

(** One request up to the start of its playback; the file is named by the
    clock value [now]. *)
Definition until_playing (now : Z) : list event :=
  [QueryResponse (Response 200); JsonParsed None;
   SynthesisResponse (Response 200); BufferRead (inr sample_audio) now;
   FileOpened; FileWritten None].

(** A running process belongs to the task that awaits its playback. *)
Definition Inv1 (st : state) : Prop :=
  forall p f, procs st !! p = Some (f, Running) ->
              active st = Some (p, AwaitPlay f).




(** *** Invariants of the queued policy *)

Lemma start_tasks_trace (q : list (nat * jsstring)) (st : state) :
  trace (start_tasks q st) = trace st ++ started q.
Proof.
  revert st. induction q as [|[r text] rest IH]; intros st; simpl.
  - now rewrite app_nil_r.
  - unfold start_task. destruct (well_formed (truncateText text)); simpl.
    + reflexivity.
    + rewrite IH. simpl. rewrite <- !app_assoc. reflexivity.
Qed.


(** [start_tasks] touches the queue and the trace only. *)
Lemma start_tasks_frame (q : list (nat * jsstring)) (st : state) :
  currentPlayProcess (start_tasks q st) = currentPlayProcess st /\
  currentTempFile (start_tasks q st) = currentTempFile st /\
  next_request (start_tasks q st) = next_request st /\
  procs (start_tasks q st) = procs st /\
  files (start_tasks q st) = files st.
Proof.
  revert st. induction q as [|[r text] rest IH]; intros st; simpl.
  - auto.
  - unfold start_task. destruct (well_formed (truncateText text)); simpl.
    + auto.
    + destruct (IH (emit [Settle r Returned]
                      (emit (catch_block URI_MALFORMED) st)))
        as (H1 & H2 & H3 & H4 & H5).
      rewrite H1, H2, H3, H4, H5. auto.
Qed.





Lemma settle_procs (r : nat) (st : state) : procs (settle r st) = procs st.
Proof.
  unfold settle.
  now destruct (start_tasks_frame (pending st) (emit [Settle r Returned] st))
    as (_ & _ & _ & -> & _).
Qed.



Lemma fail_procs r e st : procs (fail r e st) = procs st.
Proof. unfold fail. rewrite settle_procs. reflexivity. Qed.


Lemma Inv1_not_playing st st' :
  Inv1 st -> procs st' = procs st -> playing st = 0%nat -> Inv1 st'.
Proof.
  intros HI Hp Hn p f H. rewrite Hp in H. apply HI in H.
  unfold playing in Hn. rewrite H in Hn. discriminate.
Qed.

Ltac not_playing HI Ea :=
  eapply Inv1_not_playing;
  [exact HI | rewrite ?fail_procs; reflexivity
  | unfold playing; rewrite Ea; reflexivity].

Lemma forget_process_active p st : active (forget_process p st) = active st.
Proof. unfold forget_process. case_decide; reflexivity. Qed.
Lemma forget_process_procs p st : procs (forget_process p st) = procs st.
Proof. unfold forget_process. case_decide; reflexivity. Qed.
Lemma unlink_if_current_active f st : active (unlink_if_current f st) = active st.
Proof. unfold unlink_if_current. case_decide; reflexivity. Qed.
Lemma unlink_if_current_procs f st : procs (unlink_if_current f st) = procs st.
Proof. unfold unlink_if_current. case_decide; reflexivity. Qed.

Lemma on_close_procs p f st : procs (on_close p f st) = <[p := (f, Closed)]> (procs st).
Proof.
  unfold on_close.
  match goal with |- procs (match active ?s with _ => _ end) = _ => destruct (active s) as [[r []]|] end;
  try case_decide; rewrite ?settle_procs, ?unlink_if_current_procs; simpl;
  rewrite ?forget_process_procs; reflexivity.
Qed.

Lemma on_close_active_other p f st q g :
  active st = Some (q, AwaitPlay g) -> q <> p -> active (on_close p f st) = Some (q, AwaitPlay g).
Proof.
  intros Ha Hne. unfold on_close.
  match goal with |- active (match active ?s with _ => _ end) = _ =>
    assert (E : active s = Some (q, AwaitPlay g)) end.
  { rewrite unlink_if_current_active. simpl. rewrite forget_process_active. exact Ha. }
  rewrite E. rewrite decide_False by exact Hne. exact E.
Qed.

Lemma on_error_procs p f e st : procs (on_error p f e st) = <[p := (f, Failed)]> (procs st).
Proof.
  unfold on_error.
  match goal with |- procs (match active ?s with _ => _ end) = _ => destruct (active s) as [[r []]|] end;
  try case_decide; rewrite ?fail_procs; simpl;
  rewrite ?forget_process_procs; reflexivity.
Qed.

Lemma on_error_active_other p f e st q g :
  active st = Some (q, AwaitPlay g) -> q <> p -> active (on_error p f e st) = Some (q, AwaitPlay g).
Proof.
  intros Ha Hne. unfold on_error.
  match goal with |- active (match active ?s with _ => _ end) = _ =>
    assert (E : active s = Some (q, AwaitPlay g)) end.
  { simpl. rewrite forget_process_active. exact Ha. }
  rewrite E. rewrite decide_False by exact Hne. exact E.
Qed.

Lemma step_Inv1 st ev st' : Inv1 st -> step st ev = Some st' -> Inv1 st'.
Proof.
  intros HI Hs. destruct ev; simpl in Hs.
  - injection Hs as <-. destruct (active st) as [a|] eqn:Ea.
    + intros p f H. simpl in H. apply HI in H. simpl. rewrite Ea in *. exact H.
    + eapply Inv1_not_playing; [exact HI | | unfold playing; now rewrite Ea].
      now destruct (start_tasks_frame (pending st ++ [(next_request st, text)])
                      (set_next_request (S (next_request st)) st))
        as (_ & _ & _ & -> & _).
  - destruct (active st) as [[r []]|] eqn:Ea; try discriminate.
    destruct res as [s|e]; [destruct (response_ok s)|]; injection Hs as <-;
      not_playing HI Ea.
  - destruct (active st) as [[r []]|] eqn:Ea; try discriminate.
    destruct res as [e|]; injection Hs as <-; not_playing HI Ea.
  - destruct (active st) as [[r []]|] eqn:Ea; try discriminate.
    destruct res as [s|e]; [destruct (response_ok s)|]; injection Hs as <-;
      not_playing HI Ea.
  - destruct (active st) as [[r []]|] eqn:Ea; try discriminate.
    destruct res as [e|d]; injection Hs as <-; not_playing HI Ea.
  - destruct (active st) as [[r []]|] eqn:Ea; try discriminate.
    destruct opened; [discriminate|]. injection Hs as <-. not_playing HI Ea.
  - destruct (active st) as [[r []]|] eqn:Ea; try discriminate.
    destruct res as [e|]; [injection Hs as <-; not_playing HI Ea|].
    destruct opened; [|discriminate]. injection Hs as <-.
    intros p f H. unfold play in *. simpl in *.
    destruct (decide (p = r)) as [->|Hne].
    + rewrite lookup_insert_eq in H. congruence.
    + rewrite lookup_insert_ne in H by congruence. apply HI in H. congruence.
  - destruct (procs st !! p) as [[f s]|] eqn:Ep; [|discriminate].
    case_decide; [discriminate|]. injection Hs as <-.
    intros q g Hq. rewrite on_close_procs in Hq.
    destruct (decide (q = p)) as [->|Hne].
    + rewrite lookup_insert_eq in Hq. discriminate.
    + rewrite lookup_insert_ne in Hq by congruence.
      apply on_close_active_other; [apply HI; exact Hq | exact Hne].
  - destruct (procs st !! p) as [[f []]|] eqn:Ep; try discriminate.
    injection Hs as <-.
    intros q g Hq. rewrite on_error_procs in Hq.
    destruct (decide (q = p)) as [->|Hne].
    + rewrite lookup_insert_eq in Hq. discriminate.
    + rewrite lookup_insert_ne in Hq by congruence.
      apply on_error_active_other; [apply HI; exact Hq | exact Hne].
  - injection Hs as <-. exact HI.
Qed.















Lemma init_Inv1 : Inv1 init.
Proof. intros p f H. simpl in H. rewrite lookup_empty in H. discriminate. Qed.



Lemma run_Inv1 (evs : list event) (st st' : state) :
  Inv1 st -> run st evs = Some st' -> Inv1 st'.
Proof.
  revert st. induction evs as [|ev evs IH]; intros st HI Hr; simpl in Hr.
  - injection Hr as <-. exact HI.
  - destruct (step st ev) as [st1|] eqn:Es; [|discriminate].
    simpl in Hr. eapply IH; [|exact Hr]. eapply step_Inv1; eauto.
Qed.



(** X1.  Queued policy: whatever the schedule, at most one playback process is
    running. *)
Theorem queued_at_most_one_running (evs : list event) (st : state) :
  run init evs = Some st ->
  forall p q, is_running st p -> is_running st q -> p = q.
Proof.
  intros Hr p q [f Hp] [g Hq].
  pose proof (run_Inv1 evs init st init_Inv1 Hr) as HI.
  apply HI in Hp. apply HI in Hq. congruence.
Qed.


(** Within one request: the broadcast of [lipsync-start] comes right
    before the spawn, and [lipsync-stop] is broadcast by the 'close'
    handler. *)
Lemma queued_start_before_spawn (st : state) (r : nat) (f : Z)
    (audioData : list byte) :
  active st = Some (r, AwaitWrite f audioData true) ->
  exists st', step st (FileWritten None) = Some st' /\
    trace st' = trace st ++
      [WriteFile f; Broadcast (LipsyncStart (wav_duration audioData));
       Spawn r f].
Proof.
  intros Ha. eexists. split.
  - simpl. rewrite Ha. reflexivity.
  - unfold play. simpl. rewrite <- !app_assoc. reflexivity.
Qed.




(** When a playback process reports an 'error', its handler deletes
    nothing: unless a 'close' event of that process follows in time, the
    file stays while the next request writes its own. *)
Example queued_error_keeps_temp_file :
  exists st,
    run init ([Speak hello; Speak hello] ++ until_playing 1000 ++
              [ProcError 0 spawn_failed] ++ until_playing 2000) = Some st /\
    elements (files st) = [1000; 2000].
Proof. eexists. split; vm_compute; reflexivity. Qed.

(** When [fs.writeFile] fails after it has opened the file, nothing deletes
    the file: [currentTempFile] is not set yet, and the [catch] block only
    logs.  The file stays while the next request writes its own. *)
Example queued_failed_write_keeps_temp_file :
  exists st,
    run init ([Speak hello; Speak hello] ++
              [QueryResponse (Response 200); JsonParsed None;
               SynthesisResponse (Response 200);
               BufferRead (inr sample_audio) 1000; FileOpened;
               FileWritten (Some disk_full)] ++ until_playing 2000)
      = Some st /\
    elements (files st) = [1000; 2000] /\
    count (fun a => match a with Unlink _ => true | _ => false end) (trace st)
      = 0%nat.
Proof. eexists. split; [|split]; vm_compute; reflexivity. Qed.

End Queued.

(** ** SpeechOrchestrator, preemptive policy ([src/server.ts] and the
    earlier Electron main file)

    [speakWithVoicevox] first calls [stopCurrentPlayback], then runs its
    own pipeline; several calls can be suspended at once, so an event names
    the request it belongs to.  [proc.kill()] is taken to end the process
    at once; its 'close' event comes in a later turn.  As in the queued
    file, [FileOpened] is the moment at which [fs.writeFile] creates the
    file.  The calls into the VTube Studio module ([startLipsync],
    [stopLipsync]) are left out. *)

Module Preemptive.
Import Constants JsNumber Text Speech.

(** The two files differ in the 'error' handler of the playback process
    and in the last branch of the [catch] block. *)
Inductive variant : Type :=
| ServerTs
| ElectronMain.

(** Where a call is suspended.  In [AwaitWrite], [opened] tells whether
    [fs.writeFile] has opened, and so created, the file. *)
Inductive pc : Type :=
| AwaitQuery
| AwaitJson
| AwaitSynthesis
| AwaitBuffer
| AwaitWrite (tempFile : Z) (audioData : list byte) (opened : bool)
| AwaitPlay (tempFile : Z).

Record state : Type := mkState {
  currentPlayProcess : option nat;
  currentTempFile : option Z;
  (** the request whose [AbortController] is the current one *)
  currentAbortController : option nat;
  (** the requests whose signal has been aborted *)
  aborted : gset nat;
  (** the suspended calls *)
  tasks : gmap nat pc;
  next_request : nat;
  procs : gmap nat (Z * pstatus);
  files : gset Z;
  trace : list action
}.

Inductive event : Type :=
| Speak (text : jsstring)
| QueryResponse (r : nat) (res : fetch_result)
| JsonParsed (r : nat) (res : option js_error)
| SynthesisResponse (r : nat) (res : fetch_result)
| BufferRead (r : nat) (res : js_error + list byte) (now : Z)
| FileOpened (r : nat)
| FileWritten (r : nat) (res : option js_error)
| ProcClose (p : nat)
| ProcError (p : nat) (e : js_error).

Definition init : state :=
  mkState None None None ∅ ∅ 0 ∅ ∅ [].

Definition emit (acts : list action) (st : state) : state :=
  mkState (currentPlayProcess st) (currentTempFile st)
    (currentAbortController st) (aborted st) (tasks st) (next_request st)
    (procs st) (files st) (trace st ++ acts).

Definition set_currentPlayProcess (p : option nat) (st : state) : state :=
  mkState p (currentTempFile st)
    (currentAbortController st) (aborted st) (tasks st) (next_request st)
    (procs st) (files st) (trace st).

Definition set_currentTempFile (f : option Z) (st : state) : state :=
  mkState (currentPlayProcess st) f
    (currentAbortController st) (aborted st) (tasks st) (next_request st)
    (procs st) (files st) (trace st).

Definition set_currentAbortController (c : option nat) (st : state) : state :=
  mkState (currentPlayProcess st) (currentTempFile st)
    c (aborted st) (tasks st) (next_request st)
    (procs st) (files st) (trace st).

Definition set_aborted (a : gset nat) (st : state) : state :=
  mkState (currentPlayProcess st) (currentTempFile st)
    (currentAbortController st) a (tasks st) (next_request st)
    (procs st) (files st) (trace st).

Definition set_tasks (t : gmap nat pc) (st : state) : state :=
  mkState (currentPlayProcess st) (currentTempFile st)
    (currentAbortController st) (aborted st) t (next_request st)
    (procs st) (files st) (trace st).

Definition set_next_request (n : nat) (st : state) : state :=
  mkState (currentPlayProcess st) (currentTempFile st)
    (currentAbortController st) (aborted st) (tasks st) n
    (procs st) (files st) (trace st).

Definition set_procs (ps : gmap nat (Z * pstatus)) (st : state) : state :=
  mkState (currentPlayProcess st) (currentTempFile st)
    (currentAbortController st) (aborted st) (tasks st) (next_request st)
    ps (files st) (trace st).

Definition set_files (fs : gset Z) (st : state) : state :=
  mkState (currentPlayProcess st) (currentTempFile st)
    (currentAbortController st) (aborted st) (tasks st) (next_request st)
    (procs st) fs (trace st).

(** [proc.kill()]: a running process ends. *)
Definition kill (p : nat) (st : state) : state :=
  match procs st !! p with
  | Some (f, Running) =>
      set_procs (<[p := (f, Killed)]> (procs st)) (emit [Kill p] st)
  | _ => emit [Kill p] st
  end.

(** [stopCurrentPlayback()] *)
Definition stopCurrentPlayback (st : state) : state :=
  let st :=
    match currentAbortController st with
    | Some c =>
        set_currentAbortController None
          (set_aborted ({[c]} ∪ aborted st) (emit [AbortSignal c] st))
    | None => st
    end in
  let st :=
    match currentPlayProcess st with
    | Some p =>
        emit [Broadcast LipsyncStop]
          (set_currentPlayProcess None
             (kill p (emit [Log ConsoleLog MSG_STOPPING] st)))
    | None => st
    end in
  match currentTempFile st with
  | Some f =>
      set_currentTempFile None
        (set_files (files st ∖ {[f]}) (emit [Unlink f] st))
  | None => st
  end.

(** The call of request [r] settles. *)
Definition settle (r : nat) (o : outcome) (st : state) : state :=
  set_tasks (delete r (tasks st)) (emit [Settle r o] st).

Definition is_abort_error (e : js_error) : bool :=
  String.eqb (err_name e) "AbortError".

(** The [catch] block. *)
Definition catch_block (v : variant) (r : nat) (e : js_error) (st : state)
  : state :=
  let st :=
    match v with
    | ServerTs => st
    | ElectronMain =>
        emit [Log ConsoleLog
                ("speakWithVoicevox error: " +:+ err_name e +:+ " - "
                 +:+ err_message e)] st
    end in
  if is_abort_error e then
    settle r Returned (emit [Log ConsoleLog MSG_CANCELLED] st)
  else if str_includes ECONNREFUSED (err_message e) then
    settle r Returned (emit [Log ConsoleError MSG_NOT_RUNNING] st)
  else
    match v with
    | ServerTs => settle r (Threw e) st
    | ElectronMain =>
        settle r Returned (emit [Log ConsoleError MSG_SPEECH_ERROR] st)
    end.

Definition is_aborted (r : nat) (st : state) : bool :=
  bool_decide (r ∈ aborted st).

(** A rejection with an [AbortError] needs an aborted signal. *)
Definition may_reject (r : nat) (e : js_error) (st : state) : bool :=
  negb (is_abort_error e) || is_aborted r st.

Definition set_pc (r : nat) (c : pc) (st : state) : state :=
  set_tasks (<[r := c]> (tasks st)) st.

Definition forget_process (p : nat) (st : state) : state :=
  if decide (currentPlayProcess st = Some p)
  then set_currentPlayProcess None st
  else st.

Definition unlink_if_current (f : Z) (st : state) : state :=
  if decide (currentTempFile st = Some f)
  then set_currentTempFile None
         (set_files (files st ∖ {[f]}) (emit [Unlink f] st))
  else st.

(** After [await fs.writeFile(...)], up to the playback promise. *)
Definition play (r : nat) (f : Z) (audioData : list byte) (st : state)
  : state :=
  let st := emit [WriteFile f] st in
  let st := set_currentTempFile (Some f) st in
  let st := emit [Broadcast (LipsyncStart (wav_duration audioData))] st in
  let st := emit [Spawn r f] st in
  let st := set_procs (<[r := (f, Running)]> (procs st)) st in
  let st := set_currentPlayProcess (Some r) st in
  set_pc r (AwaitPlay f) st.

(** [proc.on("close", ...)] *)
Definition on_close (p : nat) (f : Z) (st : state) : state :=
  let st := set_procs (<[p := (f, Closed)]> (procs st)) st in
  let st := forget_process p st in
  let st := emit [Broadcast LipsyncStop] st in
  let st := unlink_if_current f st in
  match tasks st !! p with
  | Some (AwaitPlay _) => settle p Returned st
  | _ => st
  end.

(** [proc.on("error", ...)]: the TypeScript server stops the VTube Studio
    lipsync only; the Electron file notifies the observers. *)
Definition on_error (v : variant) (p : nat) (f : Z) (e : js_error)
    (st : state) : state :=
  let st := set_procs (<[p := (f, Failed)]> (procs st)) st in
  let st := forget_process p st in
  let st :=
    match v with
    | ServerTs => st
    | ElectronMain => emit [Broadcast LipsyncStop] st
    end in
  match tasks st !! p with
  | Some (AwaitPlay _) => catch_block v p e st
  | _ => st
  end.

(** One turn of the event loop, or the moment at which the file that
    [fs.writeFile] writes appears on disk; [None] when the event cannot
    happen in this state. *)
Definition step (v : variant) (st : state) (ev : event) : option state :=
  match ev with
  | Speak text =>
      let r := next_request st in
      let st := set_next_request (S r) st in
      let st := stopCurrentPlayback st in
      let st := set_currentAbortController (Some r) st in
      let truncatedText := truncateText text in
      (* encodeURIComponent throws a URIError on a lone surrogate, inside
         the try block *)
      if well_formed truncatedText then
        Some (set_pc r AwaitQuery
                (emit [FetchAudioQuery r truncatedText] st))
      else Some (catch_block v r URI_MALFORMED st)
  | QueryResponse r res =>
      match tasks st !! r with
      | Some AwaitQuery =>
          match res with
          | Rejected e =>
              if may_reject r e st then Some (catch_block v r e st) else None
          | Response s =>
              if response_ok s then Some (set_pc r AwaitJson st)
              else Some (catch_block v r
                           (http_error "Audio query failed: " s) st)
          end
      | _ => None
      end
  | JsonParsed r res =>
      match tasks st !! r with
      | Some AwaitJson =>
          match res with
          | Some e =>
              if may_reject r e st then Some (catch_block v r e st) else None
          | None =>
              if is_aborted r st then Some (settle r Returned st)
              else Some (set_pc r AwaitSynthesis
                           (emit [FetchSynthesis r] st))
          end
      | _ => None
      end
  | SynthesisResponse r res =>
      match tasks st !! r with
      | Some AwaitSynthesis =>
          match res with
          | Rejected e =>
              if may_reject r e st then Some (catch_block v r e st) else None
          | Response s =>
              if negb (response_ok s)
              then Some (catch_block v r
                           (http_error "Synthesis failed: " s) st)
              else if is_aborted r st then Some (settle r Returned st)
              else Some (set_pc r AwaitBuffer st)
          end
      | _ => None
      end
  | BufferRead r res now =>
      match tasks st !! r with
      | Some AwaitBuffer =>
          match res with
          | inl e =>
              if may_reject r e st then Some (catch_block v r e st) else None
          | inr audioData =>
              Some (set_pc r (AwaitWrite now audioData false) st)
          end
      | _ => None
      end
  | FileOpened r =>
      (* fs.writeFile has opened the file: it is on disk from now on *)
      match tasks st !! r with
      | Some (AwaitWrite f audioData false) =>
          Some (set_files ({[f]} ∪ files st)
                  (set_pc r (AwaitWrite f audioData true) st))
      | _ => None
      end
  | FileWritten r res =>
      match tasks st !! r with
      | Some (AwaitWrite f audioData opened) =>
          match res with
          | Some e =>
              (* the open or the write has failed: nothing unlinks the
                 file, [currentTempFile] is not set yet *)
              if is_abort_error e then None else Some (catch_block v r e st)
          | None => if opened then Some (play r f audioData st) else None
          end
      | _ => None
      end
  | ProcClose p =>
      match procs st !! p with
      | Some (f, s) =>
          if decide (s = Closed) then None else Some (on_close p f st)
      | None => None
      end
  | ProcError p e =>
      match procs st !! p with
      | Some (f, Running) =>
          if is_abort_error e then None else Some (on_error v p f e st)
      | _ => None
      end
  end.

Fixpoint run (v : variant) (st : state) (evs : list event) : option state :=
  match evs with
  | [] => Some st
  | ev :: rest => st' ← step v st ev; run v st' rest
  end.

Definition is_running (st : state) (p : nat) : Prop :=
  exists f, procs st !! p = Some (f, Running).

Definition sample_audio : list byte := Wav.wav_one_byte.
Definition first_text : jsstring := of_ascii "first".
Definition second_text : jsstring := of_ascii "second".

(** Request [r] from its first response to the [await] of [fs.writeFile],
    the file opened and the write under way. *)
Definition until_write (r : nat) (now : Z) : list event :=
  [QueryResponse r (Response 200); JsonParsed r None;
   SynthesisResponse r (Response 200); BufferRead r (inr sample_audio) now;
   FileOpened r].

(** A second call arrives while the first awaits [fs.writeFile], after its
    last look at the abort signal. *)
Definition race_schedule : list event :=
  [Speak first_text] ++ until_write 0 1000 ++
  [Speak second_text; FileWritten 0 None] ++
  until_write 1 2000 ++ [FileWritten 1 None].

(** A second call arrives while the first is played. *)
Definition cancel_schedule : list event :=
  [Speak first_text] ++ until_write 0 1000 ++
  [FileWritten 0 None; Speak second_text; ProcClose 0].

(** The broadcasts of a trace. *)
Definition broadcasts_of (t : list action) : list MotionEvent :=
  omap (fun a => match a with Broadcast m => Some m | _ => None end) t.

(** *** What the preemptive policy does under two calls *)

(** C1 at the race: the second call finds nothing to kill, the first call
    is past its last look at the signal, and both end up playing. *)
Theorem preemptive_race_two_players (v : variant) :
  exists st,
    run v init race_schedule = Some st /\
    is_running st 0 /\ is_running st 1 /\
    elements (files st) = [1000; 2000] /\
    count is_spawn (trace st) = 2%nat /\
    count (fun a => match a with Kill _ => true | _ => false end) (trace st)
      = 0%nat.
Proof.
  destruct v; (eexists; split; [vm_compute; reflexivity|]);
    (split; [eexists; vm_compute; reflexivity|]);
    (split; [eexists; vm_compute; reflexivity|]);
    repeat split; vm_compute; reflexivity.
Qed.

(** After the race the 'close' handler of the first process finds a newer
    current file and leaves its own on disk. *)
Example preemptive_race_leaks_file (v : variant) :
  exists st,
    run v init (race_schedule ++ [ProcClose 0; ProcClose 1]) = Some st /\
    tasks st = ∅ /\ elements (files st) = [1000].
Proof.
  destruct v; (eexists; split; [vm_compute; reflexivity|]);
    split; vm_compute; reflexivity.
Qed.

(** C2 at a cancellation: one [lipsync-start], then [lipsync-stop] from
    [stopCurrentPlayback] and once more from the 'close' handler of the
    killed process. *)
Theorem preemptive_cancel_double_stop (v : variant) :
  exists st d,
    run v init cancel_schedule = Some st /\
    broadcasts_of (trace st) = [LipsyncStart d; LipsyncStop; LipsyncStop] /\
    count is_start (trace st) = 1%nat /\ count is_stop (trace st) = 2%nat.
Proof.
  destruct v; (eexists; eexists; split; [vm_compute; reflexivity|]);
    repeat split; vm_compute; reflexivity.
Qed.

(** In the TypeScript server the 'error' handler of the playback process
    notifies no observer: until a 'close' event follows, the
    [lipsync-start] stays unanswered. *)
Example server_ts_error_no_stop :
  exists st d,
    run ServerTs init
      ([Speak first_text] ++ until_write 0 1000 ++
       [FileWritten 0 None; ProcError 0 Queued.spawn_failed]) = Some st /\
    broadcasts_of (trace st) = [LipsyncStart d] /\ tasks st = ∅.
Proof.
  eexists; eexists; split; [vm_compute; reflexivity|].
  split; vm_compute; reflexivity.
Qed.

End Preemptive.

(** ** What a call of [speakWithVoicevox] sends, and how it fails *)

Module SpeakContract.
Import Constants JsNumber Text Speech.

Definition abort_error : js_error :=
  {| err_name := "AbortError"; err_message := "This operation was aborted" |}.

(** A failed first request followed by a second one that reaches its
    playback (queued policy). *)
Definition queued_failure_then_success : list Queued.event :=
  [Queued.Speak Queued.hello; Queued.Speak Queued.hello;
   Queued.QueryResponse (Response 500)] ++ Queued.until_playing 2000.

(** The same under the preemptive policy of the TypeScript server; the
    second call arrives after the first has failed. *)
Definition preemptive_failure_then_success : list Preemptive.event :=
  [Preemptive.Speak Preemptive.first_text;
   Preemptive.QueryResponse 0 (Response 500);
   Preemptive.Speak Preemptive.second_text] ++
  Preemptive.until_write 1 2000 ++ [Preemptive.FileWritten 1 None].

(** *** What is sent *)

(** X28.  When the cut text has no lone surrogate, the text sent with the
    [audio_query] request is the input cut to its first 200 code units
    with '...' appended when it is longer than 200 code units, and the
    input itself otherwise. *)
Theorem speak_sends_cut_when_encodable (text : jsstring) :
  well_formed (truncateText text) = true ->
  ((200 < length text)%nat ->
   truncateText text = take 200 text ++ ellipsis) /\
  ((length text <= 200)%nat -> truncateText text = text) /\
  (forall st r,
     Queued.start_task r text st =
     (Queued.emit [FetchAudioQuery r (truncateText text)]
        (Queued.set_active (Some (r, Queued.AwaitQuery)) st), true)) /\
  (forall st,
     Queued.active st = None -> Queued.pending st = [] ->
     exists st',
       Queued.step st (Queued.Speak text) = Some st' /\
       Queued.trace st' =
         Queued.trace st ++
         [FetchAudioQuery (Queued.next_request st) (truncateText text)]) /\
  (forall v st, exists st',
     Preemptive.step v st (Preemptive.Speak text) = Some st' /\
     last (Preemptive.trace st') =
       Some (FetchAudioQuery (Preemptive.next_request st) (truncateText text))).
Proof.
  intros Hw.
  split; [apply truncateText_long|]. split; [apply truncateText_short|].
  split; [|split].
  - intros st r. unfold Queued.start_task. rewrite Hw. reflexivity.
  - intros st Ha Hp. eexists. split; [reflexivity|].
    simpl. rewrite Ha, Hp. simpl. unfold Queued.start_task.
    rewrite Hw. reflexivity.
  - intros v st. eexists. simpl. rewrite Hw. split; [reflexivity|].
    simpl. apply last_snoc.
Qed.

(** A text of 201 letters is sent as its first 200 followed by three
    dots. *)
Lemma speak_sends_cut_when_encodable_witness :
  truncateText (replicate 201 97%N) = replicate 200 97%N ++ of_ascii "..." /\
  (forall st r,
     Queued.start_task r (replicate 201 97%N) st =
     (Queued.emit [FetchAudioQuery r (truncateText (replicate 201 97%N))]
        (Queued.set_active (Some (r, Queued.AwaitQuery)) st), true)).
Proof.
  destruct (speak_sends_cut_when_encodable (replicate 201 97%N))
    as (Hlong & _ & Hq & _).
  - vm_compute. reflexivity.
  - split; [|exact Hq]. rewrite Hlong by (vm_compute; lia).
    vm_compute. reflexivity.
Defined.

(** A text of 201 code units is sent as its first 200 followed by three
    dots; the first call on an idle orchestrator sends it at once. *)
Example speak_sends_truncated_text_201 :
  truncateText (replicate 201 97%N) = replicate 200 97%N ++ of_ascii "..." /\
  (exists st,
     Queued.run Queued.init [Queued.Speak (replicate 201 97%N)] = Some st /\
     Queued.trace st =
       [FetchAudioQuery 0 (replicate 200 97%N ++ of_ascii "...")]).
Proof.
  split; [vm_compute; reflexivity|].
  eexists. split; vm_compute; reflexivity.
Qed.

(** C5 fails on a text whose 200th and 201st code units are the two
    halves of an emoji: the text has 201 code units and no lone surrogate,
    the cut keeps the first half of the pair only, [encodeURIComponent]
    throws on it, and no [audio_query] request is sent.  The queued
    Electron file logs a speech error and the task returns; the call of
    the TypeScript server throws the URIError. *)
Theorem speak_cut_emoji_sends_nothing :
  length emoji_at_limit = 201%nat /\
  well_formed emoji_at_limit = true /\
  truncateText emoji_at_limit = take 200 emoji_at_limit ++ ellipsis /\
  well_formed (truncateText emoji_at_limit) = false /\
  (exists st,
     Queued.run Queued.init [Queued.Speak emoji_at_limit] = Some st /\
     Queued.trace st =
       [Log ConsoleLog "speakWithVoicevox error: URIError - URI malformed";
        Log ConsoleError MSG_SPEECH_ERROR; Settle 0 Returned] /\
     Queued.active st = None) /\
  (exists st,
     Preemptive.run Preemptive.ServerTs Preemptive.init
       [Preemptive.Speak emoji_at_limit] = Some st /\
     Preemptive.trace st = [Settle 0 (Threw URI_MALFORMED)] /\
     Preemptive.tasks st = ∅) /\
  (exists st,
     Preemptive.run Preemptive.ElectronMain Preemptive.init
       [Preemptive.Speak emoji_at_limit] = Some st /\
     Preemptive.trace st =
       [Log ConsoleLog "speakWithVoicevox error: URIError - URI malformed";
        Log ConsoleError MSG_SPEECH_ERROR; Settle 0 Returned]).
Proof.
  split; [reflexivity|]. split; [vm_compute; reflexivity|].
  split; [apply truncateText_long; vm_compute; lia|].
  split; [vm_compute; reflexivity|].
  split; [|split]; eexists; (split; [vm_compute; reflexivity|]);
    try split; vm_compute; reflexivity.
Qed.

(** *** How a call fails *)

Lemma http_error_not_abort (what : string) (status : N) :
  Preemptive.is_abort_error (http_error what status) = false.
Proof. reflexivity. Qed.

Lemma preemptive_catch_http (r : nat) (what : string) (status : N)
    (st : Preemptive.state) :
  has_E what = false ->
  Preemptive.catch_block Preemptive.ServerTs r (http_error what status) st =
  Preemptive.settle r (Threw (http_error what status)) st.
Proof.
  intros H. unfold Preemptive.catch_block.
  rewrite http_error_not_abort, (http_error_not_refused what status H).
  reflexivity.
Qed.

Lemma queued_catch_http (what : string) (status : N) :
  has_E what = false ->
  Queued.catch_block (http_error what status) =
  [Log ConsoleLog
     ("speakWithVoicevox error: Error - " +:+ what +:+ show_status status);
   Log ConsoleError MSG_SPEECH_ERROR].
Proof.
  intros H. unfold Queued.catch_block.
  rewrite (http_error_not_refused what status H). reflexivity.
Qed.

(** The branch of the [catch] block for a refused connection is taken by
    the errors whose own message holds the word ECONNREFUSED. *)
Lemma catch_block_refused_branch (e : js_error) :
  str_includes ECONNREFUSED (err_message e) = true ->
  (forall st r,
     Preemptive.is_abort_error e = false ->
     Preemptive.catch_block Preemptive.ServerTs r e st =
     Preemptive.settle r Returned
       (Preemptive.emit [Log ConsoleError MSG_NOT_RUNNING] st)) /\
  (forall st r, exists info,
     Queued.fail r e st =
     Queued.settle r
       (Queued.emit [Log ConsoleLog info; Log ConsoleError MSG_NOT_RUNNING]
          st)).
Proof.
  intros Hi. split.
  - intros st r Ha. unfold Preemptive.catch_block. rewrite Ha, Hi.
    reflexivity.
  - intros st r. eexists. unfold Queued.fail, Queued.catch_block.
    rewrite Hi. reflexivity.
Qed.

(** C6 fails on a refused connection.  The global [fetch] rejects with a
    TypeError whose message is 'fetch failed'; the word ECONNREFUSED is in
    [error.cause], which the [catch] block does not read.  So the call of
    the TypeScript server throws the error on, at either request, and
    nothing is logged; the Electron files log a speech error, not that
    VOICEVOX is not running, and return. *)
Theorem speak_refused_connection_not_recognised :
  str_includes ECONNREFUSED (err_message fetch_refused) = false /\
  (forall st r,
     (Preemptive.tasks st !! r = Some Preemptive.AwaitQuery ->
      Preemptive.step Preemptive.ServerTs st
        (Preemptive.QueryResponse r (Rejected fetch_refused)) =
      Some (Preemptive.settle r (Threw fetch_refused) st)) /\
     (Preemptive.tasks st !! r = Some Preemptive.AwaitSynthesis ->
      Preemptive.step Preemptive.ServerTs st
        (Preemptive.SynthesisResponse r (Rejected fetch_refused)) =
      Some (Preemptive.settle r (Threw fetch_refused) st))) /\
  (exists st,
     Preemptive.run Preemptive.ServerTs Preemptive.init
       [Preemptive.Speak Preemptive.first_text;
        Preemptive.QueryResponse 0 (Rejected fetch_refused)] = Some st /\
     Preemptive.trace st =
       [FetchAudioQuery 0 Preemptive.first_text;
        Settle 0 (Threw fetch_refused)] /\
     count is_console_error (Preemptive.trace st) = 0%nat) /\
  (exists st,
     Preemptive.run Preemptive.ElectronMain Preemptive.init
       [Preemptive.Speak Preemptive.first_text;
        Preemptive.QueryResponse 0 (Rejected fetch_refused)] = Some st /\
     Preemptive.trace st =
       [FetchAudioQuery 0 Preemptive.first_text;
        Log ConsoleLog "speakWithVoicevox error: TypeError - fetch failed";
        Log ConsoleError MSG_SPEECH_ERROR; Settle 0 Returned]) /\
  (exists st,
     Queued.run Queued.init
       [Queued.Speak Queued.hello;
        Queued.QueryResponse (Rejected fetch_refused)] = Some st /\
     Queued.trace st =
       [FetchAudioQuery 0 Queued.hello;
        Log ConsoleLog "speakWithVoicevox error: TypeError - fetch failed";
        Log ConsoleError MSG_SPEECH_ERROR; Settle 0 Returned]).
Proof.
  split; [vm_compute; reflexivity|]. split.
  - intros st r. split; intros Ht; simpl; rewrite Ht; reflexivity.
  - split; [|split]; eexists; (split; [vm_compute; reflexivity|]);
      try split; vm_compute; reflexivity.
Qed.

(** X29.  TypeScript server: a non-2xx response of either request makes the call
    throw and changes nothing but the entry of that call; an [AbortError]
    is logged with [console.log] and the call returns.  Queued Electron
    file: a non-2xx response is logged as a speech error, the task returns
    and the next chained task that can send its request starts. *)
Theorem speak_http_failure_and_cancellation :
  (forall st r s,
     response_ok s = false ->
     (Preemptive.tasks st !! r = Some Preemptive.AwaitQuery ->
      Preemptive.step Preemptive.ServerTs st
        (Preemptive.QueryResponse r (Response s)) =
      Some (Preemptive.settle r
              (Threw (http_error "Audio query failed: " s)) st)) /\
     (Preemptive.tasks st !! r = Some Preemptive.AwaitSynthesis ->
      Preemptive.step Preemptive.ServerTs st
        (Preemptive.SynthesisResponse r (Response s)) =
      Some (Preemptive.settle r
              (Threw (http_error "Synthesis failed: " s)) st))) /\
  (forall st r o,
     let st' := Preemptive.settle r o st in
     Preemptive.tasks st' = delete r (Preemptive.tasks st) /\
     Preemptive.currentPlayProcess st' = Preemptive.currentPlayProcess st /\
     Preemptive.currentTempFile st' = Preemptive.currentTempFile st /\
     Preemptive.currentAbortController st' =
       Preemptive.currentAbortController st /\
     Preemptive.procs st' = Preemptive.procs st /\
     Preemptive.files st' = Preemptive.files st /\
     Preemptive.trace st' = Preemptive.trace st ++ [Settle r o]) /\
  (forall st r e,
     Preemptive.is_abort_error e = true ->
     Preemptive.catch_block Preemptive.ServerTs r e st =
     Preemptive.settle r Returned
       (Preemptive.emit [Log ConsoleLog MSG_CANCELLED] st)) /\
  (forall st r s,
     response_ok s = false ->
     exists info1 info2,
       (Queued.active st = Some (r, Queued.AwaitQuery) ->
        Queued.step st (Queued.QueryResponse (Response s)) =
        Some (Queued.settle r
                (Queued.emit
                   [Log ConsoleLog info1; Log ConsoleError MSG_SPEECH_ERROR]
                   st))) /\
       (Queued.active st = Some (r, Queued.AwaitSynthesis) ->
        Queued.step st (Queued.SynthesisResponse (Response s)) =
        Some (Queued.settle r
                (Queued.emit
                   [Log ConsoleLog info2; Log ConsoleError MSG_SPEECH_ERROR]
                   st)))) /\
  (forall st r r' text rest,
     Queued.pending st = (r', text) :: rest ->
     well_formed (truncateText text) = true ->
     Queued.active (Queued.settle r st) = Some (r', Queued.AwaitQuery) /\
     Queued.pending (Queued.settle r st) = rest /\
     Queued.currentPlayProcess (Queued.settle r st) =
       Queued.currentPlayProcess st /\
     Queued.currentTempFile (Queued.settle r st) = Queued.currentTempFile st).
Proof.
  split; [|split; [|split; [|split]]].
  - intros st r s Hok. split; intros Ht; simpl; rewrite Ht.
    + rewrite Hok. f_equal. now apply preemptive_catch_http.
    + rewrite Hok. simpl. f_equal. now apply preemptive_catch_http.
  - intros st r o. simpl. repeat split; reflexivity.
  - intros st r e Ha. unfold Preemptive.catch_block. rewrite Ha. reflexivity.
  - intros st r s Hok. eexists. eexists. split; intros Ha; simpl; rewrite Ha.
    + rewrite Hok. unfold Queued.fail.
      rewrite queued_catch_http by reflexivity. reflexivity.
    + rewrite Hok. unfold Queued.fail.
      rewrite queued_catch_http by reflexivity. reflexivity.
  - intros st r r' text rest Hp Hw. unfold Queued.settle. simpl. rewrite Hp.
    simpl. unfold Queued.start_task. rewrite Hw.
    repeat split; reflexivity.
Qed.

(** A 500 response fails the first call only: the second call is played. *)
Example speak_failure_is_confined :
  (exists st,
     Preemptive.run Preemptive.ServerTs Preemptive.init
       preemptive_failure_then_success = Some st /\
     Preemptive.is_running st 1 /\
     count is_start (Preemptive.trace st) = 1%nat) /\
  (exists st,
     Queued.run Queued.init queued_failure_then_success = Some st /\
     Queued.is_running st 1 /\
     count is_start (Queued.trace st) = 1%nat).
Proof.
  split; (eexists; split; [vm_compute; reflexivity|]);
    (split; [eexists; vm_compute; reflexivity | vm_compute; reflexivity]).
Qed.

(** A cancelled call logs no error. *)
Example speak_cancelled_is_no_error :
  exists st,
    Preemptive.run Preemptive.ServerTs Preemptive.init
      [Preemptive.Speak Preemptive.first_text;
       Preemptive.Speak Preemptive.second_text;
       Preemptive.QueryResponse 0 (Rejected abort_error)] = Some st /\
    Preemptive.trace st =
      [FetchAudioQuery 0 Preemptive.first_text; AbortSignal 0;
       FetchAudioQuery 1 Preemptive.second_text;
       Log ConsoleLog MSG_CANCELLED; Settle 0 Returned] /\
    count is_console_error (Preemptive.trace st) = 0%nat.
Proof. eexists. split; [|split]; vm_compute; reflexivity. Qed.

End SpeakContract.

(** ** SessionLogTailer ([watch-session.ts]; the Electron [sessionWatcher]
    has the same skeleton)

    One step is one turn of the event loop: the callback of the debounce
    timer, which reads the directory synchronously and runs
    [processNewLines] up to its first [await], or the completion of an
    awaited send, which resumes that pass up to its next [await]. *)

Module Tailer.

(** The parsed line, as the interface [SessionMessage] declares it. *)
Record MessageContent : Type := {
  c_type : string;
  c_text : option string
}.

Record Message : Type := {
  role : string;
  content : list MessageContent
}.

Record SessionMessage : Type := {
  uuid : string;
  sm_type : string;
  message : option Message
}.

(** A log file as a pass sees it. *)
Record file : Type := {
  path : string;
  mtime : Z;
  data : string
}.

(** A pass suspended in [await sendToSpeakServer(text)]: the identifier it
    will record when the send completes, and the lines it has not looked at
    yet. *)
Record pass : Type := {
  p_uuid : string;
  p_rest : list string
}.

Record state : Type := mkState {
  processedMessages : gset string;
  filePositions : gmap string nat;
  currentSessionFile : option string;
  inflight : list pass;
  (** every call of [sendToSpeakServer]: the identifier and the text *)
  forwarded : list (string * string)
}.

Inductive event : Type :=
| Fire (dir : list file)
| SendDone (k : nat).

Definition newline : ascii := "010"%char.

(** [content.split("\n")] *)
Fixpoint split_lines (s : string) : list string :=
  match s with
  | EmptyString => [EmptyString]
  | String c rest =>
      if Ascii.eqb c newline then EmptyString :: split_lines rest
      else match split_lines rest with
           | l :: ls => String c l :: ls
           | [] => [String c EmptyString]
           end
  end.

Definition is_space (c : ascii) : bool :=
  existsb (Ascii.eqb c) [" "; "009"; "010"; "011"; "012"; "013"]%char.

(** [!line.trim()] (ASCII white space) *)
Fixpoint is_blank (s : string) : bool :=
  match s with
  | EmptyString => true
  | String c rest => is_space c && is_blank rest
  end.

(** [parts.join("\n")] *)
Fixpoint join_lines (parts : list string) : string :=
  match parts with
  | [] => EmptyString
  | [p] => p
  | p :: rest => p +:+ String newline (join_lines rest)
  end.

(** [c.type === "text" && c.text] *)
Definition text_part (c : MessageContent) : option string :=
  if String.eqb (c_type c) "text" then
    match c_text c with
    | Some t => if String.eqb t "" then None else Some t
    | None => None
    end
  else None.

Definition extractTextFromContent (content : list MessageContent)
  : option string :=
  match omap text_part content with
  | [] => None
  | parts => Some (join_lines parts)
  end.

(** [fileName.endsWith(".jsonl")] *)
Definition is_jsonl (name : string) : bool :=
  let n := String.length name in
  (6 <=? n)%nat && String.eqb (substring (n - 6) 6 name) ".jsonl".

(** The best of a stable sort by descending modification time: the first
    file with the greatest [mtime]. *)
Fixpoint newest (best : option file) (files : list file) : option file :=
  match files with
  | [] => best
  | f :: rest =>
      newest (match best with
              | None => Some f
              | Some b => if mtime b <? mtime f then Some f else Some b
              end) rest
  end.

Definition findLatestSessionFile (dir : list file) : option string :=
  path <$> newest None (filter (fun f => is_jsonl (path f) = true) dir).

(** [fs.existsSync] followed by [fs.statSync] and the read. *)
Definition find_file (p : string) (dir : list file) : option file :=
  List.find (fun f => String.eqb (path f) p) dir.

(** [filePositions.get(filePath) || 0] *)
Definition offset (st : state) (p : string) : nat :=
  default 0%nat (filePositions st !! p).

Definition set_position (p : string) (n : nat) (st : state) : state :=
  mkState (processedMessages st) (<[p := n]> (filePositions st))
    (currentSessionFile st) (inflight st) (forwarded st).

Definition set_current (p : option string) (st : state) : state :=
  mkState (processedMessages st) (filePositions st) p
    (inflight st) (forwarded st).

Definition set_inflight (l : list pass) (st : state) : state :=
  mkState (processedMessages st) (filePositions st) (currentSessionFile st)
    l (forwarded st).

Definition add_processed (u : string) (st : state) : state :=
  mkState ({[u]} ∪ processedMessages st) (filePositions st)
    (currentSessionFile st) (inflight st) (forwarded st).

Definition add_forwarded (u t : string) (st : state) : state :=
  mkState (processedMessages st) (filePositions st) (currentSessionFile st)
    (inflight st) (forwarded st ++ [(u, t)]).

Section WithParser.

(** [JSON.parse] followed by the cast to [SessionMessage]; [None] when it
    throws. *)
Variable JSON_parse : string -> option SessionMessage.

(** What the loop body decides for one line: the identifier and the text
    to forward, if any. *)
Definition to_forward (st : state) (line : string) : option (string * string) :=
  if is_blank line then None
  else
    match JSON_parse line with
    | None => None
    | Some d =>
        match message d with
        | Some m =>
            if String.eqb (sm_type d) "assistant"
               && String.eqb (role m) "assistant"
               && negb (bool_decide (uuid d ∈ processedMessages st))
            then
              match extractTextFromContent (content m) with
              | Some t => if String.eqb t "" then None else Some (uuid d, t)
              | None => None
              end
            else None
        | None => None
        end
    end.

(** The [for] loop from [lines] on, up to the next [await]: either the loop
    ends, or a send is started and the pass is suspended. *)
Fixpoint process_lines (lines : list string) (st : state)
  : state * option pass :=
  match lines with
  | [] => (st, None)
  | line :: rest =>
      match to_forward st line with
      | Some (u, t) =>
          (add_forwarded u t st, Some {| p_uuid := u; p_rest := rest |})
      | None => process_lines rest st
      end
  end.

(** A pass that suspends joins the suspended passes. *)
Definition suspend (r : state * option pass) : state :=
  match r with
  | (st, Some p) => set_inflight (inflight st ++ [p]) st
  | (st, None) => st
  end.

(** The bytes a pass reads from a file of the given state. *)
Definition new_bytes (st : state) (f : file) : string :=
  substring (offset st (path f))
    (String.length (data f) - offset st (path f)) (data f).

(** [processNewLines(filePath)] up to its first [await]. *)
Definition processNewLines (f : file) (st : state) : state :=
  let size := String.length (data f) in
  let lastPosition := offset st (path f) in
  if (size <=? lastPosition)%nat then st
  else
    let content := new_bytes st f in
    let st := set_position (path f) size st in
    suspend (process_lines (split_lines content) st).

(** The first half of the timer callback: a new latest file is adopted and
    its position reset. *)
Definition rotate (dir : list file) (st : state) : state :=
  match findLatestSessionFile dir with
  | Some latest =>
      if decide (currentSessionFile st = Some latest) then st
      else set_position latest 0 (set_current (Some latest) st)
  | None => st
  end.

(** The callback of the debounce timer. *)
Definition fire (dir : list file) (st : state) : state :=
  let st := rotate dir st in
  match currentSessionFile st with
  | Some cur =>
      match find_file cur dir with
      | Some f => processNewLines f st
      | None => st
      end
  | None => st
  end.

(** The send of the [k]-th suspended pass completes: the identifier is
    recorded and the loop goes on. *)
Definition resume (k : nat) (st : state) : option state :=
  match inflight st !! k with
  | Some p =>
      let st := add_processed (p_uuid p) st in
      match process_lines (p_rest p) st with
      | (st, Some p') => Some (set_inflight (<[k := p']> (inflight st)) st)
      | (st, None) => Some (set_inflight (delete k (inflight st)) st)
      end
  | None => None
  end.

Definition step (st : state) (ev : event) : option state :=
  match ev with
  | Fire dir => Some (fire dir st)
  | SendDone k => resume k st
  end.

Fixpoint run (st : state) (evs : list event) : option state :=
  match evs with
  | [] => Some st
  | ev :: rest => st' ← step st ev; run st' rest
  end.

(** [watchProject] before the first notification: the latest file is
    adopted and its present content skipped. *)
Definition start (dir : list file) : state :=
  let st := mkState ∅ ∅ (findLatestSessionFile dir) [] [] in
  match findLatestSessionFile dir with
  | Some cur =>
      match find_file cur dir with
      | Some f => set_position cur (String.length (data f)) st
      | None => st
      end
  | None => st
  end.

(** The timer callback is a rotation: the latest file is not the current
    one. *)
Definition rotates_to (dir : list file) (st : state) (p : string) : Prop :=
  findLatestSessionFile dir = Some p /\ currentSessionFile st <> Some p.

(** The positions after the timer callback, whatever the lines hold. *)
Definition positions_after (dir : list file) (st : state) : gmap string nat :=
  let st := rotate dir st in
  match currentSessionFile st with
  | Some cur =>
      match find_file cur dir with
      | Some f =>
          if (String.length (data f) <=? offset st (path f))%nat
          then filePositions st
          else <[path f := String.length (data f)]> (filePositions st)
      | None => filePositions st
      end
  | None => filePositions st
  end.

(** How often the identifier [u] has been forwarded. *)
Definition times_forwarded (u : string) (st : state) : nat :=
  length (filter (fun x => x.1 = u) (forwarded st)).

(** Passes that do not overlap: the timer callback runs only when no pass
    is suspended. *)
Definition seq_step (st : state) (ev : event) : option state :=
  match ev with
  | Fire dir =>
      match inflight st with
      | [] => Some (fire dir st)
      | _ => None
      end
  | SendDone k => resume k st
  end.

Fixpoint run_seq (st : state) (evs : list event) : option state :=
  match evs with
  | [] => Some st
  | ev :: rest => st' ← seq_step st ev; run_seq st' rest
  end.

(** Every forwarded identifier is recorded, or is the one whose send is
    under way; none was forwarded twice. *)
Definition seq_inv (st : state) : Prop :=
  NoDup (forwarded st).*1 /\
  match inflight st with
  | [] => forall u, u ∈ (forwarded st).*1 -> u ∈ processedMessages st
  | [p] => forall u, u ∈ (forwarded st).*1 ->
                     u ∈ processedMessages st \/ u = p_uuid p
  | _ => False
  end.

End WithParser.

(** A stand-in for [JSON.parse] in the examples: the line [<uuid> <text>]
    is an assistant message with one text part; a line without a space
    does not parse. *)
Fixpoint sample_split (s : string) : option (string * string) :=
  match s with
  | EmptyString => None
  | String c rest =>
      if Ascii.eqb c " " then Some (EmptyString, rest)
      else match sample_split rest with
           | Some (u, t) => Some (String c u, t)
           | None => None
           end
  end.

Definition sample_parse (line : string) : option SessionMessage :=
  match sample_split line with
  | Some (u, t) =>
      Some {| uuid := u; sm_type := "assistant";
              message :=
                Some {| role := "assistant";
                        content := [{| c_type := "text"; c_text := Some t |}] |} |}
  | None => None
  end.

Definition log_name : string := "/projects/p/session-a.jsonl".
Definition other_name : string := "/projects/p/session-b.jsonl".

(** The directory with one log holding [content]. *)
Definition one_log (content : string) : list file :=
  [{| path := log_name; mtime := 1; data := content |}].

Definition line_x1 : string := String.append "x1 hi" (String newline EmptyString).

(** *** Offsets *)

Section Facts.

Variable JSON_parse : string -> option SessionMessage.

Lemma to_forward_fresh (st : state) (line u t : string) :
  to_forward JSON_parse st line = Some (u, t) -> u ∉ processedMessages st.
Proof.
  unfold to_forward. destruct (is_blank line); [discriminate|].
  destruct (JSON_parse line) as [d|]; [|discriminate].
  destruct (message d) as [m|]; [|discriminate].
  destruct (String.eqb (sm_type d) "assistant" && String.eqb (role m) "assistant"
            && negb (bool_decide (uuid d ∈ processedMessages st))) eqn:E;
    [|discriminate].
  destruct (extractTextFromContent (content m)) as [t'|]; [|discriminate].
  destruct (String.eqb t' ""); [discriminate|]. intros [= <- <-].
  apply andb_true_iff in E as [_ E]. apply negb_true_iff in E.
  now apply bool_decide_eq_false in E.
Qed.

(** What one stretch of the loop changes. *)
Lemma process_lines_frame (lines : list string) (st : state) :
  let r := process_lines JSON_parse lines st in
  processedMessages r.1 = processedMessages st /\
  filePositions r.1 = filePositions st /\
  currentSessionFile r.1 = currentSessionFile st /\
  inflight r.1 = inflight st /\
  match r.2 with
  | None => forwarded r.1 = forwarded st
  | Some p => exists t, forwarded r.1 = forwarded st ++ [(p_uuid p, t)] /\
                        p_uuid p ∉ processedMessages st
  end.
Proof.
  induction lines as [|line rest IH]; simpl.
  - repeat split; reflexivity.
  - destruct (to_forward JSON_parse st line) as [[u t]|] eqn:E.
    + simpl. repeat split; try reflexivity. exists t. split; [reflexivity|].
      eapply to_forward_fresh; eauto.
    + exact IH.
Qed.

Lemma suspend_positions (r : state * option pass) :
  filePositions (suspend r) = filePositions r.1.
Proof. destruct r as [st [p|]]; reflexivity. Qed.

Lemma suspend_current (r : state * option pass) :
  currentSessionFile (suspend r) = currentSessionFile r.1.
Proof. destruct r as [st [p|]]; reflexivity. Qed.

Lemma processNewLines_positions (f : file) (st : state) :
  filePositions (processNewLines JSON_parse f st) =
  if (String.length (data f) <=? offset st (path f))%nat
  then filePositions st
  else <[path f := String.length (data f)]> (filePositions st).
Proof.
  unfold processNewLines.
  destruct (String.length (data f) <=? offset st (path f))%nat; [reflexivity|].
  rewrite suspend_positions.
  destruct (process_lines_frame
              (split_lines (new_bytes st f))
              (set_position (path f) (String.length (data f)) st))
    as (_ & -> & _). reflexivity.
Qed.

Lemma processNewLines_current (f : file) (st : state) :
  currentSessionFile (processNewLines JSON_parse f st) = currentSessionFile st.
Proof.
  unfold processNewLines.
  destruct (String.length (data f) <=? offset st (path f))%nat; [reflexivity|].
  rewrite suspend_current.
  destruct (process_lines_frame
              (split_lines (new_bytes st f))
              (set_position (path f) (String.length (data f)) st))
    as (_ & _ & -> & _). reflexivity.
Qed.

Lemma fire_positions (dir : list file) (st : state) :
  filePositions (fire JSON_parse dir st) = positions_after dir st.
Proof.
  unfold fire, positions_after.
  destruct (currentSessionFile (rotate dir st)) as [cur|]; [|reflexivity].
  destruct (find_file cur dir) as [f|]; [|reflexivity].
  apply processNewLines_positions.
Qed.

Lemma find_file_path (p : string) (dir : list file) (f : file) :
  find_file p dir = Some f -> path f = p.
Proof.
  unfold find_file. intros H. apply find_some in H as [_ H].
  now apply String.eqb_eq in H.
Qed.

Lemma rotate_offset (dir : list file) (st : state) (p : string) :
  (offset st p <= offset (rotate dir st) p)%nat \/ rotates_to dir st p.
Proof.
  unfold rotate, rotates_to.
  destruct (findLatestSessionFile dir) as [latest|]; [|left; lia].
  case_decide as Hc; [left; lia|].
  destruct (decide (p = latest)) as [->|Hne]; [right; auto|].
  left. unfold offset. simpl. rewrite lookup_insert_ne by congruence. lia.
Qed.

Lemma rotate_current (dir : list file) (st : state) (p : string) :
  rotates_to dir st p ->
  rotate dir st = set_position p 0 (set_current (Some p) st).
Proof.
  intros [Hl Hc]. unfold rotate. rewrite Hl.
  rewrite decide_False by exact Hc. reflexivity.
Qed.

Lemma positions_after_offset (dir : list file) (st : state) (p : string) :
  (offset st p <= default 0%nat (positions_after dir st !! p))%nat \/
  rotates_to dir st p.
Proof.
  destruct (rotate_offset dir st p) as [Hle|Hr]; [|right; exact Hr]. left.
  unfold positions_after.
  destruct (currentSessionFile (rotate dir st)) as [cur|]; [|exact Hle].
  destruct (find_file cur dir) as [f|]; [|exact Hle].
  destruct (Nat.leb_spec (String.length (data f)) (offset (rotate dir st) (path f)))
    as [H|H]; [exact Hle|].
  destruct (decide (p = path f)) as [->|Hne].
  - rewrite lookup_insert_eq. simpl. lia.
  - rewrite lookup_insert_ne by congruence. exact Hle.
Qed.

Lemma resume_positions (k : nat) (st st' : state) :
  resume JSON_parse k st = Some st' -> filePositions st' = filePositions st.
Proof.
  unfold resume. destruct (inflight st !! k) as [p|]; [|discriminate].
  pose proof (process_lines_frame (p_rest p) (add_processed (p_uuid p) st)) as H.
  destruct (process_lines JSON_parse (p_rest p) (add_processed (p_uuid p) st))
    as [st1 [p'|]]; simpl in H; destruct H as (_ & H & _); intros [= <-];
    simpl; exact H.
Qed.

Lemma substring_all (s : string) : substring 0 (String.length s) s = s.
Proof. induction s as [|c s IH]; simpl; [reflexivity | now rewrite IH]. Qed.


(** C8.  A pass sets the stored offset of the file it reads to the size of
    the file before it looks at any line, so the positions after the pass
    do not depend on what the lines hold; an offset never decreases except
    for the file a rotation adopts, whose offset is reset to 0 so that the
    pass reads its whole content. *)
Theorem tailer_offsets (dir : list file) (st : state) :
  filePositions (fire JSON_parse dir st) = positions_after dir st /\
  (forall f, (offset st (path f) < String.length (data f))%nat ->
     processNewLines JSON_parse f st =
       suspend (process_lines JSON_parse (split_lines (new_bytes st f))
                  (set_position (path f) (String.length (data f)) st)) /\
     offset (processNewLines JSON_parse f st) (path f) =
       String.length (data f)) /\
  (forall p, (offset st p <= offset (fire JSON_parse dir st) p)%nat \/
             rotates_to dir st p) /\
  (forall k st' p, resume JSON_parse k st = Some st' ->
                   offset st' p = offset st p) /\
  (forall p f, rotates_to dir st p -> find_file p dir = Some f ->
     currentSessionFile (fire JSON_parse dir st) = Some p /\
     offset (rotate dir st) p = 0%nat /\
     new_bytes (rotate dir st) f = data f /\
     offset (fire JSON_parse dir st) p = String.length (data f)).
Proof.
  split; [apply fire_positions|]. split; [|split; [|split]].
  - intros f Hlt. split.
    + unfold processNewLines.
      destruct (Nat.leb_spec (String.length (data f)) (offset st (path f)));
        [lia | reflexivity].
    + unfold offset at 1. rewrite processNewLines_positions.
      destruct (Nat.leb_spec (String.length (data f)) (offset st (path f)));
        [lia|]. now rewrite lookup_insert_eq.
  - intros p. unfold offset at 2. rewrite fire_positions.
    apply positions_after_offset.
  - intros k st' p H. unfold offset. now rewrite (resume_positions k st st' H).
  - intros p f Hrot Hf. pose proof (find_file_path p dir f Hf) as Hp.
    rewrite (rotate_current dir st p Hrot).
    assert (Hcur : currentSessionFile (fire JSON_parse dir st) = Some p).
    { unfold fire. rewrite (rotate_current dir st p Hrot). simpl.
      rewrite Hf. now rewrite processNewLines_current. }
    split; [exact Hcur|]. split.
    { unfold offset. simpl. now rewrite lookup_insert_eq. }
    split.
    { unfold new_bytes, offset. simpl. rewrite Hp, lookup_insert_eq. simpl.
      rewrite Nat.sub_0_r. apply substring_all. }
    unfold offset at 1. rewrite fire_positions. unfold positions_after.
    rewrite (rotate_current dir st p Hrot). simpl. rewrite Hf.
    unfold offset. simpl. rewrite Hp, lookup_insert_eq. simpl.
    destruct (Nat.leb_spec (String.length (data f)) 0) as [H0|H0].
    + rewrite lookup_insert_eq. simpl. lia.
    + now rewrite lookup_insert_eq.
Qed.

(** *** Forwarding at most once *)

Lemma times_forwarded_snoc (u v t : string) (st : state) :
  v <> u ->
  times_forwarded u (add_forwarded v t st) = times_forwarded u st.
Proof.
  intros Hne. unfold times_forwarded. simpl.
  rewrite filter_app, length_app, filter_cons_False by (simpl; congruence).
  simpl. lia.
Qed.

Lemma process_lines_recorded (lines : list string) (st : state) (u : string) :
  u ∈ processedMessages st ->
  length (filter (fun x => x.1 = u)
            (forwarded (process_lines JSON_parse lines st).1)) =
  length (filter (fun x => x.1 = u) (forwarded st)).
Proof.
  intros Hu.
  destruct (process_lines_frame lines st) as (_ & _ & _ & _ & H).
  destruct ((process_lines JSON_parse lines st).2) as [p|].
  - destruct H as (t & -> & Hfresh).
    rewrite filter_app, length_app, filter_cons_False.
    + simpl. lia.
    + simpl. intros Heq. subst u. contradiction.
  - now rewrite H.
Qed.

Lemma suspend_forwarded (r : state * option pass) :
  forwarded (suspend r) = forwarded r.1.
Proof. destruct r as [st [p|]]; reflexivity. Qed.

Lemma suspend_processed (r : state * option pass) :
  processedMessages (suspend r) = processedMessages r.1.
Proof. destruct r as [st [p|]]; reflexivity. Qed.

Lemma rotate_forwarded (dir : list file) (st : state) :
  forwarded (rotate dir st) = forwarded st /\
  processedMessages (rotate dir st) = processedMessages st /\
  inflight (rotate dir st) = inflight st.
Proof.
  unfold rotate. destruct (findLatestSessionFile dir); [|auto].
  case_decide; auto.
Qed.

Lemma fire_recorded (dir : list file) (st : state) (u : string) :
  u ∈ processedMessages st ->
  times_forwarded u (fire JSON_parse dir st) = times_forwarded u st /\
  u ∈ processedMessages (fire JSON_parse dir st).
Proof.
  intros Hu. destruct (rotate_forwarded dir st) as (Hf & Hp & _).
  unfold fire, times_forwarded.
  destruct (currentSessionFile (rotate dir st)) as [cur|];
    [|rewrite Hf, Hp; auto].
  destruct (find_file cur dir) as [f|]; [|rewrite Hf, Hp; auto].
  unfold processNewLines.
  destruct (String.length (data f) <=? offset (rotate dir st) (path f))%nat;
    [rewrite Hf, Hp; auto|].
  rewrite suspend_forwarded, suspend_processed. split.
  - rewrite process_lines_recorded by (simpl; rewrite Hp; exact Hu).
    simpl. now rewrite Hf.
  - destruct (process_lines_frame
                (split_lines (new_bytes (rotate dir st) f))
                (set_position (path f) (String.length (data f)) (rotate dir st)))
      as (-> & _). simpl. rewrite Hp. exact Hu.
Qed.

Lemma resume_recorded (k : nat) (st st' : state) (u : string) :
  resume JSON_parse k st = Some st' -> u ∈ processedMessages st ->
  times_forwarded u st' = times_forwarded u st /\ u ∈ processedMessages st'.
Proof.
  unfold resume. destruct (inflight st !! k) as [p|]; [|discriminate].
  intros H Hu.
  assert (Hu' : u ∈ processedMessages (add_processed (p_uuid p) st)).
  { simpl. now apply elem_of_union_r. }
  pose proof (process_lines_recorded (p_rest p) _ u Hu') as Hc.
  pose proof (process_lines_frame (p_rest p)
                (add_processed (p_uuid p) st)) as (Hp & _).
  destruct (process_lines JSON_parse (p_rest p) (add_processed (p_uuid p) st))
    as [st1 [p'|]]; simpl in *; injection H as <-;
    unfold times_forwarded; simpl; rewrite Hp; (split; [exact Hc|]);
    now apply elem_of_union_r.
Qed.

(** X8.  Once recorded, an identifier is never forwarded again, whatever the
    passes read and however they overlap. *)
Lemma recorded_never_forwarded_again (evs : list event) (st st' : state)
    (u : string) :
  run JSON_parse st evs = Some st' -> u ∈ processedMessages st ->
  times_forwarded u st' = times_forwarded u st /\ u ∈ processedMessages st'.
Proof.
  revert st. induction evs as [|ev evs IH]; intros st Hr Hu; simpl in Hr.
  - injection Hr as <-. auto.
  - destruct (step JSON_parse st ev) as [st1|] eqn:Es; [|discriminate].
    simpl in Hr.
    assert (H1 : times_forwarded u st1 = times_forwarded u st /\
                 u ∈ processedMessages st1).
    { destruct ev as [dir|k]; simpl in Es.
      - injection Es as <-. now apply fire_recorded.
      - eapply resume_recorded; eauto. }
    destruct H1 as [Hc Hu1]. destruct (IH st1 Hr Hu1) as [Hc' Hu'].
    split; [congruence | exact Hu'].
Qed.

Lemma process_lines_seq_inv (lines : list string) (st : state) :
  NoDup (forwarded st).*1 ->
  (forall u, u ∈ (forwarded st).*1 -> u ∈ processedMessages st) ->
  let r := process_lines JSON_parse lines st in
  NoDup (forwarded r.1).*1 /\
  match r.2 with
  | None => forall u, u ∈ (forwarded r.1).*1 -> u ∈ processedMessages r.1
  | Some p => forall u, u ∈ (forwarded r.1).*1 ->
                        u ∈ processedMessages r.1 \/ u = p_uuid p
  end.
Proof.
  intros Hnd Hall.
  destruct (process_lines_frame lines st) as (Hp & _ & _ & _ & H).
  simpl. rewrite Hp.
  destruct ((process_lines JSON_parse lines st).2) as [p|].
  - destruct H as (t & -> & Hfresh). rewrite fmap_app. simpl. split.
    + apply NoDup_app. split; [exact Hnd|]. split.
      * intros x Hx Hx'. apply list_elem_of_singleton in Hx' as ->.
        apply Hfresh. now apply Hall.
      * apply NoDup_singleton.
    + intros u Hu. apply elem_of_app in Hu as [Hu|Hu].
      * left. now apply Hall.
      * right. now apply list_elem_of_singleton in Hu.
  - rewrite H. auto.
Qed.


Lemma fire_seq_inv (dir : list file) (st : state) :
  seq_inv st -> inflight st = [] -> seq_inv (fire JSON_parse dir st).
Proof.
  intros [Hnd Hall] Hin. rewrite Hin in Hall.
  destruct (rotate_forwarded dir st) as (Hf & Hp & Hi).
  assert (Hrot : seq_inv (rotate dir st)).
  { unfold seq_inv. rewrite Hf, Hp, Hi, Hin. auto. }
  unfold fire. destruct (currentSessionFile (rotate dir st)) as [cur|];
    [|exact Hrot].
  destruct (find_file cur dir) as [f|]; [|exact Hrot].
  unfold processNewLines.
  destruct (String.length (data f) <=? offset (rotate dir st) (path f))%nat;
    [exact Hrot|].
  set (st2 := set_position (path f) (String.length (data f)) (rotate dir st)).
  set (lines := split_lines (new_bytes (rotate dir st) f)).
  assert (Hnd2 : NoDup (forwarded st2).*1) by (simpl; now rewrite Hf).
  assert (Hall2 : forall u, u ∈ (forwarded st2).*1 -> u ∈ processedMessages st2).
  { simpl. rewrite Hf, Hp. exact Hall. }
  pose proof (process_lines_seq_inv lines st2 Hnd2 Hall2) as [Hnd' Hall'].
  destruct (process_lines_frame lines st2) as (_ & _ & _ & Hi2 & _).
  destruct (process_lines JSON_parse lines st2) as [st3 [p|]]; simpl in *.
  - unfold seq_inv. simpl. rewrite Hi2, Hi, Hin. simpl. auto.
  - unfold seq_inv. rewrite Hi2, Hi, Hin. auto.
Qed.

Lemma resume_seq_inv (k : nat) (st st' : state) :
  seq_inv st -> resume JSON_parse k st = Some st' -> seq_inv st'.
Proof.
  intros [Hnd Hall]. unfold resume.
  destruct (inflight st) as [|p [|q rest]] eqn:Hin; [discriminate| |contradiction].
  destruct k as [|k]; [|discriminate]. simpl.
  set (st1 := add_processed (p_uuid p) st).
  assert (Hnd1 : NoDup (forwarded st1).*1) by exact Hnd.
  assert (Hall1 : forall u, u ∈ (forwarded st1).*1 -> u ∈ processedMessages st1).
  { simpl. intros u Hu. destruct (Hall u Hu) as [H| ->];
      [now apply elem_of_union_r |
       apply elem_of_union_l; now apply elem_of_singleton]. }
  pose proof (process_lines_seq_inv (p_rest p) st1 Hnd1 Hall1) as [Hnd' Hall'].
  destruct (process_lines_frame (p_rest p) st1) as (_ & _ & _ & Hi2 & _).
  destruct (process_lines JSON_parse (p_rest p) st1) as [st3 [p'|]];
    simpl in *; intros [= <-]; unfold seq_inv; simpl; rewrite Hi2, Hin; simpl;
    auto.
Qed.

Lemma start_seq_inv (dir : list file) : seq_inv (start dir).
Proof.
  unfold start. destruct (findLatestSessionFile dir) as [cur|].
  - destruct (find_file cur dir) as [f|]; (split; [constructor|]); simpl;
      intros u Hu; inversion Hu.
  - split; [constructor|]. simpl. intros u Hu. inversion Hu.
Qed.

(** X9.  Passes that do not overlap forward no identifier twice. *)
Lemma sequential_passes_forward_once (dir : list file) (evs : list event)
    (st : state) :
  run_seq JSON_parse (start dir) evs = Some st -> NoDup (forwarded st).*1.
Proof.
  intros Hr. cut (seq_inv st); [intros [H _]; exact H|].
  revert Hr. generalize (start_seq_inv dir). generalize (start dir).
  induction evs as [|ev evs IH]; intros st0 H0 Hr; simpl in Hr.
  - now injection Hr as <-.
  - destruct (seq_step JSON_parse st0 ev) as [st1|] eqn:Es; [|discriminate]. simpl in Hr.
    apply (IH st1); [|exact Hr].
    destruct ev as [d|k]; simpl in Es.
    + destruct (inflight st0) eqn:Hin; [|discriminate]. injection Es as <-.
      now apply fire_seq_inv.
    + eapply resume_seq_inv; eauto.
Qed.

End Facts.

(** C3 at two overlapping passes: the line is appended a second time while
    the send of the first pass is still awaited; the second pass finds the
    identifier unrecorded and forwards it again. *)
Theorem overlapping_passes_forward_twice :
  exists st,
    run sample_parse (start (one_log ""))
      [Fire (one_log line_x1); Fire (one_log (line_x1 +:+ line_x1));
       SendDone 0; SendDone 0] = Some st /\
    forwarded st = [("x1", "hi"); ("x1", "hi")] /\
    times_forwarded "x1" st = 2%nat /\ inflight st = [].
Proof. eexists. split; [|split; [|split]]; vm_compute; reflexivity. Qed.

(** The same appends read by passes that do not overlap. *)
Example sequential_passes_forward_x1_once :
  exists st,
    run sample_parse (start (one_log ""))
      [Fire (one_log line_x1); SendDone 0;
       Fire (one_log (line_x1 +:+ line_x1))] = Some st /\
    forwarded st = [("x1", "hi")] /\ inflight st = [].
Proof. eexists. split; [|split]; vm_compute; reflexivity. Qed.

(** A rotation: the other log becomes the latest one; it is adopted and read
    from its first byte, and the offset of the first log stays. *)
Example rotation_reads_whole_file :
  let dir :=
    [{| path := log_name; mtime := 1; data := line_x1 |};
     {| path := other_name; mtime := 2; data := "y1 hello" |}] in
  let st := start (one_log line_x1) in
  rotates_to dir st other_name /\
  offset st log_name = 6%nat /\
  currentSessionFile (fire sample_parse dir st) = Some other_name /\
  offset (fire sample_parse dir st) other_name = 8%nat /\
  offset (fire sample_parse dir st) log_name = 6%nat /\
  forwarded (fire sample_parse dir st) = [("y1", "hello")].
Proof.
  split; [split; [vm_compute; reflexivity | vm_compute; discriminate]|].
  repeat split; vm_compute; reflexivity.
Qed.

End Tailer.

(** ** The debounce of the directory watcher

    Time is the millisecond clock; a notification carries the time at which
    the callback of [fs.watch] runs.  A timer set at [t] is due at
    [t + DEBOUNCE_MS] and its callback, the read pass, runs before any
    notification that comes at or after that time. *)

Module Debounce.
Import Constants.

Record state : Type := mkState {
  (** the time at which the pending timer is due *)
  debounceTimer : option Z;
  (** the times at which a read pass started *)
  passes : list Z
}.

Definition idle : state := mkState None [].

(** [filename && filename.endsWith(".jsonl")] *)
Definition relevant (filename : option string) : bool :=
  match filename with
  | Some name => negb (String.eqb name "") && Tailer.is_jsonl name
  | None => false
  end.

(** The clock reaches [t]: a timer due by then has run its callback. *)
Definition elapse (t : Z) (st : state) : state :=
  match debounceTimer st with
  | Some due =>
      if due <=? t then mkState None (passes st ++ [due]) else st
  | None => st
  end.

(** The callback of [fs.watch] at time [t]: [clearTimeout] then
    [setTimeout(..., DEBOUNCE_MS)]. *)
Definition notify (t : Z) (filename : option string) (st : state) : state :=
  let st := elapse t st in
  if relevant filename then mkState (Some (t + DEBOUNCE_MS)) (passes st)
  else st.

Fixpoint watch (st : state) (notifs : list (Z * option string)) : state :=
  match notifs with
  | [] => st
  | (t, filename) :: rest => watch (notify t filename st) rest
  end.

(** The time of the last notification that restarts the timer. *)
Fixpoint last_relevant (seen : option Z) (notifs : list (Z * option string))
  : option Z :=
  match notifs with
  | [] => seen
  | (t, filename) :: rest =>
      last_relevant (if relevant filename then Some t else seen) rest
  end.

(** All the notifications come within one window that opens at [t0]. *)
Definition within_window (t0 : Z) (notifs : list (Z * option string)) : Prop :=
  Forall (fun n => t0 <= n.1 < t0 + DEBOUNCE_MS) notifs.

(** Ten writes to the log, 5 ms apart. *)
Definition ten_writes : list (Z * option string) :=
  map (fun i => (1000 + 5 * Z.of_nat i, Some "session-a.jsonl")) (seq 0 10).

(** No timer fires within the window: none is pending, or the pending one
    is due after the window. *)
Definition quiet_until (t0 : Z) (st : state) : Prop :=
  passes st = [] /\
  match debounceTimer st with
  | Some due => t0 + DEBOUNCE_MS <= due
  | None => True
  end.

Lemma notify_quiet (t0 t : Z) (filename : option string) (st : state) :
  t0 <= t < t0 + DEBOUNCE_MS -> quiet_until t0 st ->
  quiet_until t0 (notify t filename st) /\
  debounceTimer (notify t filename st) =
    if relevant filename then Some (t + DEBOUNCE_MS) else debounceTimer st.
Proof.
  intros Ht [Hp Hd]. unfold notify.
  assert (He : elapse t st = st).
  { unfold elapse. destruct (debounceTimer st) as [due|]; [|reflexivity].
    destruct (Z.leb_spec due t); [lia | reflexivity]. }
  rewrite He. destruct (relevant filename); split; try reflexivity.
  - split; [exact Hp|]. simpl. lia.
  - split; assumption.
Qed.

Lemma last_relevant_seen (notifs : list (Z * option string)) (seen : option Z) :
  last_relevant seen notifs =
  match last_relevant None notifs with
  | Some u => Some u
  | None => seen
  end.
Proof.
  revert seen. induction notifs as [|[u name] rest IH]; intros seen; simpl.
  - reflexivity.
  - destruct (relevant name); [|apply IH].
    rewrite (IH (Some u)). destruct (last_relevant None rest); reflexivity.
Qed.

Lemma watch_quiet (t0 : Z) (notifs : list (Z * option string)) (st : state) :
  within_window t0 notifs -> quiet_until t0 st ->
  quiet_until t0 (watch st notifs) /\
  debounceTimer (watch st notifs) =
    match last_relevant None notifs with
    | Some t => Some (t + DEBOUNCE_MS)
    | None => debounceTimer st
    end.
Proof.
  intros Hw. revert st. induction Hw as [|[t filename] rest Ht _ IH];
    intros st Hq; simpl.
  - auto.
  - simpl in Ht. destruct (notify_quiet t0 t filename st Ht Hq) as [Hq' Hd'].
    destruct (IH _ Hq') as [Hq2 Hd2]. split; [exact Hq2|].
    rewrite Hd2, Hd'.
    rewrite (last_relevant_seen rest (if relevant filename then Some t else None)).
    destruct (last_relevant None rest); [reflexivity|].
    destruct (relevant filename); reflexivity.
Qed.

(** C9.  Notifications that all come within one 100 ms window run no pass
    during the window and at most one after it: the pass of the last
    notification for a log file, 100 ms after that notification. *)
Theorem debounce_coalesces (t0 : Z) (notifs : list (Z * option string)) :
  within_window t0 notifs ->
  passes (watch idle notifs) = [] /\
  (forall horizon,
     (length (passes (elapse horizon (watch idle notifs))) <= 1)%nat) /\
  (forall t horizon,
     last_relevant None notifs = Some t -> t + DEBOUNCE_MS <= horizon ->
     passes (elapse horizon (watch idle notifs)) = [t + DEBOUNCE_MS]) /\
  (last_relevant None notifs = None ->
   forall horizon, passes (elapse horizon (watch idle notifs)) = []).
Proof.
  intros Hw.
  destruct (watch_quiet t0 notifs idle Hw) as [[Hp Hdue] Hd].
  { split; [reflexivity | exact I]. }
  split; [exact Hp|]. split; [|split].
  - intros horizon. unfold elapse.
    destruct (debounceTimer (watch idle notifs)) as [due|]; [|rewrite Hp; simpl; lia].
    destruct (due <=? horizon); simpl; rewrite Hp; simpl; lia.
  - intros t horizon Hl Hh. unfold elapse. rewrite Hd, Hl.
    destruct (Z.leb_spec (t + DEBOUNCE_MS) horizon); [|lia].
    simpl. now rewrite Hp.
  - intros Hl horizon. unfold elapse. rewrite Hd, Hl. exact Hp.
Qed.

(** Ten writes within 50 ms: one pass, 100 ms after the last write. *)
Lemma debounce_coalesces_witness :
  passes (watch idle ten_writes) = [] /\
  passes (elapse 2000 (watch idle ten_writes)) = [1145].
Proof.
  assert (Hw : within_window 1000 ten_writes).
  { unfold within_window, ten_writes, DEBOUNCE_MS. simpl.
    repeat (constructor; [simpl; lia|]). constructor. }
  destruct (debounce_coalesces 1000 ten_writes Hw) as (H0 & _ & H1 & _).
  split; [exact H0|].
  exact (H1 1045 2000 eq_refl ltac:(unfold DEBOUNCE_MS; lia)).
Defined.

(** Two notifications more than a window apart: two passes. *)
Example debounce_two_windows :
  passes (elapse 2000
            (watch idle [(1000, Some "session-a.jsonl");
                         (1150, Some "session-a.jsonl")]%string))
  = [1100; 1250].
Proof. reflexivity. Qed.

(** A notification without a file name, or for another file, starts no
    timer. *)
Example debounce_irrelevant :
  passes (elapse 2000 (watch idle [(1000, None); (1010, Some "notes.txt")]%string))
  = [].
Proof. reflexivity. Qed.

End Debounce.

(** ** Further properties of the duration estimate *)

Module WavFacts.
Import Constants JsNumber Wav.

Lemma readUInt32LE_app (buffer extra : list byte) (off : nat) :
  (off + 3 < length buffer)%nat ->
  readUInt32LE (buffer ++ extra) off = readUInt32LE buffer off.
Proof.
  intros H. unfold readUInt32LE.
  rewrite !lookup_app_l by lia. reflexivity.
Qed.

Lemma tag_at_app (buffer extra : list byte) (j : nat) :
  (j + 3 < length buffer)%nat ->
  tag_at (buffer ++ extra) j <-> tag_at buffer j.
Proof.
  intros H. unfold tag_at. rewrite !lookup_app_l by lia. reflexivity.
Qed.

Lemma tag_at_length (buffer : list byte) (j : nat) :
  tag_at buffer j -> (j + 3 < length buffer)%nat.
Proof.
  intros (_ & _ & _ & H). apply lookup_lt_Some in H. exact H.
Qed.

Lemma first_tag_app (buffer extra : list byte) (i : nat) :
  first_tag buffer i -> first_tag (buffer ++ extra) i.
Proof.
  intros (Ht & Hlen & Hfirst). split; [|split].
  - apply tag_at_app; [lia | exact Ht].
  - rewrite length_app. lia.
  - intros j Hj Htj. apply (Hfirst j Hj).
    apply (tag_at_app buffer extra j); [lia | exact Htj].
Qed.

(** X5.  The estimate reads the header only: once the first 'data' tag is in
    the scanned range, bytes added after the buffer, or cut from its end
    down to one byte after the size field, change nothing. *)
Theorem getWavDuration_ignores_payload (buffer extra : list byte) (i : nat) :
  first_tag buffer i -> (32 <= length buffer)%nat ->
  getWavDuration (buffer ++ extra) = getWavDuration buffer.
Proof.
  intros Hi Hlen. pose proof (first_tag_app buffer extra i Hi) as Hi'.
  unfold getWavDuration, getWavDuration_body.
  rewrite (readUInt32LE_app buffer extra 28) by lia.
  rewrite (scan_data_first_tag (buffer ++ extra) i Hi').
  rewrite (scan_data_first_tag buffer i Hi).
  destruct Hi as (_ & Hl & _).
  rewrite (readUInt32LE_app buffer extra (i + 4)) by lia. reflexivity.
Qed.

Lemma wav_one_byte_first_tag : first_tag wav_one_byte 36.
Proof.
  split; [apply is_data_tag_spec; reflexivity|].
  split; [vm_compute; lia|].
  intros j Hj [Hd _]. revert Hd.
  do 36 (destruct j as [|j]; [vm_compute; discriminate|]). lia.
Qed.

(** One second is announced; a payload of three bytes gives one second as
    a payload of one byte does. *)
Lemma getWavDuration_ignores_payload_witness :
  getWavDuration (wav_one_byte ++ ["001"%byte; "002"%byte]) = Ok (of_Z 1000).
Proof.
  rewrite (getWavDuration_ignores_payload wav_one_byte
             ["001"%byte; "002"%byte] 36 wav_one_byte_first_tag
             ltac:(vm_compute; lia)).
  reflexivity.
Defined.

End WavFacts.

(** ** Further properties of the cut of the text *)

Module TextFacts.
Import Constants Text.

(** Cutting a text that is already cut changes nothing. *)
Theorem truncateText_idempotent (text : jsstring) :
  truncateText (truncateText text) = truncateText text.
Proof.
  unfold truncateText, MAX_TEXT_LENGTH.
  destruct (Nat.ltb_spec 200 (length text)) as [Hlong|Hshort].
  - assert (Hl : (200 <? length (take 200 text ++ ellipsis))%nat = true).
    { apply Nat.ltb_lt. rewrite length_app, length_take.
      change (length ellipsis) with 3%nat. lia. }
    rewrite Hl. rewrite take_app_le by (rewrite length_take; lia).
    rewrite take_take. now rewrite Nat.min_id.
  - destruct (Nat.ltb_spec 200 (length text)); [lia | reflexivity].
Qed.

Lemma well_formed_lone_high (l rest : jsstring) (h d : N) :
  is_high h = true -> is_low d = false ->
  well_formed (l ++ h :: d :: rest) = false.
Proof.
  intros Hh Hd.
  assert (Hnl : is_low h = false).
  { unfold is_high, is_low in *. apply andb_true_iff in Hh as [H1 H2].
    apply N.leb_le in H1, H2. apply andb_false_iff. left.
    apply N.leb_gt. lia. }
  assert (H : forall n l, (length l <= n)%nat ->
               well_formed (l ++ h :: d :: rest) = false).
  { clear l. induction n as [|n IH]; intros l Hl.
    - destruct l; [|simpl in Hl; lia]. simpl. now rewrite Hh, Hd.
    - destruct l as [|c l]; [simpl; now rewrite Hh, Hd|].
      simpl. destruct (is_high c).
      + destruct l as [|e l]; simpl.
        * now rewrite Hnl.
        * rewrite IH by (simpl in Hl; lia). apply andb_false_r.
      + destruct (is_low c); [reflexivity|]. apply IH. simpl in Hl. lia. }
  exact (H (length l) l (le_n _)).
Qed.

(** X7.  The cut counts code units: when the 200th code unit of a longer text
    is the first half of a surrogate pair, the cut text ends in a lone
    surrogate followed by the dots and is no longer well formed. *)
Theorem truncateText_splits_surrogate_pair (text : jsstring) (h : N) :
  (MAX_TEXT_LENGTH < length text)%nat ->
  text !! 199%nat = Some h -> is_high h = true ->
  well_formed (truncateText text) = false.
Proof.
  intros Hlen Hh Hhigh. rewrite (truncateText_long text Hlen).
  assert (Ht : take 200 text = take 199 text ++ [h]).
  { change 200%nat with (S 199). now apply take_S_r. }
  rewrite Ht, <- app_assoc. simpl.
  change ellipsis with (46 :: 46 :: 46 :: [])%N.
  now apply well_formed_lone_high.
Qed.

(** A well-formed text of 201 code units whose emoji straddles the
    limit. *)
Lemma truncateText_splits_surrogate_pair_witness :
  well_formed emoji_at_limit = true /\
  well_formed (truncateText emoji_at_limit) = false.
Proof.
  split; [vm_compute; reflexivity|].
  exact (truncateText_splits_surrogate_pair emoji_at_limit 55357%N
           ltac:(vm_compute; lia) eq_refl eq_refl).
Defined.

End TextFacts.

(** ** Further properties of the queued orchestrator *)

Module QueuedFacts.
Import Constants JsNumber Text Speech Queued.

(** One request that has reached its playback. *)
Definition playing_schedule : list event :=
  Speak hello :: until_playing 1000.

(** Cancelling a request, killing a player, or letting an exception reach
    the caller. *)
Definition rude (a : action) : bool :=
  match a with
  | AbortSignal _ | Kill _ | Settle _ (Threw _) => true
  | _ => false
  end.

(** The [audio_query] requests of a trace: request number and text. *)
Definition queries (t : list action) : list (nat * jsstring) :=
  omap (fun a => match a with
                 | FetchAudioQuery r text => Some (r, text)
                 | _ => None
                 end) t.

(** The texts of the calls of a schedule, in order. *)
Definition speaks (evs : list event) : list jsstring :=
  omap (fun ev => match ev with Speak text => Some text | _ => None end) evs.

(** The request a call gives rise to. *)
Definition cut (x : nat * jsstring) : nat * jsstring :=
  (x.1, truncateText x.2).

(** The calls [h], numbered from 0, with their texts cut. *)
Definition expected (h : list jsstring) : list (nat * jsstring) :=
  imap (fun i text => (i, truncateText text)) h.

(** A text that [encodeURIComponent] accepts once it is cut. *)
Definition encodable (text : jsstring) : Prop :=
  well_formed (truncateText text) = true.

(** Every chained call has an encodable text. *)
Definition chained_encodable (st : state) : Prop :=
  Forall (fun x => encodable x.2) (pending st).

(** The requests issued so far followed by those still chained are the
    calls made so far, in order; an idle queue has nothing chained. *)
Definition fifo (h : list jsstring) (st : state) : Prop :=
  queries (trace st) ++ map cut (pending st) = expected h /\
  next_request st = length h /\
  (active st = None -> pending st = []) /\
  chained_encodable st.

(** [st'] has issued or still chains the same requests as [st]. *)
Definition keeps (st st' : state) : Prop :=
  queries (trace st') ++ map cut (pending st') =
    queries (trace st) ++ map cut (pending st) /\
  next_request st' = next_request st /\
  ((active st = None -> pending st = []) ->
   active st' = None -> pending st' = []) /\
  (chained_encodable st -> chained_encodable st').

(** [st'] differs from [st] in nothing the queue depends on. *)
Definition same (st st' : state) : Prop :=
  queries (trace st') = queries (trace st) /\
  pending st' = pending st /\
  next_request st' = next_request st /\
  active st' = active st.

(** Two calls, the second made while the first plays; then the first
    playback ends. *)
Definition goodbye : jsstring := of_ascii "goodbye".

Definition two_calls : list event :=
  Speak hello :: until_playing 1000 ++ [Speak goodbye; ProcClose 0].

(** A playback whose process reports a spawn error. *)
Definition failing_schedule : list event :=
  playing_schedule ++ [ProcError 0 spawn_failed].

(** While the first request plays, process 0 is the only one running. *)
Lemma queued_at_most_one_running_witness :
  exists st,
    run init playing_schedule = Some st /\
    is_running st 0 /\ forall p, is_running st p -> p = 0%nat.
Proof.
  destruct (run init playing_schedule) as [st|] eqn:Hr;
    [|vm_compute in Hr; discriminate].
  assert (H0 : is_running st 0).
  { vm_compute in Hr. injection Hr as <-. eexists. vm_compute. reflexivity. }
  exists st. split; [reflexivity|]. split; [exact H0|].
  intros p Hp.
  exact (queued_at_most_one_running playing_schedule st Hr p 0%nat Hp H0).
Defined.


Lemma catch_block_rude (e : js_error) : count rude (catch_block e) = 0%nat.
Proof. unfold catch_block. destruct (str_includes _ _); reflexivity. Qed.

Lemma started_rude (q : list (nat * jsstring)) :
  count rude (started q) = 0%nat.
Proof.
  induction q as [|[r text] rest IH]; cbn [started]; [reflexivity|].
  destruct (well_formed (truncateText text)); [reflexivity|].
  rewrite count_app, count_cons, catch_block_rude, IH. reflexivity.
Qed.

Lemma settle_rude (r : nat) (st : state) :
  count rude (trace (settle r st)) = count rude (trace st).
Proof.
  unfold settle. rewrite start_tasks_trace. simpl.
  rewrite !count_app, started_rude, count_cons, count_nil. simpl. lia.
Qed.

Lemma fail_rude (r : nat) (e : js_error) (st : state) :
  count rude (trace (fail r e st)) = count rude (trace st).
Proof.
  unfold fail. rewrite settle_rude. simpl.
  rewrite count_app, catch_block_rude. lia.
Qed.

Lemma forget_process_trace (p : nat) (st : state) :
  trace (forget_process p st) = trace st.
Proof. unfold forget_process. case_decide; reflexivity. Qed.

Lemma unlink_if_current_trace (f : Z) (st : state) :
  exists acts, trace (unlink_if_current f st) = trace st ++ acts /\
               count rude acts = 0%nat /\ queries acts = [].
Proof.
  unfold unlink_if_current. case_decide.
  - exists [Unlink f]. simpl. auto.
  - exists []. rewrite app_nil_r. auto.
Qed.

Lemma on_close_rude (p : nat) (f : Z) (st : state) :
  count rude (trace (on_close p f st)) = count rude (trace st).
Proof.
  unfold on_close.
  set (st1 := unlink_if_current f _).
  assert (H1 : count rude (trace st1) = count rude (trace st)).
  { subst st1. destruct (unlink_if_current_trace f
      (emit [Broadcast LipsyncStop]
         (forget_process p (set_procs (<[p:=(f, Closed)]> (procs st)) st))))
      as (acts & -> & Hr & _).
    simpl. rewrite forget_process_trace. simpl.
    rewrite !count_app, Hr, count_cons, count_nil. simpl. lia. }
  destruct (active st1) as [[r []]|]; try exact H1.
  case_decide; [rewrite settle_rude|]; exact H1.
Qed.

Lemma on_error_rude (p : nat) (f : Z) (e : js_error) (st : state) :
  count rude (trace (on_error p f e st)) = count rude (trace st).
Proof.
  unfold on_error.
  set (st1 := emit _ _).
  assert (H1 : count rude (trace st1) = count rude (trace st)).
  { subst st1. simpl. rewrite forget_process_trace. simpl.
    rewrite count_app, count_cons, count_nil. simpl. lia. }
  destruct (active st1) as [[r []]|]; try exact H1.
  case_decide; [rewrite fail_rude|]; exact H1.
Qed.

Lemma step_rude (st st' : state) (ev : event) :
  step st ev = Some st' -> count rude (trace st') = count rude (trace st).
Proof.
  intros Hs. destruct ev; simpl in Hs.
  - injection Hs as <-. destruct (active st); [reflexivity|].
    rewrite start_tasks_trace, count_app, started_rude. simpl. lia.
  - destruct (active st) as [[r []]|]; try discriminate.
    destruct res as [s|e]; [destruct (response_ok s)|]; injection Hs as <-;
      rewrite ?fail_rude; reflexivity.
  - destruct (active st) as [[r []]|]; try discriminate.
    destruct res as [e|]; injection Hs as <-; rewrite ?fail_rude; simpl;
      rewrite ?count_app, ?count_cons, ?count_nil; simpl; lia.
  - destruct (active st) as [[r []]|]; try discriminate.
    destruct res as [s|e]; [destruct (response_ok s)|]; injection Hs as <-;
      rewrite ?fail_rude; reflexivity.
  - destruct (active st) as [[r []]|]; try discriminate.
    destruct res as [e|d]; injection Hs as <-; rewrite ?fail_rude; reflexivity.
  - destruct (active st) as [[r []]|]; try discriminate.
    destruct opened; [discriminate|]. injection Hs as <-. reflexivity.
  - destruct (active st) as [[r []]|]; try discriminate.
    destruct res as [e|]; [injection Hs as <-; apply fail_rude|].
    destruct opened; [|discriminate]. injection Hs as <-.
    unfold play. simpl. rewrite !count_app, !count_cons, !count_nil. simpl. lia.
  - destruct (procs st !! p) as [[f s]|]; [|discriminate].
    case_decide; [discriminate|]. injection Hs as <-. apply on_close_rude.
  - destruct (procs st !! p) as [[f []]|]; try discriminate.
    injection Hs as <-. apply on_error_rude.
  - injection Hs as <-. simpl. rewrite count_app, count_cons, count_nil.
    simpl. lia.
Qed.

(** X4.  Queued policy, on every schedule: no request is aborted, no player
    process is killed, and the promise of every call is fulfilled, never
    rejected: a failure ends in the [catch] block of its own task. *)
Theorem queued_never_cancels_nor_throws (evs : list event) (st : state) :
  run init evs = Some st ->
  count rude (trace st) = 0%nat /\
  forall r o, In (Settle r o) (trace st) -> o = Returned.
Proof.
  intros Hr.
  assert (H0 : count rude (trace st) = 0%nat).
  { change 0%nat with (count rude (trace init)).
    revert Hr. generalize init. induction evs as [|ev evs IH]; intros s0 Hr;
      simpl in Hr.
    - now injection Hr as <-.
    - destruct (step s0 ev) as [s1|] eqn:Es; [|discriminate]. simpl in Hr.
      rewrite (IH s1 Hr). exact (step_rude _ _ ev Es). }
  split; [exact H0|]. intros r o Hin. destruct o as [|e]; [reflexivity|].
  exfalso. revert H0 Hin. generalize (trace st). intros t.
  induction t as [|a t IH]; [intros _ []|].
  rewrite count_cons. intros H0 [->|Hin].
  - simpl in H0. discriminate.
  - apply IH; [lia | exact Hin].
Qed.

Lemma queries_app (t u : list action) :
  queries (t ++ u) = queries t ++ queries u.
Proof. apply omap_app. Qed.

Lemma same_keeps (st st' : state) : same st st' -> keeps st st'.
Proof.
  intros (Hq & Hp & Hn & Ha). unfold keeps, chained_encodable.
  rewrite Hq, Hp, Hn, Ha. auto.
Qed.

Lemma same_refl (st : state) : same st st.
Proof. repeat split. Qed.

Lemma same_trans (a b c : state) : same a b -> same b c -> same a c.
Proof.
  intros (H1 & H2 & H3 & H4) (K1 & K2 & K3 & K4).
  repeat split; congruence.
Qed.

Lemma same_chained (a b : state) :
  same a b -> chained_encodable a -> chained_encodable b.
Proof. intros (_ & H2 & _) H. unfold chained_encodable. now rewrite H2. Qed.

Lemma keeps_same (a b c : state) : same a b -> keeps b c -> keeps a c.
Proof.
  intros (H1 & H2 & H3 & H4) (K1 & K2 & K3 & K4).
  unfold keeps, chained_encodable in *.
  rewrite <- H1, <- H2, <- H3, <- H4. auto.
Qed.

Lemma fifo_keeps (h : list jsstring) (st st' : state) :
  fifo h st -> keeps st st' -> fifo h st'.
Proof.
  intros (H1 & H2 & H3 & H4) (K1 & K2 & K3 & K4). unfold fifo.
  rewrite K1, K2. auto.
Qed.

Lemma emit_same (acts : list action) (st : state) :
  queries acts = [] -> same st (emit acts st).
Proof.
  intros Hq. repeat split. simpl. rewrite queries_app, Hq. apply app_nil_r.
Qed.

Lemma catch_block_queries (e : js_error) : queries (catch_block e) = [].
Proof. unfold catch_block. destruct (str_includes _ _); reflexivity. Qed.

Lemma forget_process_same (p : nat) (st : state) :
  same st (forget_process p st).
Proof. unfold forget_process. case_decide; repeat split. Qed.

Lemma unlink_if_current_same (f : Z) (st : state) :
  same st (unlink_if_current f st).
Proof.
  unfold unlink_if_current. case_decide; repeat split.
  simpl. rewrite queries_app. apply app_nil_r.
Qed.

(** The queue goes on with tasks whose texts are encodable: the first of
    them sends its request, the others stay chained. *)
Lemma start_tasks_encodable (q : list (nat * jsstring)) (st : state) :
  Forall (fun x => encodable x.2) q ->
  start_tasks q st =
    match q with
    | [] => set_pending [] (set_active None st)
    | (r, text) :: rest =>
        set_pending rest
          (emit [FetchAudioQuery r (truncateText text)]
             (set_active (Some (r, AwaitQuery)) st))
    end.
Proof.
  intros Hq. destruct q as [|[r text] rest]; [reflexivity|].
  apply Forall_cons in Hq as [Hw _]. simpl in Hw. simpl.
  unfold start_task. unfold encodable in Hw. rewrite Hw. reflexivity.
Qed.

Lemma settle_keeps (r : nat) (st : state) :
  chained_encodable st -> keeps st (settle r st).
Proof.
  intros Hc. unfold settle. rewrite start_tasks_encodable by exact Hc.
  unfold keeps, chained_encodable in *. cbn [pending emit].
  destruct (pending st) as [|[r' text] rest] eqn:Ep; simpl;
    rewrite !queries_app, ?Ep; simpl; rewrite ?app_nil_r, <- ?app_assoc;
    repeat split; try (intros _ Hd; discriminate); auto.
  intros _. now apply Forall_cons in Hc as [_ Hc].
Qed.

Lemma fail_keeps (r : nat) (e : js_error) (st : state) :
  chained_encodable st -> keeps st (fail r e st).
Proof.
  intros Hc. unfold fail.
  assert (Hs : same st (emit (catch_block e) st))
    by apply emit_same, catch_block_queries.
  eapply keeps_same; [exact Hs|]. apply settle_keeps.
  exact (same_chained _ _ Hs Hc).
Qed.

Lemma set_active_keeps (x : nat * pc) (st : state) :
  keeps st (set_active (Some x) st).
Proof. repeat split; auto. intros _ Hd. discriminate. Qed.

Lemma play_keeps (r : nat) (f : Z) (d : list byte) (st : state) :
  keeps st (play r f d st).
Proof.
  unfold play, keeps. simpl. rewrite !queries_app. simpl.
  rewrite !app_nil_r. repeat split; auto. intros _ Hd. discriminate.
Qed.

Lemma on_close_keeps (p : nat) (f : Z) (st : state) :
  chained_encodable st -> keeps st (on_close p f st).
Proof.
  intros Hc. unfold on_close.
  set (st1 := unlink_if_current f _).
  assert (H1 : same st st1).
  { subst st1. eapply same_trans; [|apply unlink_if_current_same].
    eapply same_trans; [|apply (emit_same [Broadcast LipsyncStop]); reflexivity].
    eapply same_trans; [|apply forget_process_same]. repeat split. }
  destruct (active st1) as [[r []]|]; try (apply same_keeps, H1).
  case_decide; [|apply same_keeps, H1].
  eapply keeps_same; [exact H1 | apply settle_keeps].
  exact (same_chained _ _ H1 Hc).
Qed.

Lemma on_error_keeps (p : nat) (f : Z) (e : js_error) (st : state) :
  chained_encodable st -> keeps st (on_error p f e st).
Proof.
  intros Hc. unfold on_error.
  set (st1 := emit _ _).
  assert (H1 : same st st1).
  { subst st1. eapply same_trans; [|apply emit_same; reflexivity].
    eapply same_trans; [|apply forget_process_same]. repeat split. }
  destruct (active st1) as [[r []]|]; try (apply same_keeps, H1).
  case_decide; [|apply same_keeps, H1].
  eapply keeps_same; [exact H1 | apply fail_keeps].
  exact (same_chained _ _ H1 Hc).
Qed.

Lemma expected_snoc (h : list jsstring) (text : jsstring) :
  expected (h ++ [text]) = expected h ++ [(length h, truncateText text)].
Proof.
  unfold expected. rewrite imap_app. simpl. rewrite Nat.add_0_r. reflexivity.
Qed.

Lemma step_fifo (h : list jsstring) (st st' : state) (ev : event) :
  fifo h st -> Forall encodable (speaks [ev]) ->
  step st ev = Some st' -> fifo (h ++ speaks [ev]) st'.
Proof.
  intros Hf Hw Hs.
  assert (Hc : chained_encodable st) by apply Hf.
  assert (Hk : forall s, keeps st s -> fifo (h ++ []) s).
  { intros s Hk. rewrite app_nil_r. exact (fifo_keeps h st s Hf Hk). }
  assert (Hsp : speaks [ev] =
                 match ev with Speak text => [text] | _ => [] end)
    by (destruct ev; reflexivity).
  rewrite Hsp in Hw |- *. clear Hsp.
  destruct ev; simpl in Hs.
  - injection Hs as <-. destruct Hf as (H1 & H2 & H3 & H4).
    apply Forall_cons in Hw as [Hw _].
    unfold fifo. rewrite expected_snoc.
    destruct (active st) as [a|] eqn:Ea.
    + unfold chained_encodable. simpl.
      rewrite Ea. rewrite map_app, app_assoc, H1, H2, length_app. simpl.
      repeat split; try lia; try discriminate.
      apply Forall_app. split; [exact H4|]. now constructor.
    + rewrite (H3 eq_refl) in *. simpl in H1. rewrite app_nil_r in H1.
      rewrite start_tasks_encodable by (simpl; now repeat constructor).
      unfold chained_encodable. simpl.
      rewrite queries_app, H1, H2, length_app. simpl. rewrite app_nil_r.
      repeat split; try lia; try discriminate. constructor.
  - destruct (active st) as [[r []]|]; try discriminate.
    destruct res as [s|e]; [destruct (response_ok s)|]; injection Hs as <-;
      apply Hk; auto using fail_keeps, set_active_keeps.
  - destruct (active st) as [[r []]|]; try discriminate.
    destruct res as [e|]; injection Hs as <-; apply Hk;
      [now apply fail_keeps|].
    unfold keeps. simpl. rewrite queries_app. simpl. rewrite app_nil_r.
    repeat split; auto. intros _ Hd. discriminate.
  - destruct (active st) as [[r []]|]; try discriminate.
    destruct res as [s|e]; [destruct (response_ok s)|]; injection Hs as <-;
      apply Hk; auto using fail_keeps, set_active_keeps.
  - destruct (active st) as [[r []]|]; try discriminate.
    destruct res as [e|d]; injection Hs as <-; apply Hk;
      auto using fail_keeps, set_active_keeps.
  - destruct (active st) as [[r []]|]; try discriminate.
    destruct opened; [discriminate|]. injection Hs as <-. apply Hk.
    repeat split; auto. intros _ Hd. discriminate.
  - destruct (active st) as [[r []]|]; try discriminate.
    destruct res as [e|]; [injection Hs as <-; now apply Hk, fail_keeps|].
    destruct opened; [|discriminate]. injection Hs as <-.
    apply Hk, play_keeps.
  - destruct (procs st !! p) as [[f s]|]; [|discriminate].
    case_decide; [discriminate|]. injection Hs as <-.
    now apply Hk, on_close_keeps.
  - destruct (procs st !! p) as [[f []]|]; try discriminate.
    injection Hs as <-. now apply Hk, on_error_keeps.
  - injection Hs as <-. apply Hk, same_keeps.
    apply (emit_same [Log ConsoleLog "[SessionWatcher] Stopped"]).
    reflexivity.
Qed.

Lemma run_fifo (evs : list event) (h : list jsstring) (st0 st : state) :
  fifo h st0 -> Forall encodable (speaks evs) ->
  run st0 evs = Some st -> fifo (h ++ speaks evs) st.
Proof.
  revert h st0. induction evs as [|ev evs IH]; intros h st0 Hf Hw Hr;
    simpl in Hr.
  - injection Hr as <-. simpl. rewrite app_nil_r. exact Hf.
  - destruct (step st0 ev) as [s1|] eqn:Es; [|discriminate]. simpl in Hr.
    change (ev :: evs) with ([ev] ++ evs) in Hw |- *. unfold speaks in *.
    rewrite omap_app in Hw. apply Forall_app in Hw as [Hw1 Hw2].
    rewrite omap_app, app_assoc. apply (IH _ s1); [|exact Hw2|exact Hr].
    exact (step_fifo h st0 s1 ev Hf Hw1 Es).
Qed.

(** X3.  Queued policy, on every schedule: the [audio_query] requests issued so
    far, followed by the calls still chained, are the calls made so far in
    their order, each with its own text cut to the limit; none is issued
    twice, reordered or dropped.  When no task is running every call made
    so far has been issued.  The texts are those [encodeURIComponent]
    accepts once cut: on a lone surrogate it throws before the request is
    sent. *)
Theorem queued_first_in_first_out (evs : list event) (st : state) :
  Forall (fun text => well_formed (truncateText text) = true) (speaks evs) ->
  run init evs = Some st ->
  queries (trace st) ++ map cut (pending st) = expected (speaks evs) /\
  (active st = None -> queries (trace st) = expected (speaks evs)).
Proof.
  intros Hw Hr.
  assert (H0 : fifo [] init) by (repeat split; constructor).
  destruct (run_fifo evs [] init st H0 Hw Hr) as (H1 & _ & H3 & _).
  simpl in H1. split; [exact H1|]. intros Ha.
  rewrite (H3 Ha) in H1. simpl in H1. rewrite app_nil_r in H1. exact H1.
Qed.

(** The second call is issued after the first, with its own text. *)
Lemma queued_first_in_first_out_witness :
  exists st,
    run init two_calls = Some st /\
    queries (trace st) = [(0%nat, hello); (1%nat, goodbye)] /\
    pending st = [].
Proof.
  destruct (run init two_calls) as [st|] eqn:Hr;
    [|vm_compute in Hr; discriminate].
  exists st. split; [reflexivity|].
  assert (Hw : Forall (fun text => well_formed (truncateText text) = true)
                 (speaks two_calls)).
  { repeat constructor. }
  pose proof (queued_first_in_first_out two_calls st Hw Hr) as [Hq _].
  assert (Hp : pending st = []).
  { vm_compute in Hr. injection Hr as <-. reflexivity. }
  rewrite Hp in Hq. simpl in Hq. rewrite app_nil_r in Hq.
  split; [|exact Hp]. rewrite Hq. vm_compute. reflexivity.
Defined.

(** A spawn error is logged; the promise of the call is still fulfilled. *)
Lemma queued_never_cancels_nor_throws_witness :
  exists st,
    run init failing_schedule = Some st /\
    In (Settle 0 Returned) (trace st) /\
    count rude (trace st) = 0%nat.
Proof.
  destruct (run init failing_schedule) as [st|] eqn:Hr;
    [|vm_compute in Hr; discriminate].
  exists st. split; [reflexivity|].
  pose proof (queued_never_cancels_nor_throws failing_schedule st Hr)
    as [Hc _].
  split; [|exact Hc].
  vm_compute in Hr. injection Hr as <-. vm_compute. tauto.
Defined.

End QueuedFacts.

(** ** Further properties of the session tailer *)

Module TailerFacts.
Import Tailer.

(** A stand-in for [JSON.parse] that rejects a line not closed by a brace,
    as the parser rejects a truncated object. *)
Fixpoint ends_with_brace (s : string) : bool :=
  match s with
  | EmptyString => false
  | String c EmptyString => Ascii.eqb c "}"
  | String _ rest => ends_with_brace rest
  end.

Definition closed_parse (line : string) : option SessionMessage :=
  if ends_with_brace line then sample_parse line else None.

(** No line feed in the string. *)
Fixpoint one_line (s : string) : bool :=
  match s with
  | EmptyString => true
  | String c rest => negb (Ascii.eqb c newline) && one_line rest
  end.

(** The log [log_name] with the given content. *)
Definition log (content : string) : file :=
  {| path := log_name; mtime := 1; data := content |}.

Definition line_feed : string := String newline EmptyString.

Section Facts.

Variable JSON_parse : string -> option SessionMessage.

(** The pair is the identifier and the joined text parts of a line that
    parses to an assistant message. *)
Definition assistant_text (x : string * string) : Prop :=
  exists line d m,
    JSON_parse line = Some d /\ uuid d = x.1 /\
    sm_type d = "assistant"%string /\ message d = Some m /\
    role m = "assistant"%string /\
    extractTextFromContent (content m) = Some x.2 /\ x.2 <> ""%string.

Lemma rotate_settled (dir : list file) (st st' : state) :
  currentSessionFile st' = currentSessionFile (rotate dir st) ->
  rotate dir st' = st'.
Proof.
  unfold rotate. destruct (findLatestSessionFile dir) as [latest|];
    [|reflexivity].
  intros H. rewrite decide_True; [reflexivity|]. rewrite H.
  case_decide as Hc; [exact Hc | reflexivity].
Qed.

Lemma fire_current (dir : list file) (st : state) :
  currentSessionFile (fire JSON_parse dir st) =
  currentSessionFile (rotate dir st).
Proof.
  unfold fire. destruct (currentSessionFile (rotate dir st)) as [cur|] eqn:Ec;
    [|exact Ec].
  destruct (find_file cur dir) as [f|]; [|exact Ec].
  now rewrite processNewLines_current.
Qed.

Lemma processNewLines_twice (f : file) (st : state) :
  processNewLines JSON_parse f (processNewLines JSON_parse f st) =
  processNewLines JSON_parse f st.
Proof.
  set (st1 := processNewLines JSON_parse f st).
  unfold processNewLines at 1.
  assert (H : (String.length (data f) <= offset st1 (path f))%nat).
  { unfold offset at 1. subst st1. rewrite processNewLines_positions.
    destruct (Nat.leb_spec (String.length (data f)) (offset st (path f)))
      as [Hle|Hlt]; [exact Hle|].
    rewrite lookup_insert_eq. simpl. lia. }
  destruct (Nat.leb_spec (String.length (data f)) (offset st1 (path f)));
    [reflexivity | lia].
Qed.

(** X10.  A second timer callback over an unchanged directory reads nothing and
    changes nothing. *)
Theorem fire_unchanged_directory (dir : list file) (st : state) :
  fire JSON_parse dir (fire JSON_parse dir st) = fire JSON_parse dir st.
Proof.
  pose proof (rotate_settled dir st _ (fire_current dir st)) as Hr.
  pose proof (fire_current dir st) as Hc.
  unfold fire at 1. rewrite Hr, Hc.
  unfold fire.
  destruct (currentSessionFile (rotate dir st)) as [cur|]; [|reflexivity].
  destruct (find_file cur dir) as [f|]; [|reflexivity].
  apply processNewLines_twice.
Qed.

Lemma substring_append (a b : string) :
  substring (String.length a) (String.length (a +:+ b) - String.length a)
    (a +:+ b) = b.
Proof.
  induction a as [|c a IH]; simpl.
  - rewrite Nat.sub_0_r. apply substring_all.
  - exact IH.
Qed.

(** X11.  After a pass over a file, the next pass reads exactly the bytes
    appended since. *)
Theorem pass_reads_appended_bytes (f f' : file) (extra : string)
    (st : state) :
  (offset st (path f) <= String.length (data f))%nat ->
  path f' = path f -> data f' = data f +:+ extra ->
  new_bytes (processNewLines JSON_parse f st) f' = extra.
Proof.
  intros Hle Hp Hd.
  assert (Ho : offset (processNewLines JSON_parse f st) (path f) =
               String.length (data f)).
  { unfold offset at 1. rewrite processNewLines_positions.
    destruct (Nat.leb_spec (String.length (data f)) (offset st (path f)))
      as [H|H].
    - unfold offset in *. lia.
    - now rewrite lookup_insert_eq. }
  unfold new_bytes. rewrite Hp, Ho, Hd. apply substring_append.
Qed.

(** X12.  [watchProject] skips what the latest file holds at start: a timer
    callback over the unchanged directory forwards nothing, and a pass
    over the grown file reads the appended bytes only. *)
Theorem start_skips_existing_content (dir : list file) :
  fire JSON_parse dir (start dir) = start dir /\
  forwarded (start dir) = [] /\
  (forall p f f' extra,
     findLatestSessionFile dir = Some p -> find_file p dir = Some f ->
     path f' = p -> data f' = data f +:+ extra ->
     new_bytes (start dir) f' = extra).
Proof.
  split; [|split].
  - unfold fire.
    assert (Hc : currentSessionFile (start dir) = findLatestSessionFile dir).
    { unfold start. destruct (findLatestSessionFile dir) as [cur|];
        [|reflexivity].
      destruct (find_file cur dir); reflexivity. }
    assert (Hr : rotate dir (start dir) = start dir).
    { unfold rotate. destruct (findLatestSessionFile dir) as [l|] eqn:El;
        [|reflexivity].
      rewrite decide_True by exact Hc. reflexivity. }
    rewrite Hr.
    rewrite Hc. destruct (findLatestSessionFile dir) as [cur|] eqn:El;
      [|reflexivity].
    destruct (find_file cur dir) as [f|] eqn:Ef; [|reflexivity].
    unfold processNewLines.
    assert (Ho : offset (start dir) (path f) = String.length (data f)).
    { unfold start. rewrite El, Ef. unfold offset. simpl.
      rewrite (find_file_path cur dir f Ef). now rewrite lookup_insert_eq. }
    rewrite Ho. now rewrite Nat.leb_refl.
  - unfold start. destruct (findLatestSessionFile dir) as [cur|];
      [|reflexivity].
    destruct (find_file cur dir); reflexivity.
  - intros p f f' extra El Ef Hp Hd. unfold new_bytes.
    assert (Ho : offset (start dir) (path f') = String.length (data f)).
    { unfold start. rewrite El, Ef. unfold offset. simpl.
      rewrite Hp. now rewrite lookup_insert_eq. }
    rewrite Ho, Hd. apply substring_append.
Qed.

Lemma to_forward_assistant (st : state) (line u t : string) :
  to_forward JSON_parse st line = Some (u, t) -> assistant_text (u, t).
Proof.
  unfold to_forward. destruct (is_blank line); [discriminate|].
  destruct (JSON_parse line) as [d|] eqn:Ed; [|discriminate].
  destruct (message d) as [m|] eqn:Em; [|discriminate].
  destruct (String.eqb_spec (sm_type d) "assistant") as [Ht|]; [|discriminate].
  destruct (String.eqb_spec (role m) "assistant") as [Hr|]; [|discriminate].
  simpl. destruct (negb _); [|discriminate].
  destruct (extractTextFromContent (content m)) as [t'|] eqn:Ex; [|discriminate].
  destruct (String.eqb_spec t' "") as [|Hne]; [discriminate|].
  intros [= <- <-]. exists line, d, m. simpl. auto 10.
Qed.

Lemma process_lines_assistant (lines : list string) (st : state) :
  Forall assistant_text (forwarded st) ->
  Forall assistant_text (forwarded (process_lines JSON_parse lines st).1).
Proof.
  intros H. induction lines as [|line rest IH]; simpl; [exact H|].
  destruct (to_forward JSON_parse st line) as [[u t]|] eqn:E; [|exact IH].
  simpl. apply Forall_app. split; [exact H|]. constructor; [|constructor].
  eapply to_forward_assistant; eauto.
Qed.

Lemma fire_assistant (dir : list file) (st : state) :
  Forall assistant_text (forwarded st) ->
  Forall assistant_text (forwarded (fire JSON_parse dir st)).
Proof.
  intros H. destruct (rotate_forwarded dir st) as (Hf & _).
  unfold fire.
  destruct (currentSessionFile (rotate dir st)) as [cur|]; [|now rewrite Hf].
  destruct (find_file cur dir) as [f|]; [|now rewrite Hf].
  unfold processNewLines.
  destruct (String.length (data f) <=? offset (rotate dir st) (path f))%nat;
    [now rewrite Hf|].
  rewrite suspend_forwarded. apply process_lines_assistant. simpl.
  now rewrite Hf.
Qed.

Lemma resume_assistant (k : nat) (st st' : state) :
  resume JSON_parse k st = Some st' ->
  Forall assistant_text (forwarded st) ->
  Forall assistant_text (forwarded st').
Proof.
  unfold resume. destruct (inflight st !! k) as [p|]; [|discriminate].
  intros H Hf.
  pose proof (process_lines_assistant (p_rest p) (add_processed (p_uuid p) st)
                Hf) as Hp.
  destruct (process_lines JSON_parse (p_rest p) (add_processed (p_uuid p) st))
    as [st1 [p'|]]; injection H as <-; exact Hp.
Qed.

(** X15.  Whatever the files hold and however the passes overlap, the tailer
    forwards only the joined text parts of lines that parse to assistant
    messages, under the identifier of the line, and never an empty text. *)
Theorem forwards_assistant_texts_only (dir : list file) (evs : list event)
    (st : state) :
  run JSON_parse (start dir) evs = Some st ->
  Forall assistant_text (forwarded st).
Proof.
  assert (H0 : Forall assistant_text (forwarded (start dir))).
  { unfold start. destruct (findLatestSessionFile dir) as [cur|];
      [destruct (find_file cur dir)|]; constructor. }
  revert H0. generalize (start dir). induction evs as [|ev evs IH];
    intros s0 H0 Hr; simpl in Hr.
  - now injection Hr as <-.
  - destruct (step JSON_parse s0 ev) as [s1|] eqn:Es; [|discriminate].
    simpl in Hr. apply (IH s1); [|exact Hr].
    destruct ev as [d|k]; simpl in Es.
    + injection Es as <-. now apply fire_assistant.
    + eapply resume_assistant; eauto.
Qed.

Lemma split_lines_nonempty (s : string) : split_lines s <> [].
Proof.
  destruct s as [|c s]; simpl; [discriminate|].
  destruct (Ascii.eqb c newline); [discriminate|].
  destruct (split_lines s); discriminate.
Qed.

Lemma split_lines_one_line (a rest : string) :
  one_line a = true ->
  split_lines (a +:+ String newline rest) = a :: split_lines rest.
Proof.
  induction a as [|c a IH]; simpl.
  - intros _. reflexivity.
  - intros H. apply andb_true_iff in H as [Hc Ha].
    apply negb_true_iff in Hc. rewrite Hc, (IH Ha). reflexivity.
Qed.

Lemma split_lines_single (a : string) :
  one_line a = true -> split_lines a = [a].
Proof.
  induction a as [|c a IH]; simpl; [reflexivity|].
  intros H. apply andb_true_iff in H as [Hc Ha].
  apply negb_true_iff in Hc. rewrite Hc, (IH Ha). reflexivity.
Qed.

Lemma to_forward_unparsed (st : state) (line : string) :
  JSON_parse line = None -> to_forward JSON_parse st line = None.
Proof.
  intros H. unfold to_forward. rewrite H. now destruct (is_blank line).
Qed.

Lemma append_assoc (a b c : string) : (a +:+ b) +:+ c = a +:+ (b +:+ c).
Proof.
  induction a as [|x a IH]; [reflexivity|].
  change (String x ((a +:+ b) +:+ c) = String x (a +:+ (b +:+ c))).
  now rewrite IH.
Qed.

Lemma length_append (a b : string) :
  String.length (a +:+ b) = (String.length a + String.length b)%nat.
Proof.
  induction a as [|x a IH]; [reflexivity|].
  change (S (String.length (a +:+ b)) =
          S (String.length a + String.length b)).
  now rewrite IH.
Qed.

(** X16.  A line written in two parts, each read by its own pass, is never
    forwarded: the first pass moves the offset past the first part, which
    does not parse, and the second pass reads the second part only. *)
Theorem torn_line_is_lost (f1 f2 : file) (d a b : string) (st : state) :
  offset st (path f1) = String.length d ->
  data f1 = d +:+ a ->
  path f2 = path f1 -> data f2 = d +:+ a +:+ b +:+ line_feed ->
  one_line a = true -> one_line b = true ->
  JSON_parse a = None -> JSON_parse b = None ->
  let st2 := processNewLines JSON_parse f2 (processNewLines JSON_parse f1 st) in
  forwarded st2 = forwarded st /\ inflight st2 = inflight st /\
  offset st2 (path f2) = String.length (data f2).
Proof.
  intros Ho Hd1 Hp Hd2 Ha Hb Hpa Hpb.
  set (st1 := processNewLines JSON_parse f1 st).
  assert (H1 : forwarded st1 = forwarded st /\ inflight st1 = inflight st /\
               offset st1 (path f1) = String.length (data f1)).
  { subst st1. unfold processNewLines.
    destruct (Nat.leb_spec (String.length (data f1)) (offset st (path f1)))
      as [Hle|Hlt].
    - repeat split. rewrite Hd1, length_append in *. lia.
    - assert (Hn : new_bytes st f1 = a).
      { unfold new_bytes. rewrite Ho, Hd1. apply substring_append. }
      rewrite Hn, (split_lines_single a Ha). simpl.
      rewrite (to_forward_unparsed _ a Hpa). simpl. repeat split.
      unfold offset. simpl. now rewrite lookup_insert_eq. }
  destruct H1 as (Hf1 & Hi1 & Ho1).
  assert (Hd2' : data f2 = data f1 +:+ (b +:+ line_feed)).
  { rewrite Hd2, Hd1. now rewrite append_assoc. }
  intros st2. subst st2. unfold processNewLines.
  rewrite Hp.
  destruct (Nat.leb_spec (String.length (data f2)) (offset st1 (path f1)))
    as [Hle|Hlt].
  - exfalso. rewrite Ho1, Hd2', length_append, length_append in Hle.
    simpl in Hle. lia.
  - assert (Hn : new_bytes st1 f2 = b +:+ line_feed).
    { unfold new_bytes. rewrite Hp, Ho1, Hd2'. apply substring_append. }
    rewrite Hn. unfold line_feed. rewrite (split_lines_one_line b "" Hb).
    simpl. rewrite (to_forward_unparsed _ b Hpb).
    unfold to_forward. simpl. rewrite Hf1, Hi1. repeat split.
    unfold offset. simpl. now rewrite lookup_insert_eq.
Qed.

End Facts.



Lemma text_part_nonempty (c : MessageContent) (t : string) :
  text_part c = Some t ->
  c_type c = "text"%string /\ c_text c = Some t /\ t <> ""%string.
Proof.
  unfold text_part. destruct (String.eqb_spec (c_type c) "text") as [E|];
    [|discriminate].
  destruct (c_text c) as [t'|]; [|discriminate].
  destruct (String.eqb_spec t' "") as [|Hne]; [discriminate|].
  intros [= <-]. auto.
Qed.

Lemma join_lines_nonempty (p : string) (rest : list string) :
  p <> ""%string -> join_lines (p :: rest) <> ""%string.
Proof.
  intros Hp. destruct rest as [|q rest]; simpl; [exact Hp|].
  destruct p; [contradiction | discriminate].
Qed.

(** X14.  [extractTextFromContent] returns the text parts joined by line feeds;
    the result is never the empty string, and it is [null] exactly when no
    part is a text part with a non-empty text. *)
Theorem extractTextFromContent_nonempty (content : list MessageContent) :
  match extractTextFromContent content with
  | Some t =>
      t <> ""%string /\ t = join_lines (omap text_part content) /\
      exists c, c ∈ content /\ c_type c = "text"%string /\
                exists s, c_text c = Some s /\ s <> ""%string
  | None =>
      forall c, c ∈ content ->
        c_type c <> "text"%string \/ c_text c = None \/ c_text c = Some ""%string
  end.
Proof.
  unfold extractTextFromContent.
  destruct (omap text_part content) as [|p rest] eqn:E.
  - intros c Hc.
    destruct (String.eqb_spec (c_type c) "text") as [Ht|Ht]; [|auto].
    right. destruct (c_text c) as [s|] eqn:Es; [|auto]. right.
    destruct (String.eqb_spec s "") as [->|Hs]; [reflexivity|].
    exfalso.
    assert (Hin : s ∈ omap text_part content).
    { apply list_elem_of_omap. exists c. split; [exact Hc|].
      unfold text_part. rewrite Ht, Es. simpl.
      destruct (String.eqb_spec s ""); [contradiction | reflexivity]. }
    rewrite E in Hin. inversion Hin.
  - assert (Hin : p ∈ omap text_part content) by (rewrite E; constructor).
    apply list_elem_of_omap in Hin as (c & Hc & Hp).
    apply text_part_nonempty in Hp as (Ht & Hs & Hne).
    split; [now apply join_lines_nonempty|]. split; [reflexivity|].
    exists c. split; [exact Hc|]. split; [exact Ht|]. exists p. auto.
Qed.

(** The line [x1 hi}] written as [x1 h] and [i}]: nothing is forwarded,
    though a single pass over the whole line forwards it. *)
Lemma torn_line_is_lost_witness :
  let st := start (one_log "") in
  let whole := log ("x1 hi}" +:+ line_feed) in
  forwarded (processNewLines closed_parse whole
               (processNewLines closed_parse (log "x1 h") st)) = [] /\
  forwarded (processNewLines closed_parse whole st) = [("x1", "hi}")]%string.
Proof.
  split; [|vm_compute; reflexivity].
  exact (proj1 (torn_line_is_lost closed_parse (log "x1 h")
                  (log ("x1 hi}" +:+ line_feed)) "" "x1 h" "i}"
                  (start (one_log ""))
                  eq_refl eq_refl eq_refl eq_refl eq_refl eq_refl
                  eq_refl eq_refl)).
Defined.

(** The identifier recorded by the first pass is not forwarded by the
    passes that read the same line again. *)
Lemma recorded_never_forwarded_again_witness :
  exists st st',
    run sample_parse (start (one_log ""))
      [Fire (one_log line_x1); SendDone 0] = Some st /\
    run sample_parse st
      [Fire (one_log (line_x1 +:+ line_x1)); Fire (one_log line_x1)]
      = Some st' /\
    times_forwarded "x1" st' = 1%nat.
Proof.
  destruct (run sample_parse (start (one_log ""))
              [Fire (one_log line_x1); SendDone 0]) as [st|] eqn:Hr;
    [|vm_compute in Hr; discriminate].
  destruct (run sample_parse st
              [Fire (one_log (line_x1 +:+ line_x1)); Fire (one_log line_x1)])
    as [st'|] eqn:Hr'; [|vm_compute in Hr; injection Hr as <-;
                         vm_compute in Hr'; discriminate].
  exists st, st'. split; [reflexivity|]. split; [exact Hr'|].
  assert (Hu : "x1"%string ∈ processedMessages st).
  { vm_compute in Hr. injection Hr as <-. apply (bool_decide_unpack _).
    vm_compute. exact I. }
  destruct (recorded_never_forwarded_again sample_parse _ st st' "x1" Hr' Hu)
    as [Hc _].
  rewrite Hc. vm_compute in Hr. injection Hr as <-. vm_compute. reflexivity.
Defined.

(** Two appends of the same line read by passes that do not overlap. *)
Lemma sequential_passes_forward_once_witness :
  exists st,
    run_seq sample_parse (start (one_log ""))
      [Fire (one_log line_x1); SendDone 0;
       Fire (one_log (line_x1 +:+ line_x1))] = Some st /\
    NoDup (forwarded st).*1 /\ forwarded st = [("x1", "hi")]%string.
Proof.
  destruct (run_seq sample_parse (start (one_log ""))
              [Fire (one_log line_x1); SendDone 0;
               Fire (one_log (line_x1 +:+ line_x1))]) as [st|] eqn:Hr;
    [|vm_compute in Hr; discriminate].
  exists st. split; [reflexivity|].
  split; [exact (sequential_passes_forward_once sample_parse _ _ st Hr)|].
  vm_compute in Hr. injection Hr as <-. reflexivity.
Defined.

(** After the pass over the first line, the pass over the grown log reads
    the second line only. *)
Lemma pass_reads_appended_bytes_witness :
  new_bytes (processNewLines sample_parse (log line_x1) (start (one_log "")))
    (log (line_x1 +:+ "x2 yo")) = "x2 yo"%string.
Proof.
  exact (pass_reads_appended_bytes sample_parse (log line_x1)
           (log (line_x1 +:+ "x2 yo")) "x2 yo" (start (one_log ""))
           ltac:(vm_compute; lia) eq_refl eq_refl).
Defined.

(** The one line of the log is an assistant message and is forwarded. *)
Lemma forwards_assistant_texts_only_witness :
  exists st,
    run sample_parse (start (one_log "")) [Fire (one_log line_x1)] = Some st /\
    forwarded st = [("x1", "hi")]%string /\
    Forall (assistant_text sample_parse) (forwarded st).
Proof.
  destruct (run sample_parse (start (one_log "")) [Fire (one_log line_x1)])
    as [st|] eqn:Hr; [|vm_compute in Hr; discriminate].
  exists st. split; [reflexivity|].
  split; [vm_compute in Hr; injection Hr as <-; reflexivity|].
  exact (forwards_assistant_texts_only sample_parse (one_log "")
           [Fire (one_log line_x1)] st Hr).
Defined.

End TailerFacts.

(** ** Further properties of the debounce *)

Module DebounceFacts.
Import Constants Debounce.

(** Every notification is for a log file and comes less than
    [DEBOUNCE_MS] after the one before it; [t] is the time of the one
    before the first. *)
Fixpoint chained (t : Z) (notifs : list (Z * option string)) : Prop :=
  match notifs with
  | [] => True
  | (u, filename) :: rest =>
      t <= u < t + DEBOUNCE_MS /\ relevant filename = true /\ chained u rest
  end.

(** The time of the last notification, [t] when there is none. *)
Fixpoint last_time (t : Z) (notifs : list (Z * option string)) : Z :=
  match notifs with
  | [] => t
  | (u, _) :: rest => last_time u rest
  end.

(** The pass at [p] is the timer of a notification for a log file. *)
Definition caused_by (seen : list (Z * option string)) (p : Z) : Prop :=
  exists t filename,
    (t, filename) ∈ seen /\ relevant filename = true /\ p = t + DEBOUNCE_MS.

(** The notifications for log files. *)
Definition relevant_count (notifs : list (Z * option string)) : nat :=
  length (filter (fun n => relevant n.2 = true) notifs).

(** The timers set so far: those that have fired and the pending one. *)
Definition timers (st : state) : list Z :=
  passes st ++ match debounceTimer st with Some due => [due] | None => [] end.

(** One write every 60 ms, twenty times. *)
Definition steady_writes : list (Z * option string) :=
  map (fun i => (1000 + 60 * Z.of_nat i, Some "session-a.jsonl"%string))
      (seq 0 20).

Lemma watch_chained (notifs : list (Z * option string)) (t : Z) (st : state) :
  debounceTimer st = Some (t + DEBOUNCE_MS) -> chained t notifs ->
  passes (watch st notifs) = passes st /\
  debounceTimer (watch st notifs) = Some (last_time t notifs + DEBOUNCE_MS).
Proof.
  revert t st. induction notifs as [|[u filename] rest IH]; intros t st Hd Hc.
  - simpl. auto.
  - destruct Hc as (Hu & Hrel & Hc).
    assert (Hn : notify u filename st = mkState (Some (u + DEBOUNCE_MS)) (passes st)).
    { unfold notify, elapse. rewrite Hd.
      destruct (Z.leb_spec (t + DEBOUNCE_MS) u); [lia|]. now rewrite Hrel. }
    simpl watch. rewrite Hn.
    destruct (IH u (mkState (Some (u + DEBOUNCE_MS)) (passes st)) eq_refl Hc)
      as [Hp Ht].
    split; [exact Hp | exact Ht].
Qed.

(** X17.  A stream of notifications for log files, each less than 100 ms after
    the one before, runs no pass while it lasts, however long it lasts; the
    one pass runs 100 ms after the last notification. *)
Theorem debounce_steady_stream (t0 : Z) (filename : option string)
    (notifs : list (Z * option string)) :
  relevant filename = true -> chained t0 notifs ->
  let st := watch idle ((t0, filename) :: notifs) in
  passes st = [] /\
  (forall horizon, horizon < last_time t0 notifs + DEBOUNCE_MS ->
     passes (elapse horizon st) = []) /\
  (forall horizon, last_time t0 notifs + DEBOUNCE_MS <= horizon ->
     passes (elapse horizon st) = [last_time t0 notifs + DEBOUNCE_MS]).
Proof.
  intros Hrel Hc. simpl watch.
  assert (Hn : notify t0 filename idle = mkState (Some (t0 + DEBOUNCE_MS)) []).
  { unfold notify. simpl. now rewrite Hrel. }
  rewrite Hn.
  destruct (watch_chained notifs t0 (mkState (Some (t0 + DEBOUNCE_MS)) [])
              eq_refl Hc) as [Hp Ht].
  simpl in Hp. split; [exact Hp|]. split; intros horizon Hh; unfold elapse;
    rewrite Ht.
  - destruct (Z.leb_spec (last_time t0 notifs + DEBOUNCE_MS) horizon);
      [lia | exact Hp].
  - destruct (Z.leb_spec (last_time t0 notifs + DEBOUNCE_MS) horizon);
      [|lia]. simpl. now rewrite Hp.
Qed.

Lemma caused_by_mono (seen more : list (Z * option string)) (p : Z) :
  caused_by seen p -> caused_by (seen ++ more) p.
Proof.
  intros (t & f & Hin & Hr & ->). exists t, f. split; [|auto].
  apply elem_of_app. now left.
Qed.

Lemma relevant_count_app (a b : list (Z * option string)) :
  relevant_count (a ++ b) = (relevant_count a + relevant_count b)%nat.
Proof. unfold relevant_count. now rewrite filter_app, length_app. Qed.

Lemma elapse_timers (t : Z) (st : state) : timers (elapse t st) = timers st.
Proof.
  unfold timers, elapse. destruct (debounceTimer st) as [due|] eqn:E;
    [|now rewrite E].
  destruct (due <=? t); simpl; [now rewrite app_nil_r | now rewrite E].
Qed.

Lemma elapse_passes_timers (t : Z) (st : state) :
  exists rest, timers st = passes (elapse t st) ++ rest.
Proof.
  rewrite <- (elapse_timers t st). unfold timers. eauto.
Qed.

Lemma notify_timers (seen : list (Z * option string)) (t : Z)
    (filename : option string) (st : state) :
  Forall (caused_by seen) (timers st) ->
  (length (timers st) <= relevant_count seen)%nat ->
  Forall (caused_by (seen ++ [(t, filename)]))
    (timers (notify t filename st)) /\
  (length (timers (notify t filename st))
   <= relevant_count (seen ++ [(t, filename)]))%nat.
Proof.
  intros Hf Hl. rewrite relevant_count_app.
  assert (Hf' : Forall (caused_by (seen ++ [(t, filename)])) (timers st)).
  { eapply Forall_impl; [exact Hf|]. intros p. apply caused_by_mono. }
  unfold notify. destruct (relevant filename) eqn:Hr.
  - destruct (elapse_passes_timers t st) as [rest Hrest].
    unfold timers. simpl. split.
    + apply Forall_app. split.
      * rewrite Hrest in Hf'. now apply Forall_app in Hf' as [H _].
      * constructor; [|constructor]. exists t, filename.
        split; [|auto]. apply elem_of_app. right. constructor.
    + unfold relevant_count at 2. simpl. rewrite filter_cons_True by exact Hr.
      rewrite length_app. simpl.
      assert (length (passes (elapse t st)) <= length (timers st))%nat.
      { rewrite Hrest, length_app. lia. }
      lia.
  - rewrite elapse_timers. split; [exact Hf'|].
    unfold relevant_count at 2. simpl.
    rewrite filter_cons_False by (simpl; congruence). simpl. lia.
Qed.

Lemma watch_timers (notifs seen : list (Z * option string)) (st : state) :
  Forall (caused_by seen) (timers st) ->
  (length (timers st) <= relevant_count seen)%nat ->
  Forall (caused_by (seen ++ notifs)) (timers (watch st notifs)) /\
  (length (timers (watch st notifs)) <= relevant_count (seen ++ notifs))%nat.
Proof.
  revert seen st. induction notifs as [|[t filename] rest IH];
    intros seen st Hf Hl; simpl.
  - rewrite app_nil_r. auto.
  - destruct (notify_timers seen t filename st Hf Hl) as [Hf' Hl'].
    specialize (IH _ _ Hf' Hl'). now rewrite <- app_assoc in IH.
Qed.

(** X18.  Whatever the notifications and their times, every pass is the timer of
    a notification for a log file, 100 ms after it, and there are no more
    passes than such notifications. *)
Theorem debounce_no_spurious_pass (notifs : list (Z * option string))
    (horizon : Z) :
  let st := elapse horizon (watch idle notifs) in
  Forall (caused_by notifs) (passes st) /\
  (length (passes st) <= relevant_count notifs)%nat.
Proof.
  destruct (watch_timers notifs [] idle) as [Hf Hl];
    [constructor | simpl; lia|].
  simpl in Hf, Hl. intros st. subst st.
  destruct (elapse_passes_timers horizon (watch idle notifs)) as [rest Hr].
  rewrite Hr in Hf, Hl. apply Forall_app in Hf as [Hf _].
  split; [exact Hf|]. rewrite length_app in Hl. lia.
Qed.

(** Twenty writes 60 ms apart, over more than a second: no pass until
    100 ms after the last one. *)
Lemma debounce_steady_stream_witness :
  passes (elapse 2239 (watch idle steady_writes)) = [] /\
  passes (elapse 2240 (watch idle steady_writes)) = [2240].
Proof.
  assert (Hc : chained 1000 (tl steady_writes)).
  { unfold steady_writes. simpl. unfold DEBOUNCE_MS.
    repeat (split; [simpl; lia|]; split; [reflexivity|]). exact I. }
  destruct (debounce_steady_stream 1000 (Some "session-a.jsonl"%string)
              (tl steady_writes) eq_refl Hc) as (_ & H1 & H2).
  split.
  - apply (H1 2239). vm_compute. reflexivity.
  - apply (H2 2240). vm_compute. discriminate.
Defined.

End DebounceFacts.

(** ** Further properties of the preemptive orchestrator *)

Module PreemptiveFacts.
Import Constants JsNumber Text Speech Preemptive.

(** The three blocks of [stopCurrentPlayback]. *)
Definition abort_current (st : state) : state :=
  match currentAbortController st with
  | Some c =>
      set_currentAbortController None
        (set_aborted ({[c]} ∪ aborted st) (emit [AbortSignal c] st))
  | None => st
  end.

Definition kill_current (st : state) : state :=
  match currentPlayProcess st with
  | Some p =>
      emit [Broadcast LipsyncStop]
        (set_currentPlayProcess None
           (kill p (emit [Log ConsoleLog MSG_STOPPING] st)))
  | None => st
  end.

Definition unlink_current (st : state) : state :=
  match currentTempFile st with
  | Some f =>
      set_currentTempFile None
        (set_files (files st ∖ {[f]}) (emit [Unlink f] st))
  | None => st
  end.


(** What the cancellation of requests depends on. *)
Definition cancel_view (st : state) : option nat * gset nat * nat :=
  (currentAbortController st, aborted st, next_request st).


Lemma stopCurrentPlayback_blocks (st : state) :
  stopCurrentPlayback st = unlink_current (kill_current (abort_current st)).
Proof. reflexivity. Qed.

Lemma kill_fields (p : nat) (st : state) :
  currentPlayProcess (kill p st) = currentPlayProcess st /\
  currentTempFile (kill p st) = currentTempFile st /\
  cancel_view (kill p st) = cancel_view st.
Proof. unfold kill. destruct (procs st !! p) as [[f []]|]; auto. Qed.

Lemma abort_current_fields (st : state) :
  currentAbortController (abort_current st) = None /\
  currentPlayProcess (abort_current st) = currentPlayProcess st /\
  currentTempFile (abort_current st) = currentTempFile st /\
  aborted (abort_current st) =
    match currentAbortController st with
    | Some c => {[c]} ∪ aborted st
    | None => aborted st
    end /\
  next_request (abort_current st) = next_request st.
Proof.
  unfold abort_current. destruct (currentAbortController st) eqn:E; auto.
Qed.

Lemma kill_current_fields (st : state) :
  currentPlayProcess (kill_current st) = None /\
  currentTempFile (kill_current st) = currentTempFile st /\
  cancel_view (kill_current st) = cancel_view st.
Proof.
  unfold kill_current. destruct (currentPlayProcess st) as [p|] eqn:E; auto.
  destruct (kill_fields p (emit [Log ConsoleLog MSG_STOPPING] st))
    as (_ & Hf & Hv).
  split; [reflexivity|]. split; [exact Hf | exact Hv].
Qed.

Lemma unlink_current_fields (st : state) :
  currentTempFile (unlink_current st) = None /\
  currentPlayProcess (unlink_current st) = currentPlayProcess st /\
  cancel_view (unlink_current st) = cancel_view st.
Proof.
  unfold unlink_current. destruct (currentTempFile st) eqn:E; auto.
Qed.

Lemma stopCurrentPlayback_fields (st : state) :
  currentAbortController (stopCurrentPlayback st) = None /\
  currentPlayProcess (stopCurrentPlayback st) = None /\
  currentTempFile (stopCurrentPlayback st) = None /\
  aborted (stopCurrentPlayback st) =
    match currentAbortController st with
    | Some c => {[c]} ∪ aborted st
    | None => aborted st
    end /\
  next_request (stopCurrentPlayback st) = next_request st.
Proof.
  rewrite stopCurrentPlayback_blocks.
  destruct (abort_current_fields st) as (A1 & A2 & A3 & A4 & A5).
  destruct (kill_current_fields (abort_current st)) as (K1 & K2 & K3).
  destruct (unlink_current_fields (kill_current (abort_current st)))
    as (U1 & U2 & U3).
  unfold cancel_view in K3, U3. injection K3 as K3 K4 K5.
  injection U3 as U3 U4 U5.
  repeat split; congruence.
Qed.

(** X19.  [stopCurrentPlayback] leaves no current request, process or file, and
    a second call right after it does nothing. *)
Theorem stopCurrentPlayback_idempotent (st : state) :
  let st' := stopCurrentPlayback st in
  currentAbortController st' = None /\ currentPlayProcess st' = None /\
  currentTempFile st' = None /\ stopCurrentPlayback st' = st'.
Proof.
  intros st'. subst st'.
  destruct (stopCurrentPlayback_fields st) as (Hc & Hp & Hf & _).
  repeat split; try assumption.
  unfold stopCurrentPlayback at 1. rewrite Hc, Hp, Hf. reflexivity.
Qed.










End PreemptiveFacts.

(** ** Further properties of the [/expression] route *)

Module ExpressFacts.
Import Constants JsNumber Express.

Lemma includes_In (names : list string) (v : option json) :
  includes names v = true -> exists n, v = Some (JStr n) /\ In n names.
Proof.
  destruct v as [[]|]; try discriminate. simpl. intros H.
  apply existsb_exists in H as (x & Hin & Heq).
  apply String.eqb_eq in Heq. subst x. eauto.
Qed.

(** X21.  The [/expression] route answers 400 and notifies nobody, or answers
    200 and notifies one expression: its name is the requested one and one
    of the five, and its duration is truthy, the supplied one or 3000. *)
Theorem post_expression_cases (body : list (string * json)) :
  (status (post_expression body) = 400 /\
   broadcasts (post_expression body) = [] /\
   (truthy (assoc "name" body) = false \/
    includes EXPRESSIONS (assoc "name" body) = false)) \/
  (status (post_expression body) = 200 /\
   exists n d,
     assoc "name" body = Some (JStr n) /\ In n EXPRESSIONS /\
     broadcasts (post_expression body) = [Expression n d] /\
     truthy (Some d) = true /\
     (d = JNum (of_Z 3000) \/ assoc "duration" body = Some d)).
Proof.
  unfold post_expression.
  destruct (truthy (assoc "name" body)) eqn:Ht; simpl; [|left; auto].
  destruct (includes EXPRESSIONS (assoc "name" body)) eqn:Hi; simpl;
    [|left; auto].
  right. destruct (includes_In _ _ Hi) as (n & Hn & Hin). rewrite Hn.
  simpl. split; [reflexivity|].
  destruct (truthy (assoc "duration" body)) eqn:Hd.
  - destruct (assoc "duration" body) as [d|] eqn:Ed; [|discriminate].
    exists n, d. auto 10.
  - exists n, (JNum (of_Z 3000)). repeat split; auto.
Qed.

End ExpressFacts.

(** ** MessageFormatter: from hook data to the text to speak *)

Module Formatter.
Import Constants JsNumber Text Express.

(** The UTF-16 code units of a string literal of the source, which this
    file holds as UTF-8 bytes. *)
Fixpoint utf16_of_utf8 (bs : list N) : jsstring :=
  match bs with
  | [] => []
  | b0 :: rest =>
      if (b0 <? 128)%N then b0 :: utf16_of_utf8 rest
      else if (b0 <? 224)%N then
        match rest with
        | b1 :: rest1 =>
            ((b0 - 192) * 64 + (b1 - 128))%N :: utf16_of_utf8 rest1
        | _ => []
        end
      else if (b0 <? 240)%N then
        match rest with
        | b1 :: b2 :: rest2 =>
            ((b0 - 224) * 4096 + (b1 - 128) * 64 + (b2 - 128))%N
            :: utf16_of_utf8 rest2
        | _ => []
        end
      else
        match rest with
        | b1 :: b2 :: b3 :: rest3 =>
            let cp := ((b0 - 240) * 262144 + (b1 - 128) * 4096
                       + (b2 - 128) * 64 + (b3 - 128))%N in
            (55296 + (cp - 65536) / 1024)%N
            :: (56320 + (cp - 65536) mod 1024)%N :: utf16_of_utf8 rest3
        | _ => []
        end
  end.

Definition js (s : string) : jsstring :=
  utf16_of_utf8 (map Byte.to_N (list_byte_of_string s)).

(** The constants of the Electron file. *)
Definition SHORT_MESSAGE_THRESHOLD : nat := 300.

Definition SESSION_START : jsstring :=
  js "やあ、ぼくずんだもんなのだ！今日もよろしくなのだ！".
Definition SESSION_END : jsstring := js "おつかれさまなのだ！またねなのだ！".
Definition LONG_MESSAGE_FALLBACK : jsstring :=
  js "作業が完了したのだ、詳細はターミナルを確認するのだ".
Definition PERMISSION_REQUEST : jsstring := js "これ実行していいのだ？".
Definition ERROR_BASH : jsstring := js "あれ、エラーが出ちゃったのだ！".
Definition ERROR_BUILD : jsstring := js "ビルドが失敗したのだ！".
Definition ERROR_TEST : jsstring := js "テストが失敗したのだ！".

Definition EXPRESSION_KEYWORDS (expression : string) : list jsstring :=
  if String.eqb expression "shock" then
    map js ["error"; "failed"; "exception"; "crash"; "fatal"; "エラー";
            "失敗"; "問題"; "だめ"; "無理"; "壊れ"]%string
  else if String.eqb expression "smile" then
    map js ["完了"; "成功"; "done"; "success"; "passed"; "ok"; "できた";
            "やった"; "よし"; "いいね"; "ばっちり"]%string
  else if String.eqb expression "eye_sparkle" then
    map js ["見つけ"; "found"; "発見"; "ある"; "いた"; "なるほど";
            "わかった"; "理解"; "ひらめ"]%string
  else if String.eqb expression "surprise" then
    map js ["おお"; "すごい"; "wow"; "amazing"; "！"; "えっ"; "まじ";
            "本当"; "びっくり"]%string
  else [].

Definition EXPRESSION_PRIORITY : list string :=
  ["shock"; "smile"; "eye_sparkle"; "surprise"]%string.

(** [s.startsWith(p)] *)
Fixpoint starts_with (p s : jsstring) : bool :=
  match p, s with
  | [], _ => true
  | a :: p', b :: s' => (a =? b)%N && starts_with p' s'
  | _ :: _, [] => false
  end.

(** [s.includes(p)] *)
Fixpoint js_includes (s p : jsstring) : bool :=
  starts_with p s ||
  match s with
  | [] => false
  | _ :: s' => js_includes s' p
  end.

(** The hook data, with the fields [formatClaudeMessage] reads.  The text
    fields hold strings, as the interface [HookData] of the TypeScript
    formatter declares them; a field that is absent is [None], and
    [tool_error] is the truthiness of the field. *)
Record HookData : Type := {
  hook_event_name : option jsstring;
  message : option jsstring;
  project : option jsstring;
  tool_name : option jsstring;
  tool_error : bool;
  command : option jsstring
}.

(** JS truthiness of a string field. *)
Definition truthy_string (s : option jsstring) : bool :=
  match s with
  | Some (_ :: _) => true
  | _ => false
  end.

(** [field === 'literal'] *)
Definition is_literal (field : option jsstring) (literal : string) : bool :=
  match field with
  | Some s => bool_decide (s = js literal)
  | None => false
  end.

(** [notifyExpression(name, EXPRESSION_DURATION_MS)] *)
Definition notifyExpression (name : string) : MotionEvent :=
  Expression name (JNum (of_Z EXPRESSION_DURATION_MS)).

(** [a || b] on strings *)
Definition or_else (a : option jsstring) (b : jsstring) : jsstring :=
  match a with
  | Some (c :: s) => c :: s
  | _ => b
  end.

(** ['/'] and ['-'] *)
Definition slash : N := 47%N.
Definition dash : N := 45%N.

(** [s.split(sep)] for a separator of one code unit *)
Fixpoint split_on (sep : N) (s : jsstring) : list jsstring :=
  match s with
  | [] => [[]]
  | c :: rest =>
      if (c =? sep)%N then [] :: split_on sep rest
      else match split_on sep rest with
           | l :: ls => (c :: l) :: ls
           | [] => [[c]]
           end
  end.

(** [getFileName] of the TypeScript formatter *)
Definition getFileName (filePath : option jsstring) : option jsstring :=
  match filePath with
  | Some (c :: p) =>
      match List.last (map Some (split_on slash (c :: p))) None with
      | Some (d :: n) => Some (d :: n)
      | _ => None
      end
  | _ => None
  end.

(** [truncate] of the TypeScript formatter *)
Definition truncate (str : jsstring) (maxLength : nat) : jsstring :=
  if (length str <=? maxLength)%nat then str
  else take maxLength str ++ ellipsis.

Section WithEnvironment.

(** [String.prototype.toLowerCase] *)
Variable toLowerCase : jsstring -> jsstring.
(** [convertReadings]: the replacements of the configured readings *)
Variable convertReadings : jsstring -> jsstring.
(** [config.speakEvents.events] *)
Variable events : list jsstring.
(** [config.projectMessages[project][eventName]], when there is one *)
Variable projectMessages : jsstring -> string -> option jsstring.
(** [/\b(build|compile|tsc|webpack|vite|esbuild)\b/i.test(command)] *)
Variable is_build_command : jsstring -> bool.
(** [/\b(test|jest|vitest|mocha|pytest|rspec)\b/i.test(command)] *)
Variable is_test_command : jsstring -> bool.

Definition shouldSpeakEvent (eventName : string) : bool :=
  bool_decide (js eventName ∈ events).

Definition detectExpression (message : jsstring) : string :=
  let lowerMsg := toLowerCase message in
  default "normal"%string
    (List.find
       (fun expression =>
          existsb (fun kw => js_includes lowerMsg (toLowerCase kw))
                  (EXPRESSION_KEYWORDS expression))
       EXPRESSION_PRIORITY).

(** The notifications sent and the value returned. *)
Definition processMessage (message : jsstring)
  : list MotionEvent * option jsstring :=
  ([notifyExpression (detectExpression message)],
   Some (convertReadings message)).

Definition getProjectPrefix (data : HookData) : jsstring :=
  match project data with
  | Some (c :: p) => (c :: p) ++ js "で、"
  | _ => []
  end.

Definition getProjectMessage (data : HookData) (eventName : string)
  : option jsstring :=
  match project data with
  | Some (c :: p) =>
      match projectMessages (c :: p) eventName with
      | Some (d :: m) => Some (d :: m)
      | _ => None
      end
  | _ => None
  end.

Definition formatClaudeMessage (data : HookData)
  : list MotionEvent * option jsstring :=
  if is_literal (hook_event_name data) "AssistantMessage"
     && truthy_string (message data) then
    if negb (shouldSpeakEvent "AssistantMessage") then ([], None)
    else
      let m := default [] (message data) in
      if (length m <? SHORT_MESSAGE_THRESHOLD)%nat then processMessage m
      else
        ([notifyExpression "smile"],
         Some (convertReadings (getProjectPrefix data ++ LONG_MESSAGE_FALLBACK)))
  else if is_literal (hook_event_name data) "SessionStart" then
    ([notifyExpression "smile"],
     Some (convertReadings
             (or_else (getProjectMessage data "SessionStart")
                      (getProjectPrefix data ++ SESSION_START))))
  else if is_literal (hook_event_name data) "SessionEnd" then
    ([notifyExpression "smile"],
     Some (convertReadings
             (or_else (getProjectMessage data "SessionEnd")
                      (getProjectPrefix data ++ SESSION_END))))
  else if is_literal (hook_event_name data) "PermissionRequest" then
    ([notifyExpression "surprise"],
     Some (convertReadings (getProjectPrefix data ++ PERMISSION_REQUEST)))
  else if is_literal (tool_name data) "Bash" && tool_error data then
    let cmd := or_else (command data) [] in
    ([notifyExpression "shock"],
     Some (convertReadings
             (getProjectPrefix data ++
              if is_build_command cmd then ERROR_BUILD
              else if is_test_command cmd then ERROR_TEST
              else ERROR_BASH)))
  else ([], None).

Lemma detectExpression_valid (message : jsstring) :
  In (detectExpression message) EXPRESSIONS.
Proof.
  unfold detectExpression.
  destruct (List.find _ EXPRESSION_PRIORITY) as [e|] eqn:E; simpl.
  - apply find_some in E as [Hin _]. simpl in Hin.
    destruct Hin as [<-|[<-|[<-|[<-|[]]]]]; simpl; tauto.
  - tauto.
Qed.

(** X22.  [formatClaudeMessage] notifies an expression exactly when it returns a
    message: one notification, of one of the five expressions and for
    3000 ms, before a message is returned, and none when it returns
    [null]. *)
Theorem formatClaudeMessage_notifies_once (data : HookData) :
  match formatClaudeMessage data with
  | (notes, Some _) =>
      exists name, notes = [Expression name (JNum (of_Z 3000))] /\
                   In name EXPRESSIONS
  | (notes, None) => notes = []
  end.
Proof.
  unfold formatClaudeMessage.
  destruct (is_literal (hook_event_name data) "AssistantMessage"
            && truthy_string (message data)).
  { destruct (negb (shouldSpeakEvent "AssistantMessage")); [reflexivity|].
    destruct (length (default [] (message data)) <? SHORT_MESSAGE_THRESHOLD)%nat.
    - simpl. eexists. split; [reflexivity | apply detectExpression_valid].
    - exists "smile"%string. simpl. tauto. }
  destruct (is_literal (hook_event_name data) "SessionStart");
    [exists "smile"%string; simpl; tauto|].
  destruct (is_literal (hook_event_name data) "SessionEnd");
    [exists "smile"%string; simpl; tauto|].
  destruct (is_literal (hook_event_name data) "PermissionRequest");
    [exists "surprise"%string; simpl; tauto|].
  destruct (is_literal (tool_name data) "Bash" && tool_error data);
    [exists "shock"%string; simpl; tauto | reflexivity].
Qed.

End WithEnvironment.

Lemma split_on_last (sep : N) (s : jsstring) :
  exists parts n,
    split_on sep s = parts ++ [n] /\ (sep ∉ n) /\
    ((parts = [] /\ s = n) \/
     (parts <> [] /\ exists d, s = d ++ sep :: n)).
Proof.
  induction s as [|c rest IH]; simpl.
  - exists [], []. split; [reflexivity|]. split; [apply not_elem_of_nil|].
    left. auto.
  - destruct IH as (parts & n & Hs & Hn & Hc).
    destruct (N.eqb_spec c sep) as [->|Hne].
    + exists ([] :: parts), n. rewrite Hs. split; [reflexivity|].
      split; [exact Hn|]. right. split; [discriminate|].
      destruct Hc as [[_ ->]|[_ [d ->]]].
      * exists []. reflexivity.
      * exists (sep :: d). reflexivity.
    + rewrite Hs. destruct parts as [|l ls]; simpl.
      * exists [], (c :: n). split; [reflexivity|]. split.
        -- intros Hin. apply elem_of_cons in Hin as [->|Hin]; contradiction.
        -- left. destruct Hc as [[_ ->]|[Hp _]]; [auto | contradiction].
      * exists ((c :: l) :: ls), n. split; [reflexivity|].
        split; [exact Hn|]. right. split; [discriminate|].
        destruct Hc as [[Hp _]|[_ [d ->]]]; [discriminate|].
        exists (c :: d). reflexivity.
Qed.

Lemma last_map_Some (parts : list jsstring) (n : jsstring) :
  List.last (map Some (parts ++ [n])) None = Some n.
Proof. rewrite map_app. simpl. apply last_last. Qed.

(** X23.  [getFileName] returns what follows the last slash of the path: a
    non-empty name without a slash; and [null] exactly when the path is
    absent, empty or ends with a slash. *)
Theorem getFileName_basename (filePath : option jsstring) :
  match getFileName filePath with
  | Some n =>
      n <> [] /\ (slash ∉ n) /\
      exists p, filePath = Some p /\
                ((p = n) \/ (exists d, p = d ++ slash :: n))
  | None =>
      filePath = None \/ filePath = Some [] \/
      exists d, filePath = Some (d ++ [slash])
  end.
Proof.
  destruct filePath as [[|c p]|];
    [right; left; reflexivity| |left; reflexivity].
  unfold getFileName.
  destruct (split_on_last slash (c :: p)) as (parts & n & Hs & Hn & Hc).
  rewrite Hs, last_map_Some.
  destruct n as [|d n].
  - right. right. destruct Hc as [[_ Hc]|[_ [dir Hc]]]; [discriminate|].
    exists dir. now rewrite Hc.
  - split; [discriminate|]. split; [exact Hn|]. exists (c :: p).
    split; [reflexivity|]. destruct Hc as [[_ Hc]|[_ Hc]]; auto.
Qed.

Lemma truncate_long (str : jsstring) (maxLength : nat) :
  (maxLength < length str)%nat ->
  truncate str maxLength = take maxLength str ++ ellipsis.
Proof.
  intros H. unfold truncate.
  destruct (Nat.leb_spec (length str) maxLength); [lia | reflexivity].
Qed.

(** X24.  [truncate] returns a string within the limit as it is; of a longer
    one it keeps the first [maxLength] code units, followed by three dots,
    so the result has at most [maxLength + 3] code units; a second cut
    changes nothing.  The cut of the speech text is [truncate] at 200. *)
Theorem truncate_bounds (str : jsstring) (maxLength : nat) :
  (length (truncate str maxLength) <= maxLength + 3)%nat /\
  take maxLength (truncate str maxLength) = take maxLength str /\
  ((length str <= maxLength)%nat -> truncate str maxLength = str) /\
  truncate (truncate str maxLength) maxLength = truncate str maxLength /\
  truncateText str = truncate str MAX_TEXT_LENGTH.
Proof.
  assert (He : length ellipsis = 3%nat) by reflexivity.
  assert (Hcut : truncateText str = truncate str MAX_TEXT_LENGTH).
  { unfold truncateText, truncate, MAX_TEXT_LENGTH.
    destruct (Nat.ltb_spec 200 (length str)),
             (Nat.leb_spec (length str) 200); try lia; reflexivity. }
  assert (Hshort : forall s, (length s <= maxLength)%nat ->
                             truncate s maxLength = s).
  { intros s Hs. unfold truncate.
    destruct (Nat.leb_spec (length s) maxLength); [reflexivity | lia]. }
  destruct (Nat.leb_spec (length str) maxLength) as [Hle|Hlt].
  - rewrite !(Hshort str Hle). repeat split; auto. lia.
  - rewrite (truncate_long str maxLength Hlt).
    assert (Htake : take maxLength (take maxLength str ++ ellipsis) =
                    take maxLength str).
    { rewrite take_app_le by (rewrite length_take; lia).
      rewrite take_take. now rewrite Nat.min_id. }
    split; [|split; [|split; [|split]]].
    + rewrite length_app, length_take, He. lia.
    + exact Htake.
    + intros ?. lia.
    + rewrite truncate_long by (rewrite length_app, length_take, He; lia).
      now rewrite Htake.
    + exact Hcut.
Qed.

End Formatter.

(** ** The directory of a project's session logs *)

Module ProjectDir.
Import Text Formatter.

(** [c === '/' ? '-' : c] *)
Definition slash_to_dash (c : N) : N := if (c =? slash)%N then dash else c.

(** [cwd.replace(/\//g, "-").replace(/^-/, "-")] *)
Definition getProjectDirName (cwd : jsstring) : jsstring :=
  let replaced := map slash_to_dash cwd in
  match replaced with
  | c :: rest => if (c =? dash)%N then dash :: rest else replaced
  | [] => replaced
  end.

Lemma slash_to_dash_idempotent (c : N) :
  slash_to_dash (slash_to_dash c) = slash_to_dash c.
Proof. unfold slash_to_dash. destruct (N.eqb_spec c slash); [reflexivity|].
  destruct (N.eqb_spec c slash); [contradiction | reflexivity]. Qed.

Lemma getProjectDirName_map (cwd : jsstring) :
  getProjectDirName cwd = map slash_to_dash cwd.
Proof.
  unfold getProjectDirName.
  destruct (map slash_to_dash cwd) as [|c rest]; [reflexivity|].
  destruct (N.eqb_spec c dash) as [->|]; reflexivity.
Qed.

(** X25.  [getProjectDirName] replaces every slash by a dash and nothing else
    (the second [replace] changes nothing): the result has the length of
    the path and no slash, and a path without a slash is returned as it
    is.  Applying it twice is applying it once, so a path with a slash
    and the different path with dashes in their place name the same
    directory. *)
Theorem getProjectDirName_collides (cwd : jsstring) :
  length (getProjectDirName cwd) = length cwd /\
  (slash ∉ getProjectDirName cwd) /\
  ((slash ∉ cwd) -> getProjectDirName cwd = cwd) /\
  getProjectDirName (getProjectDirName cwd) = getProjectDirName cwd /\
  ((slash ∈ cwd) -> getProjectDirName cwd <> cwd).
Proof.
  rewrite !getProjectDirName_map.
  assert (Hno : slash ∉ map slash_to_dash cwd).
  { intros Hin. apply list_elem_of_fmap in Hin as (c & Hc & _).
    unfold slash_to_dash in Hc.
    destruct (N.eqb_spec c slash); [discriminate | congruence]. }
  split; [apply length_map|]. split; [exact Hno|]. split; [|split].
  - clear Hno. induction cwd as [|c s IH]; [reflexivity|]. intros Hs.
    apply not_elem_of_cons in Hs as [Hc Hs]. simpl. rewrite (IH Hs).
    unfold slash_to_dash.
    destruct (N.eqb_spec c slash); [congruence | reflexivity].
  - rewrite map_map. apply map_ext. intros c. apply slash_to_dash_idempotent.
  - intros Hin Heq. rewrite Heq in Hno. contradiction.
Qed.

End ProjectDir.

(** ** The debounce timer of the Electron file, shared by the watched
    directories *)

Module SharedDebounce.
Import Constants.

(** A notification: the time, the watched directory whose watcher calls
    back, and the file name it reports. *)
Record notification : Type := {
  n_time : Z;
  n_dir : nat;
  n_filename : option string
}.

Record state : Type := mkState {
  (** the pending timer of [sessionWatcher.debounceTimer]: when it is due
      and the directory its callback reads *)
  debounceTimer : option (Z * nat);
  (** the read passes: when, and of which directory *)
  passes : list (Z * nat)
}.

Definition idle : state := mkState None [].

(** The clock reaches [t]: a timer due by then has run its callback. *)
Definition elapse (t : Z) (st : state) : state :=
  match debounceTimer st with
  | Some (due, dir) =>
      if due <=? t then mkState None (passes st ++ [(due, dir)]) else st
  | None => st
  end.

(** The callback of the watcher of directory [n_dir]: [clearTimeout] of the
    one timer, then [setTimeout(..., SESSION_DEBOUNCE_MS)]. *)
Definition notify (n : notification) (st : state) : state :=
  let st := elapse (n_time n) st in
  if Debounce.relevant (n_filename n)
  then mkState (Some (n_time n + DEBOUNCE_MS, n_dir n)) (passes st)
  else st.

Fixpoint watch (st : state) (notifs : list notification) : state :=
  match notifs with
  | [] => st
  | n :: rest => watch (notify n st) rest
  end.

(** Every notification is for a log file and comes less than 100 ms after
    the one before it, which came at [t]. *)
Fixpoint chained (t : Z) (notifs : list notification) : Prop :=
  match notifs with
  | [] => True
  | n :: rest =>
      t <= n_time n < t + DEBOUNCE_MS /\
      Debounce.relevant (n_filename n) = true /\ chained (n_time n) rest
  end.

(** The last notification of [n :: notifs]. *)
Fixpoint last_notification (n : notification) (notifs : list notification)
  : notification :=
  match notifs with
  | [] => n
  | m :: rest => last_notification m rest
  end.

(** A write to the log of directory 0 and, 40 ms later, one to the log of
    directory 1. *)
Definition two_projects : list notification :=
  [{| n_time := 1000; n_dir := 0; n_filename := Some "a.jsonl"%string |};
   {| n_time := 1040; n_dir := 1; n_filename := Some "b.jsonl"%string |}].

Lemma shared_watch_chained (notifs : list notification) (n : notification)
    (st : state) :
  debounceTimer st = Some (n_time n + DEBOUNCE_MS, n_dir n) ->
  chained (n_time n) notifs ->
  passes (watch st notifs) = passes st /\
  debounceTimer (watch st notifs) =
    Some (n_time (last_notification n notifs) + DEBOUNCE_MS,
          n_dir (last_notification n notifs)).
Proof.
  revert n st. induction notifs as [|m rest IH]; intros n st Hd Hc.
  - simpl. auto.
  - destruct Hc as (Hu & Hrel & Hc).
    assert (Hn : notify m st =
                 mkState (Some (n_time m + DEBOUNCE_MS, n_dir m)) (passes st)).
    { unfold notify, elapse. rewrite Hd.
      destruct (Z.leb_spec (n_time n + DEBOUNCE_MS) (n_time m)); [lia|].
      now rewrite Hrel. }
    simpl watch. rewrite Hn.
    exact (IH m (mkState (Some (n_time m + DEBOUNCE_MS, n_dir m)) (passes st))
             eq_refl Hc).
Qed.

(** X26.  The Electron file keeps one timer for all the directories it watches:
    of notifications for log files that follow each other by less than
    100 ms, in whatever directories, only the last one gets a pass, and it
    reads the directory of that notification; the other directories are
    not read. *)
Theorem shared_timer_reads_last_directory (n : notification)
    (notifs : list notification) (horizon : Z) :
  Debounce.relevant (n_filename n) = true -> chained (n_time n) notifs ->
  n_time (last_notification n notifs) + DEBOUNCE_MS <= horizon ->
  passes (elapse horizon (watch idle (n :: notifs))) =
    [(n_time (last_notification n notifs) + DEBOUNCE_MS,
      n_dir (last_notification n notifs))].
Proof.
  intros Hrel Hc Hh. simpl watch.
  assert (Hn : notify n idle =
               mkState (Some (n_time n + DEBOUNCE_MS, n_dir n)) []).
  { unfold notify. simpl. now rewrite Hrel. }
  rewrite Hn.
  destruct (shared_watch_chained notifs n
              (mkState (Some (n_time n + DEBOUNCE_MS, n_dir n)) [])
              eq_refl Hc) as [Hp Ht].
  unfold elapse. rewrite Ht. simpl in Hp.
  destruct (Z.leb_spec (n_time (last_notification n notifs) + DEBOUNCE_MS)
              horizon); [|lia].
  simpl. now rewrite Hp.
Qed.

(** The log of directory 0 is written, then the log of directory 1: only
    directory 1 is read. *)
Lemma shared_timer_reads_last_directory_witness :
  passes (elapse 5000 (watch idle two_projects)) = [(1140, 1%nat)].
Proof.
  apply (shared_timer_reads_last_directory
           {| n_time := 1000; n_dir := 0; n_filename := Some "a.jsonl"%string |}
           [{| n_time := 1040; n_dir := 1;
               n_filename := Some "b.jsonl"%string |}]
           5000).
  - reflexivity.
  - simpl. unfold DEBOUNCE_MS. split; [lia|]. split; [reflexivity | exact I].
  - simpl. unfold DEBOUNCE_MS. lia.
Defined.

End SharedDebounce.

(** ** ClientBroadcaster: the set of clients and [broadcast] *)

Module ClientBroadcaster.
Import Constants JsNumber Express.

(** [ws.readyState] *)
Inductive readyState : Type :=
| CONNECTING
| OPEN
| CLOSING
| CLOSED.

#[global] Instance readyState_eq_dec : EqDecision readyState.
Proof. solve_decision. Defined.

Record state : Type := mkState {
  (** the [Set] of clients, in insertion order *)
  clients : list nat;
  (** the state of every socket the server has accepted *)
  sockets : gmap nat readyState;
  (** every [client.send(json)]: the client and the message *)
  sent : list (nat * MotionEvent)
}.

Inductive event : Type :=
| Connection (ws : nat)
| StartClose (ws : nat)
| Close (ws : nat)
| Broadcast (m : MotionEvent).

Definition init : state := mkState [] ∅ [].

(** [clients.add(ws)] *)
Definition addClient (ws : nat) (st : state) : state :=
  mkState (if bool_decide (ws ∈ clients st) then clients st
           else clients st ++ [ws])
          (sockets st) (sent st).

(** [clients.delete(ws)] *)
Definition removeClient (ws : nat) (st : state) : state :=
  mkState (filter (fun c => c <> ws) (clients st)) (sockets st) (sent st).

(** [client.readyState === WebSocket.OPEN] *)
Definition is_open (st : state) (c : nat) : bool :=
  bool_decide (sockets st !! c = Some OPEN).

(** [broadcast(message)] *)
Definition broadcast (m : MotionEvent) (st : state) : state :=
  mkState (clients st) (sockets st)
    (sent st ++ map (fun c => (c, m)) (filter (fun c => is_open st c = true)
                                              (clients st))).

Definition set_socket (ws : nat) (s : readyState) (st : state) : state :=
  mkState (clients st) (<[ws := s]> (sockets st)) (sent st).

(** One turn of the event loop; [None] when the event cannot happen: a
    socket connects once, starts closing while open, and is closed once. *)
Definition step (st : state) (ev : event) : option state :=
  match ev with
  | Connection ws =>
      match sockets st !! ws with
      | None => Some (addClient ws (set_socket ws OPEN st))
      | Some _ => None
      end
  | StartClose ws =>
      match sockets st !! ws with
      | Some OPEN => Some (set_socket ws CLOSING st)
      | _ => None
      end
  | Close ws =>
      match sockets st !! ws with
      | Some OPEN | Some CLOSING => Some (removeClient ws (set_socket ws CLOSED st))
      | _ => None
      end
  | Broadcast m => Some (broadcast m st)
  end.

Fixpoint run (st : state) (evs : list event) : option state :=
  match evs with
  | [] => Some st
  | ev :: rest => st' ← step st ev; run st' rest
  end.

(** What client [c] has been sent, in order. *)
Definition inbox (st : state) (c : nat) : list MotionEvent :=
  (filter (fun x => x.1 = c) (sent st)).*2.

(** The clients are a set, and hold the sockets that are not closed. *)
Definition set_inv (st : state) : Prop :=
  NoDup (clients st) /\
  forall c, c ∈ clients st <->
            (sockets st !! c = Some OPEN \/ sockets st !! c = Some CLOSING).

(** Two clients; the first starts closing before the second message and
    is closed before the third. *)
Definition two_clients : list event :=
  [Connection 0; Connection 1; Broadcast LipsyncStop;
   StartClose 0; Broadcast LipsyncStop; Close 0; Broadcast LipsyncStop].

Lemma inbox_app (st : state) (more : list (nat * MotionEvent)) (c : nat) :
  (filter (fun x => x.1 = c) (sent st ++ more)).*2 =
  inbox st c ++ (filter (fun x => x.1 = c) more).*2.
Proof. unfold inbox. now rewrite filter_app, fmap_app. Qed.

Lemma filter_tagged (m : MotionEvent) (l : list nat) (c : nat) :
  NoDup l ->
  (filter (fun x : nat * MotionEvent => x.1 = c)
          (map (fun d => (d, m)) l)).*2 =
  if bool_decide (c ∈ l) then [m] else [].
Proof.
  induction 1 as [|d l Hd Hl IH]; [reflexivity|].
  rewrite map_cons. destruct (decide (d = c)) as [->|Hne].
  - rewrite filter_cons_True by reflexivity. rewrite fmap_cons, IH.
    rewrite (bool_decide_false (c ∈ l)) by exact Hd.
    rewrite (bool_decide_true (c ∈ c :: l)) by constructor. reflexivity.
  - rewrite filter_cons_False by (simpl; congruence). rewrite IH.
    destruct (decide (c ∈ l)) as [Hin|Hin].
    + rewrite (bool_decide_true (c ∈ l)) by exact Hin.
      rewrite (bool_decide_true (c ∈ d :: l)) by (now constructor).
      reflexivity.
    + rewrite (bool_decide_false (c ∈ l)) by exact Hin.
      rewrite (bool_decide_false (c ∈ d :: l)); [reflexivity|].
      intros Hc. apply elem_of_cons in Hc as [->|Hc]; contradiction.
Qed.

Lemma step_set_inv (st st' : state) (ev : event) :
  set_inv st -> step st ev = Some st' -> set_inv st'.
Proof.
  intros [Hnd Hcl] Hs. destruct ev as [ws|ws|ws|m]; simpl in Hs.
  - destruct (sockets st !! ws) as [s|] eqn:Es; [discriminate|].
    injection Hs as <-.
    assert (Hnot : ws ∉ clients st).
    { intros Hin. apply Hcl in Hin. rewrite Es in Hin.
      destruct Hin; discriminate. }
    unfold addClient, set_inv. simpl.
    rewrite bool_decide_false by exact Hnot. split.
    + apply NoDup_app. split; [exact Hnd|]. split.
      * intros x Hx Hx'. apply list_elem_of_singleton in Hx'. subst x.
        contradiction.
      * apply NoDup_singleton.
    + intros c. rewrite elem_of_app, list_elem_of_singleton.
      destruct (decide (c = ws)) as [->|Hne].
      * rewrite lookup_insert_eq. split; [left; reflexivity | right; reflexivity].
      * rewrite lookup_insert_ne by congruence. rewrite Hcl. tauto.
  - destruct (sockets st !! ws) as [[]|] eqn:Es; try discriminate.
    injection Hs as <-. split; [exact Hnd|]. intros c. simpl.
    destruct (decide (c = ws)) as [->|Hne].
    + rewrite lookup_insert_eq. rewrite Hcl, Es. split; [|left; reflexivity].
      intros _. right. reflexivity.
    + rewrite lookup_insert_ne by congruence. apply Hcl.
  - assert (Hcase : sockets st !! ws = Some OPEN \/
                    sockets st !! ws = Some CLOSING).
    { destruct (sockets st !! ws) as [[]|]; try discriminate; auto. }
    assert (Hst : st' = removeClient ws (set_socket ws CLOSED st)).
    { destruct (sockets st !! ws) as [[]|]; try discriminate;
        now injection Hs as <-. }
    subst st'. split.
    + simpl. now apply NoDup_filter.
    + intros c. simpl. rewrite list_elem_of_filter.
      destruct (decide (c = ws)) as [->|Hne].
      * rewrite lookup_insert_eq. split; [intros [? _]; congruence|].
        intros [?|?]; discriminate.
      * rewrite lookup_insert_ne by congruence. rewrite Hcl. tauto.
  - injection Hs as <-. split; [exact Hnd | exact Hcl].
Qed.

Lemma run_set_inv (evs : list event) (st st' : state) :
  set_inv st -> run st evs = Some st' -> set_inv st'.
Proof.
  revert st. induction evs as [|ev evs IH]; intros st Hi Hr; simpl in Hr.
  - now injection Hr as <-.
  - destruct (step st ev) as [s1|] eqn:Es; [|discriminate]. simpl in Hr.
    apply (IH s1); [|exact Hr]. exact (step_set_inv st s1 ev Hi Es).
Qed.

Lemma init_set_inv : set_inv init.
Proof.
  split; [constructor|]. intros c. simpl. rewrite lookup_empty.
  split; [intros H; inversion H | intros [?|?]; discriminate].
Qed.

(** X27.  On every schedule of connections, closes and broadcasts: a broadcast
    sends the message once to every client whose socket is open, and
    nothing to any other: not to a socket that is closing or closed, and
    not twice to anyone. *)
Theorem broadcast_reaches_open_clients (evs : list event) (st : state)
    (m : MotionEvent) (c : nat) :
  run init evs = Some st ->
  inbox (broadcast m st) c =
    inbox st c ++ (if is_open st c then [m] else []).
Proof.
  intros Hr. destruct (run_set_inv evs init st init_set_inv Hr) as [Hnd Hcl].
  unfold broadcast. unfold inbox at 1. simpl. rewrite inbox_app. f_equal.
  rewrite filter_tagged by (now apply NoDup_filter).
  unfold is_open.
  destruct (decide (sockets st !! c = Some OPEN)) as [Ho|Ho].
  - rewrite (bool_decide_true _ Ho). rewrite bool_decide_true; [reflexivity|].
    apply list_elem_of_filter. split.
    + unfold is_open. now rewrite bool_decide_true.
    + apply Hcl. now left.
  - rewrite (bool_decide_false _ Ho). rewrite bool_decide_false; [reflexivity|].
    intros Hin. apply list_elem_of_filter in Hin as [Hop _].
    unfold is_open in Hop. apply bool_decide_eq_true in Hop. contradiction.
Qed.

(** The client that stays open receives the three messages; the other one
    only the first. *)
Lemma broadcast_reaches_open_clients_witness :
  exists st,
    run init two_clients = Some st /\
    inbox st 0 = [LipsyncStop] /\
    inbox st 1 = [LipsyncStop; LipsyncStop; LipsyncStop] /\
    inbox (broadcast LipsyncStop st) 1 = inbox st 1 ++ [LipsyncStop] /\
    inbox (broadcast LipsyncStop st) 0 = inbox st 0 ++ [].
Proof.
  destruct (run init two_clients) as [st|] eqn:Hr;
    [|vm_compute in Hr; discriminate].
  exists st. split; [reflexivity|].
  pose proof (broadcast_reaches_open_clients two_clients st LipsyncStop 1 Hr)
    as H1.
  pose proof (broadcast_reaches_open_clients two_clients st LipsyncStop 0 Hr)
    as H0.
  vm_compute in Hr. injection Hr as <-.
  split; [vm_compute; reflexivity|]. split; [vm_compute; reflexivity|].
  split; [exact H1 | exact H0].
Defined.

End ClientBroadcaster.
